(** * Ludo game backend: rules engine and room directory

    A shallow embedding of [LudoGameService] (the gateway / safe-square
    rules engine) and [RoomsService] (the in-memory room directory) of
    the NestJS backend, together with the properties of the written
    specification that concern them.

    Conventions of the embedding
    - JavaScript numbers that hold board positions, dice values and
      counters are integers ([Z]); the turn index is a [jsnum] because
      [x % 0] yields [NaN] in [passTurn].
    - [null] / [undefined] are [None].
    - A thrown NestJS exception is [Throw e]; the engine functions are
      pure, the directory functions thread the service state and keep it
      when they throw.
    - [Math.random()], [uuidv4()] and [new Date()] are inputs of the
      function that calls them: the random number is a double of the
      unit interval, given as the rational that it is, and its product
      with the number of faces is rounded to the nearest double as the
      multiplication of JavaScript does; the clock is read once per
      call.
    - Arrays are lists; an object used as a dictionary is a [gmap], or
      an association list where the order of its keys matters. *)

From Stdlib Require Import ZArith QArith Qround Lia.
From stdpp Require Import base option list strings gmap.

Close Scope Q_scope.
Open Scope Z_scope.

(* ===================================================================== *)
(** ** Entities (entities/player.entity.ts)                               *)
(* ===================================================================== *)

(** [enum PlayerColor], in declaration order ([Object.values] order). *)
Inductive PlayerColor := RED | BLUE | GREEN | YELLOW.

#[global] Instance PlayerColor_eq_dec : EqDecision PlayerColor.
Proof. solve_decision. Defined.

(** The string value of each enum member. *)
Definition colorValue (c : PlayerColor) : string :=
  match c with
  | RED => "red" | BLUE => "blue" | GREEN => "green" | YELLOW => "yellow"
  end.

Definition PlayerColor_values : list PlayerColor := [RED; BLUE; GREEN; YELLOW].

Record Player := mkPlayer {
  player_id : string;
  name : string;
  player_color : PlayerColor;
  isReady : bool;
  isAdmin : bool;
  joinedAt : Z;
  sessionId : string;
}.

Inductive RoomStatus := WAITING | PLAYING | FINISHED.

#[global] Instance RoomStatus_eq_dec : EqDecision RoomStatus.
Proof. solve_decision. Defined.

Record Token := mkToken {
  token_id : string;
  token_color : PlayerColor;
  position : Z;
  isInHome : bool;
  isInHomeStretch : bool;
  isFinished : bool;
}.

Record MoveRecord := mkMoveRecord {
  playerColor : PlayerColor;
  tokenId : string;
  move_from : Z;
  move_to : Z;
  timestamp : Z;
  capturedTokenId : option string;
}.

(** A JavaScript number used as an array index: an integer or [NaN]. *)
Inductive jsnum := Num (z : Z) | NaN.

#[global] Instance jsnum_eq_dec : EqDecision jsnum.
Proof. solve_decision. Defined.

Record GameState := mkGameState {
  currentTurnPlayerIndex : jsnum;
  diceValue : option Z;
  canRollDice : bool;
  consecutiveSixes : Z;
  tokens : list Token;
  winner : option PlayerColor;
  moveHistory : list MoveRecord;
  playerColorOrder : option (list PlayerColor);
  validMoves : list string;
}.

Record Room := mkRoom {
  room_id : string;
  code : string;
  adminId : string;
  players : list Player;
  maxPlayers : Z;
  status : RoomStatus;
  createdAt : Z;
  lastActivity : Z;
  gameState : option GameState;
}.

(* ===================================================================== *)
(** ** Exceptions and JavaScript array helpers                            *)
(* ===================================================================== *)

Inductive Exception :=
  | BadRequestException (msg : string)
  | NotFoundException (msg : string)
  | ConflictException (msg : string)
  | TypeError.

Inductive Result (A : Type) :=
  | Ok (a : A)
  | Throw (e : Exception).
Arguments Ok {A} a.
Arguments Throw {A} e.

(** The error classes of the specification's taxonomy. *)
Definition isIllegalAction (e : Exception) : Prop :=
  match e with BadRequestException _ => True | _ => False end.

Definition isConflict (e : Exception) : Prop :=
  match e with ConflictException _ => True | _ => False end.

Definition isOk {A} (r : Result A) : Prop :=
  match r with Ok _ => True | Throw _ => False end.

(** [arr.find(p)] and [arr.findIndex(p)]; [None] stands for [undefined]
    and for the index [-1]. *)
Definition find {A} (P : A → Prop) `{∀ x, Decision (P x)} (l : list A) : option A :=
  snd <$> list_find P l.

Definition findIndex {A} (P : A → Prop) `{∀ x, Decision (P x)} (l : list A) : option nat :=
  fst <$> list_find P l.

(** [arr[n]] for a number [n]: [undefined] outside the array and at [NaN]. *)
Definition js_index {A} (l : list A) (n : jsnum) : option A :=
  match n with
  | Num z => if decide (0 ≤ z) then l !! Z.to_nat z else None
  | NaN => None
  end.

(** [(n + 1) % m]: the remainder has the sign of the dividend and is
    [NaN] for a zero divisor. *)
Definition js_succ_rem (n : jsnum) (m : Z) : jsnum :=
  match n with
  | Num z => if decide (m = 0) then NaN else Num (Z.rem (z + 1) m)
  | NaN => NaN
  end.

(** [!!s] for an optional string: [undefined] and the empty string are falsy. *)
Definition truthy (s : option string) : bool :=
  match s with
  | Some s => negb (bool_decide (s = EmptyString))
  | None => false
  end.

(** *** Doubles

    A JavaScript number is a binary64 value; the finite ones are
    rationals.  [roundDouble] is the rounding that every arithmetic
    operation applies to its exact result: to the nearest double, to the
    one with the even significand when two are equally near.  Overflow
    to infinity is left out: the function is used on magnitudes far
    below [2^1024]. *)

(** [2^e] as a rational. *)
Definition pow2 (e : Z) : Q :=
  if decide (0 ≤ e) then inject_Z (2 ^ e) else Qmake 1 (Z.to_pos (2 ^ (- e))).

(** The exponent [e] with [2^e <= x < 2^(e+1)], for a positive [x]. *)
Definition binade (x : Q) : Z :=
  let e := Z.log2 (Qnum x) - Z.log2 (Zpos (Qden x)) in
  if Qle_bool (pow2 e) x then e else e - 1.

(** The integer nearest to [q], the even one of two equally near. *)
Definition roundHalfEven (q : Q) : Z :=
  let n := Qnum q in
  let d := Zpos (Qden q) in
  match (2 * (n mod d)) ?= d with
  | Lt => n / d
  | Gt => n / d + 1
  | Eq => if Z.even (n / d) then n / d else n / d + 1
  end.

(** The doubles around a positive [x] are the multiples of [2^u], where
    [u] is 52 below the exponent of [x], and -1074 for the subnormal
    numbers. *)
Definition roundPositive (x : Q) : Q :=
  let u := Z.max (binade x - 52) (-1074) in
  (inject_Z (roundHalfEven (x * pow2 (- u))) * pow2 u)%Q.

Definition roundDouble (x : Q) : Q :=
  match (x ?= 0)%Q with
  | Eq => 0%Q
  | Gt => roundPositive x
  | Lt => (- roundPositive (- x))%Q
  end.

(** The rationals that are doubles: rounding leaves them as they are. *)
Definition isDouble (x : Q) : bool := Qeq_bool (roundDouble x) x.

(** Field updates written [{ ...gameState, f: v }] in the source. *)
Definition set_tokens (v : list Token) (g : GameState) : GameState :=
  mkGameState (currentTurnPlayerIndex g) (diceValue g) (canRollDice g)
    (consecutiveSixes g) v (winner g) (moveHistory g) (playerColorOrder g) (validMoves g).
Definition set_diceValue (v : option Z) (g : GameState) : GameState :=
  mkGameState (currentTurnPlayerIndex g) v (canRollDice g)
    (consecutiveSixes g) (tokens g) (winner g) (moveHistory g) (playerColorOrder g) (validMoves g).
Definition set_canRollDice (v : bool) (g : GameState) : GameState :=
  mkGameState (currentTurnPlayerIndex g) (diceValue g) v
    (consecutiveSixes g) (tokens g) (winner g) (moveHistory g) (playerColorOrder g) (validMoves g).
Definition set_consecutiveSixes (v : Z) (g : GameState) : GameState :=
  mkGameState (currentTurnPlayerIndex g) (diceValue g) (canRollDice g)
    v (tokens g) (winner g) (moveHistory g) (playerColorOrder g) (validMoves g).
Definition set_currentTurnPlayerIndex (v : jsnum) (g : GameState) : GameState :=
  mkGameState v (diceValue g) (canRollDice g)
    (consecutiveSixes g) (tokens g) (winner g) (moveHistory g) (playerColorOrder g) (validMoves g).
Definition set_winner (v : option PlayerColor) (g : GameState) : GameState :=
  mkGameState (currentTurnPlayerIndex g) (diceValue g) (canRollDice g)
    (consecutiveSixes g) (tokens g) v (moveHistory g) (playerColorOrder g) (validMoves g).
Definition set_moveHistory (v : list MoveRecord) (g : GameState) : GameState :=
  mkGameState (currentTurnPlayerIndex g) (diceValue g) (canRollDice g)
    (consecutiveSixes g) (tokens g) (winner g) v (playerColorOrder g) (validMoves g).
Definition set_validMoves (v : list string) (g : GameState) : GameState :=
  mkGameState (currentTurnPlayerIndex g) (diceValue g) (canRollDice g)
    (consecutiveSixes g) (tokens g) (winner g) (moveHistory g) (playerColorOrder g) v.

(* ===================================================================== *)
(** ** LudoGameService                                                    *)
(* ===================================================================== *)

Module LudoGameService.

(** *** Board constants *)

Definition START_POS (c : PlayerColor) : Z :=
  match c with RED => 0 | GREEN => 13 | YELLOW => 27 | BLUE => 41 end.

Definition GATEWAY (c : PlayerColor) : Z :=
  match c with RED => 51 | GREEN => 25 | YELLOW => 39 | BLUE => 46 end.

Definition SAFE_SQUARES : list Z := [0; 8; 13; 21; 27; 35; 41; 49].

(** *** initializeGame *)

Definition indexDigit (i : nat) : string :=
  match i with
  | O => "0" | 1%nat => "1" | 2%nat => "2" | _ => "3"
  end.

(** The token pushed for [player] at loop counter [i]. *)
Definition newToken (player : Player) (i : nat) : Token :=
  {| token_id := colorValue (player_color player) +:+ "-" +:+ indexDigit i;
     token_color := player_color player;
     position := -1;
     isInHome := true;
     isInHomeStretch := false;
     isFinished := false |}.

Definition initializeGame (players : list Player) : GameState :=
  let tokens := players ≫= (λ player, newToken player <$> [0; 1; 2; 3]%nat) in
  {| currentTurnPlayerIndex := Num 0;
     diceValue := None;
     canRollDice := true;
     consecutiveSixes := 0;
     tokens := tokens;
     winner := None;
     moveHistory := [];
     playerColorOrder := Some (player_color <$> players);
     validMoves := [] |}.

(** *** Core movement logic *)

(** Clockwise steps from [from] to [to] on the main ring. *)
Definition stepsFromTo (from to : Z) : Z :=
  if decide (to >= from) then to - from else 52 - from + to.

Definition calculateNewPosition (token : Token) (diceValue : Z) : option Z :=
  if isInHome token then
    (if decide (diceValue = 6) then Some (START_POS (token_color token)) else None)
  else if isFinished token then None
  else if isInHomeStretch token then
    let next := position token + diceValue in
    if decide (next = 57) then Some 57
    else if decide (next > 57) then None
    else Some next
  else
    let gateway := GATEWAY (token_color token) in
    let stepsToGateway := stepsFromTo (position token) gateway in
    if decide (diceValue <= stepsToGateway) then
      let rawNew := position token + diceValue in
      Some (if decide (rawNew > 51) then rawNew - 52 else rawNew)
    else
      let stepsIntoStretch := diceValue - stepsToGateway - 1 in
      let stretchPos := 52 + stepsIntoStretch in
      if decide (stretchPos > 56) then None else Some stretchPos.

(** [playerColor] is optional because [getCurrentPlayerColor] can yield
    [undefined], which no token color equals. *)
Definition computeValidMoves (gameState : GameState)
    (playerColor : option PlayerColor) (diceValue : Z) : list string :=
  token_id <$>
    filter (λ t, calculateNewPosition t diceValue ≠ None)
      (filter (λ t, Some (token_color t) = playerColor ∧ isFinished t = false)
         (tokens gameState)).

Definition getPlayerCount (gameState : GameState) : Z :=
  Z.of_nat (length (remove_dups (token_color <$> tokens gameState))).

Definition getCurrentPlayerColor (gameState : GameState) : option PlayerColor :=
  match playerColorOrder gameState with
  | Some order =>
      if decide (Z.of_nat (length order) > 0)
      then js_index order (currentTurnPlayerIndex gameState)
      else js_index [RED; GREEN; YELLOW; BLUE] (currentTurnPlayerIndex gameState)
  | None => js_index [RED; GREEN; YELLOW; BLUE] (currentTurnPlayerIndex gameState)
  end.

Definition passTurn (gameState : GameState) (lastDiceValue : Z) : Z * GameState :=
  let playerCount :=
    match playerColorOrder gameState with
    | Some order => Z.of_nat (length order)
    | None => getPlayerCount gameState
    end in
  let nextIndex := js_succ_rem (currentTurnPlayerIndex gameState) playerCount in
  (lastDiceValue,
   set_validMoves []
     (set_consecutiveSixes 0
        (set_canRollDice true
           (set_diceValue None
              (set_currentTurnPlayerIndex nextIndex gameState))))).

(** The object [byColor] of [checkWinner]: keys in insertion order, each
    with the tokens pushed under it. *)
Fixpoint pushByColor (byColor : list (PlayerColor * list Token)) (t : Token)
    : list (PlayerColor * list Token) :=
  match byColor with
  | [] => [(token_color t, [t])]
  | (c, ct) :: rest =>
      if decide (c = token_color t) then (c, ct ++ [t]) :: rest
      else (c, ct) :: pushByColor rest t
  end.

Definition groupByColor (tokens : list Token) : list (PlayerColor * list Token) :=
  fold_left pushByColor tokens [].

Definition checkWinner (tokens : list Token) : option PlayerColor :=
  fst <$> List.find (λ '(_, ct), forallb isFinished ct) (groupByColor tokens).

(** *** rollDice *)

(** [Math.floor(Math.random() * faces) + 1], with [r] the value returned
    by [Math.random()], a double with [0 <= r < 1]: the product is
    rounded to a double before it is floored. *)
Definition randomFace (r : Q) (faces : Z) : Z :=
  Qfloor (roundDouble (r * inject_Z faces)) + 1.

Definition rollDice (r : Q) (gameState : GameState) : Result (Z * GameState) :=
  if negb (canRollDice gameState) then
    Throw (BadRequestException "Cannot roll dice at this time")
  else
    let diceValue :=
      if decide (consecutiveSixes gameState >= 2) then randomFace r 5
      else randomFace r 6 in
    let currentPlayerColor := getCurrentPlayerColor gameState in
    let stateWithDice :=
      set_validMoves [] (set_canRollDice false (set_diceValue (Some diceValue) gameState)) in
    let validMoves := computeValidMoves stateWithDice currentPlayerColor diceValue in
    if decide (length validMoves = 0%nat) then
      Ok (passTurn stateWithDice diceValue)
    else
      Ok (diceValue, set_validMoves validMoves stateWithDice).

(** *** moveToken *)

(** The predicate of the capture search, for a mover [token] landing on
    [newPosition]. *)
Definition capturable (token : Token) (newPosition : Z) (t : Token) : Prop :=
  position t = newPosition ∧ token_color t ≠ token_color token
  ∧ isInHomeStretch t = false ∧ isFinished t = false ∧ isInHome t = false.

#[global] Instance capturable_dec token newPosition t :
  Decision (capturable token newPosition t).
Proof. unfold capturable. apply _. Defined.

(** The object written over a captured token:
    [{ ...capturedToken, position: -1, isInHome: true, isInHomeStretch: false }]. *)
Definition sentHome (capturedToken : Token) : Token :=
  {| token_id := token_id capturedToken;
     token_color := token_color capturedToken;
     position := -1;
     isInHome := true;
     isInHomeStretch := false;
     isFinished := isFinished capturedToken |}.

(** The "Check capture" block: the token list after the capture and the
    captured token id, if any. *)
Definition captureAt (token : Token) (newPosition : Z) (updatedTokens : list Token)
    : list Token * option string :=
  if decide (newPosition >= 0 ∧ newPosition <= 51 ∧ newPosition ∉ SAFE_SQUARES) then
    match find (capturable token newPosition) updatedTokens with
    | Some capturedToken =>
        let updatedTokens :=
          match findIndex (λ t, token_id t = token_id capturedToken) updatedTokens with
          | Some ci => <[ci := sentHome capturedToken]> updatedTokens
          | None => updatedTokens
          end in
        (updatedTokens, Some (token_id capturedToken))
    | None => (updatedTokens, None)
    end
  else (updatedTokens, None).

(** The "Apply move" object written at [tokenIndex]. *)
Definition movedToken (token : Token) (newPosition : Z) : Token :=
  {| token_id := token_id token;
     token_color := token_color token;
     position := newPosition;
     isInHome := false;
     isInHomeStretch := bool_decide (newPosition >= 52 ∧ newPosition <= 56);
     isFinished := bool_decide (newPosition = 57) |}.

Definition moveToken (now : Z) (gameState : GameState) (tokenId : string)
    : Result GameState :=
  match diceValue gameState with
  | None => Throw (BadRequestException "Dice must be rolled first")
  | Some dice =>
  match find (λ t, token_id t = tokenId) (tokens gameState) with
  | None => Throw (BadRequestException "Token not found")
  | Some token =>
  let currentPlayerColor := getCurrentPlayerColor gameState in
  if decide (Some (token_color token) ≠ currentPlayerColor) then
    Throw (BadRequestException "Can only move your own tokens")
  else if decide (tokenId ∉ validMoves gameState) then
    Throw (BadRequestException "This token is not a valid move")
  else
  match calculateNewPosition token dice with
  | None => Throw (BadRequestException "Invalid move")
  | Some newPosition =>
  let updatedTokens := tokens gameState in
  match findIndex (λ t, token_id t = tokenId) updatedTokens with
  | None => Throw TypeError
  | Some tokenIndex =>
  match updatedTokens !! tokenIndex with
  | None => Throw TypeError
  | Some atIndex =>
  let oldPosition := position atIndex in
  let '(updatedTokens, capturedTokenId) := captureAt token newPosition updatedTokens in
  let updatedTokens := <[tokenIndex := movedToken token newPosition]> updatedTokens in
  let moveHistory :=
    moveHistory gameState ++
      [ {| playerColor := token_color token; tokenId := token_id token;
           move_from := oldPosition; move_to := newPosition;
           timestamp := now; capturedTokenId := capturedTokenId |} ] in
  let winner := checkWinner updatedTokens in
  let rolledSix := bool_decide (dice = 6) in
  let didCapture := truthy capturedTokenId in
  let shouldContinueTurn := (rolledSix || didCapture) && negb (bool_decide (is_Some winner)) in
  let moved :=
    set_validMoves [] (set_winner winner (set_moveHistory moveHistory
      (set_tokens updatedTokens gameState))) in
  if shouldContinueTurn then
    let newConsecutiveSixes := if rolledSix then consecutiveSixes gameState + 1 else 0 in
    if decide (newConsecutiveSixes >= 3) then
      Ok (snd (passTurn moved dice))
    else
      Ok (set_consecutiveSixes newConsecutiveSixes
            (set_canRollDice true (set_diceValue None moved)))
  else
    Ok (snd (passTurn moved dice))
  end end end end end.

(** [!gameState.diceValue] also holds for a dice value of 0. *)
Definition getValidMoves (gameState : GameState) (playerColor : PlayerColor) : list string :=
  match diceValue gameState with
  | None => []
  | Some d =>
      if decide (d = 0) then []
      else computeValidMoves gameState (Some playerColor) d
  end.

End LudoGameService.

(* ===================================================================== *)
(** ** Plays of a game                                                    *)
(* ===================================================================== *)

Module Play.
Import LudoGameService.

(** What the directory asks of the engine once a game has started. *)
Inductive Action :=
  | Roll (r : Q)
  | Move (now : Z) (tokenId : string).

(** A value that [Math.random()] can return: a double of the unit
    interval. *)
Definition unitInterval (r : Q) : bool :=
  Qle_bool 0 r && negb (Qle_bool 1 r) && isDouble r.

(** The spacing of the doubles between 1/2 and 1. *)
Definition drawSpacing : Q := Qmake 1 (2 ^ 53).

(** The state stored after an action; [None] when the engine threw. *)
Definition step (a : Action) (g : GameState) : option GameState :=
  match a with
  | Roll r =>
      if unitInterval r then
        match rollDice r g with
        | Ok (_, g') => Some g'
        | Throw _ => None
        end
      else None
  | Move now tokenId =>
      match moveToken now g tokenId with
      | Ok g' => Some g'
      | Throw _ => None
      end
  end.

Fixpoint run (actions : list Action) (g : GameState) : option GameState :=
  match actions with
  | [] => Some g
  | a :: rest =>
      match step a g with
      | Some g' => run rest g'
      | None => None
      end
  end.

(** The game states that can be stored in a room: [startGame] needs two
    players and the directory keeps the colors of a room distinct. *)
Inductive reachableGame : GameState → Prop :=
  | reachable_start players :
      (2 ≤ length players)%nat →
      NoDup (player_color <$> players) →
      reachableGame (initializeGame players)
  | reachable_action g a g' :
      reachableGame g → step a g = Some g' → reachableGame g'.

(** The four places a token can be, with the flags that go with each. *)
Definition atHome (t : Token) : Prop :=
  position t = -1 ∧ isInHome t = true ∧ isInHomeStretch t = false ∧ isFinished t = false.
Definition onRing (t : Token) : Prop :=
  0 ≤ position t ≤ 51 ∧ isInHome t = false ∧ isInHomeStretch t = false ∧ isFinished t = false.
Definition inLane (t : Token) : Prop :=
  52 ≤ position t ≤ 56 ∧ isInHome t = false ∧ isInHomeStretch t = true ∧ isFinished t = false.
Definition finished (t : Token) : Prop :=
  position t = 57 ∧ isInHome t = false ∧ isInHomeStretch t = false ∧ isFinished t = true.

Definition tokenOk (t : Token) : Prop :=
  atHome t ∨ onRing t ∨ inLane t ∨ finished t.

(** A color present on the board all of whose tokens are finished. *)
Definition complete (ts : list Token) (c : PlayerColor) : Prop :=
  (∃ t, t ∈ ts ∧ token_color t = c)
  ∧ ∀ t, t ∈ ts → token_color t = c → isFinished t = true.

(** The face [rollDice] draws from [r]: five-sided after two sixes. *)
Definition drawnFace (r : Q) (g : GameState) : Z :=
  if decide (consecutiveSixes g >= 2) then randomFace r 5 else randomFace r 6.

(** The constant [playerCount] of [passTurn] and the index it computes. *)
Definition playerCountOf (g : GameState) : Z :=
  match playerColorOrder g with
  | Some order => Z.of_nat (length order)
  | None => getPlayerCount g
  end.

Definition nextIndex (g : GameState) : jsnum :=
  js_succ_rem (currentTurnPlayerIndex g) (playerCountOf g).

(** The test under which [moveToken] leaves the turn with the mover:
    [shouldContinueTurn] holds and the new six counter is below three. *)
Definition keepsTurn (dice : Z) (captured : option string)
    (winner : option PlayerColor) (sixes : Z) : bool :=
  (bool_decide (dice = 6) || truthy captured)
  && negb (bool_decide (is_Some winner))
  && negb (bool_decide ((if bool_decide (dice = 6) then sixes + 1 else 0) >= 3)).

(** The invariant of the stored game states. *)
Record GameInv (g : GameState) : Prop := {
  inv_order : ∃ order i,
      playerColorOrder g = Some order ∧ (2 ≤ length order)%nat
      ∧ currentTurnPlayerIndex g = Num i ∧ 0 ≤ i < Z.of_nat (length order);
  inv_ids : NoDup (token_id <$> tokens g);
  inv_ids_nonempty : Forall (λ t, token_id t ≠ EmptyString) (tokens g);
  inv_tokens : Forall tokenOk (tokens g);
  inv_dice : ∀ d, diceValue g = Some d →
      1 ≤ d ≤ 6
      ∧ validMoves g = computeValidMoves g (getCurrentPlayerColor g) d;
  inv_winner : winner g = checkWinner (tokens g);
}.

End Play.

(* ===================================================================== *)
(** ** The earlier engine variant                                         *)
(* ===================================================================== *)

(** The repository also keeps an earlier [LudoGameService] (fixed start
    cells 1/14/27/40, finish at 58, no [validMoves], no
    [playerColorOrder]).  Its [initializeGame] does not produce the
    [GameState] of the entities file, which the service above does; it
    is embedded here for comparison only, and the properties below are
    settled on the service above. *)
Module LegacyEngine.

Definition getStartPosition (c : PlayerColor) : Z :=
  match c with RED => 1 | GREEN => 14 | YELLOW => 27 | BLUE => 40 end.

Definition getHomeStretchEntry (c : PlayerColor) : Z :=
  match c with RED => 51 | GREEN => 12 | YELLOW => 25 | BLUE => 38 end.

Definition isSafeSquare (position : Z) : bool :=
  bool_decide (position ∈ [1; 9; 14; 22; 27; 35; 40; 48]).

Definition passedHomeStretchEntry (currentPos diceValue homeStretchEntry : Z) : bool :=
  let endPos := currentPos + diceValue in
  if decide (currentPos <= homeStretchEntry ∧ endPos >= homeStretchEntry) then true
  else if decide (currentPos <= homeStretchEntry ∧ endPos > 51) then
    let wrapped := endPos - 52 in bool_decide (wrapped >= 0)
  else false.

Definition calculateHomeStretchSteps (currentPos diceValue homeStretchEntry : Z) : Z :=
  if decide (currentPos <= homeStretchEntry)
  then diceValue - (homeStretchEntry - currentPos)
  else diceValue - (52 - currentPos + homeStretchEntry).

Definition calculateNewPosition (token : Token) (diceValue : Z) : option Z :=
  if isInHome token then
    (if decide (diceValue = 6) then Some (getStartPosition (token_color token)) else None)
  else if isFinished token then None
  else if isInHomeStretch token then
    let newPos := position token + diceValue in
    if decide (newPos = 58) then Some 58
    else if decide (newPos > 58) then None
    else Some newPos
  else
    let newPos := position token + diceValue in
    let homeStretchEntry := getHomeStretchEntry (token_color token) in
    let start := position token in
    let end_ := newPos in
    let newPos := if decide (end_ > 51) then end_ - 52 else newPos in
    if passedHomeStretchEntry start diceValue homeStretchEntry then
      let stepsIntoHomeStretch := calculateHomeStretchSteps start diceValue homeStretchEntry in
      Some (52 + stepsIntoHomeStretch - 1)
    else Some newPos.

Definition hasValidMoves (gameState : GameState) (playerColor : option PlayerColor)
    (diceValue : Z) : bool :=
  bool_decide (Exists (λ token, calculateNewPosition token diceValue ≠ None)
                 (filter (λ t, Some (token_color t) = playerColor) (tokens gameState))).

Definition getPlayerCount (gameState : GameState) : Z :=
  Z.of_nat (length (remove_dups (token_color <$> tokens gameState))).

Definition passTurn (gameState : GameState) (lastDiceValue : Z) : Z * GameState :=
  let nextPlayerIndex :=
    js_succ_rem (currentTurnPlayerIndex gameState) (getPlayerCount gameState) in
  (lastDiceValue,
   set_consecutiveSixes 0
     (set_canRollDice true
        (set_diceValue None
           (set_currentTurnPlayerIndex nextPlayerIndex gameState)))).

Definition getCurrentPlayerColor (playerIndex : jsnum) : option PlayerColor :=
  js_index [RED; GREEN; YELLOW; BLUE] playerIndex.

(** The same grouping by color, written with [reduce]. *)
Definition checkWinner (tokens : list Token) : option PlayerColor :=
  fst <$> List.find (λ '(_, colorTokens), forallb isFinished colorTokens)
            (fold_left LudoGameService.pushByColor tokens []).

Definition rollDice (r : Q) (gameState : GameState) : Result (Z * GameState) :=
  if negb (canRollDice gameState) then
    Throw (BadRequestException "Cannot roll dice at this time")
  else
    let diceValue := LudoGameService.randomFace r 6 in
    let newGameState := set_canRollDice false (set_diceValue (Some diceValue) gameState) in
    let currentPlayerColor := getCurrentPlayerColor (currentTurnPlayerIndex newGameState) in
    if negb (hasValidMoves newGameState currentPlayerColor diceValue) then
      Ok (passTurn newGameState diceValue)
    else Ok (diceValue, newGameState).

Definition moveToken (now : Z) (gameState : GameState) (tokenId : string)
    (currentPlayerIndex : jsnum) : Result GameState :=
  match diceValue gameState with
  | None => Throw (BadRequestException "Dice must be rolled first")
  | Some dice =>
  match find (λ t, token_id t = tokenId) (tokens gameState) with
  | None => Throw (BadRequestException "Token not found")
  | Some token =>
  if decide (Some (token_color token) ≠ getCurrentPlayerColor currentPlayerIndex) then
    Throw (BadRequestException "Can only move your own tokens")
  else
  match calculateNewPosition token dice with
  | None => Throw (BadRequestException "Invalid move")
  | Some newPosition =>
  let updatedTokens := tokens gameState in
  match findIndex (λ t, token_id t = tokenId) updatedTokens with
  | None => Throw TypeError
  | Some tokenIndex =>
  match updatedTokens !! tokenIndex with
  | None => Throw TypeError
  | Some atIndex =>
  let oldPosition := position atIndex in
  let '(updatedTokens, capturedTokenId) :=
    if bool_decide (newPosition >= 0 ∧ newPosition <= 51) && negb (isSafeSquare newPosition) then
      match find (λ t, position t = newPosition ∧ token_color t ≠ token_color token
                       ∧ isInHomeStretch t = false ∧ isFinished t = false)
              updatedTokens with
      | Some capturedToken =>
          (match findIndex (λ t, token_id t = token_id capturedToken) updatedTokens with
           | Some capturedIndex =>
               <[capturedIndex := LudoGameService.sentHome capturedToken]> updatedTokens
           | None => updatedTokens
           end, Some (token_id capturedToken))
      | None => (updatedTokens, None)
      end
    else (updatedTokens, None) in
  let updatedTokens :=
    <[tokenIndex := {| token_id := token_id token; token_color := token_color token;
                       position := newPosition;
                       isInHome := bool_decide (newPosition = -1);
                       isInHomeStretch := bool_decide (newPosition >= 52 ∧ newPosition < 58);
                       isFinished := bool_decide (newPosition = 58) |}]> updatedTokens in
  let moveHistory :=
    moveHistory gameState ++
      [ {| playerColor := token_color token; tokenId := token_id token;
           move_from := oldPosition; move_to := newPosition;
           timestamp := now; capturedTokenId := capturedTokenId |} ] in
  let winner := checkWinner updatedTokens in
  let shouldContinueTurn :=
    bool_decide (dice = 6) || bool_decide (is_Some capturedTokenId) in
  let moved := set_winner winner (set_moveHistory moveHistory
                 (set_tokens updatedTokens gameState)) in
  if shouldContinueTurn then
    let consecutiveSixes :=
      if decide (dice = 6) then consecutiveSixes gameState + 1 else 0 in
    if decide (consecutiveSixes >= 3) then Ok (snd (passTurn moved dice))
    else Ok (set_consecutiveSixes consecutiveSixes
               (set_canRollDice true (set_diceValue None moved)))
  else Ok (snd (passTurn moved dice))
  end end end end end.

End LegacyEngine.

(* ===================================================================== *)
(** ** RoomsService                                                       *)
(* ===================================================================== *)

Module RoomsService.

(** The two private maps of the service. *)
Record ServiceState := mkService {
  rooms : gmap string Room;
  playerToRoom : gmap string string;   (* sessionId -> roomCode *)
}.

Definition emptyService : ServiceState := mkService ∅ ∅.

(** A method of the service: it reads and mutates the maps and returns or
    throws; what it mutated before a throw stays mutated. *)
Definition M (A : Type) : Type := ServiceState → Result A * ServiceState.

#[global] Instance M_ret : MRet M := λ A a s, (Ok a, s).
#[global] Instance M_bind : MBind M := λ A B f m s,
  match m s with
  | (Ok a, s') => f a s'
  | (Throw e, s') => (Throw e, s')
  end.

Definition throw {A} (e : Exception) : M A := λ s, (Throw e, s).
Definition getService : M ServiceState := λ s, (Ok s, s).
Definition rooms_set (roomCode : string) (room : Room) : M unit :=
  λ s, (Ok tt, mkService (<[roomCode := room]> (rooms s)) (playerToRoom s)).
Definition rooms_delete (roomCode : string) : M unit :=
  λ s, (Ok tt, mkService (delete roomCode (rooms s)) (playerToRoom s)).
Definition playerToRoom_set (sid roomCode : string) : M unit :=
  λ s, (Ok tt, mkService (rooms s) (<[sid := roomCode]> (playerToRoom s))).
Definition playerToRoom_delete (sid : string) : M unit :=
  λ s, (Ok tt, mkService (rooms s) (delete sid (playerToRoom s))).

(** [const x = e; if (!x) throw exc;] *)
Definition orThrow {A} (o : option A) (e : Exception) : M A :=
  match o with
  | Some a => mret a
  | None => throw e
  end.

(** Field updates of a room and of a player object. *)
Definition set_players (v : list Player) (r : Room) : Room :=
  mkRoom (room_id r) (code r) (adminId r) v (maxPlayers r) (status r)
    (createdAt r) (lastActivity r) (gameState r).
Definition set_lastActivity (v : Z) (r : Room) : Room :=
  mkRoom (room_id r) (code r) (adminId r) (players r) (maxPlayers r) (status r)
    (createdAt r) v (gameState r).
Definition set_adminId (v : string) (r : Room) : Room :=
  mkRoom (room_id r) (code r) v (players r) (maxPlayers r) (status r)
    (createdAt r) (lastActivity r) (gameState r).
Definition set_status (v : RoomStatus) (r : Room) : Room :=
  mkRoom (room_id r) (code r) (adminId r) (players r) (maxPlayers r) v
    (createdAt r) (lastActivity r) (gameState r).
Definition set_gameState (v : option GameState) (r : Room) : Room :=
  mkRoom (room_id r) (code r) (adminId r) (players r) (maxPlayers r) (status r)
    (createdAt r) (lastActivity r) v.

Definition set_color (v : PlayerColor) (p : Player) : Player :=
  mkPlayer (player_id p) (name p) v (isReady p) (isAdmin p) (joinedAt p) (sessionId p).
Definition set_isReady (v : bool) (p : Player) : Player :=
  mkPlayer (player_id p) (name p) (player_color p) v (isAdmin p) (joinedAt p) (sessionId p).
Definition set_isAdmin (v : bool) (p : Player) : Player :=
  mkPlayer (player_id p) (name p) (player_color p) (isReady p) v (joinedAt p) (sessionId p).

(** [generateRoomCode]: [draws] are the successive random codes; a code
    already in use makes the method call itself again.  [None] when all
    the given draws are in use (the method is still recursing). *)
Fixpoint generateRoomCode (draws : list string) (rooms : gmap string Room)
    : option string :=
  match draws with
  | [] => None
  | code :: rest =>
      if decide (is_Some (rooms !! code)) then generateRoomCode rest rooms
      else Some code
  end.

(** [createRoom]; [playerId] and [roomId] are the two [uuidv4()] values
    and [now] the clock reading. *)
Definition createRoom (draws : list string) (playerId roomId : string) (now : Z)
    (playerName : string) (playerColor : PlayerColor) (maxPlayers : Z)
    (sid : string) (s : ServiceState) : option (Result Room * ServiceState) :=
  if decide (is_Some (playerToRoom s !! sid)) then
    Some (Throw (ConflictException "You are already in a room"), s)
  else
    match generateRoomCode draws (rooms s) with
    | None => None
    | Some roomCode =>
        let admin :=
          {| player_id := playerId; name := playerName; player_color := playerColor;
             isReady := false; isAdmin := true; joinedAt := now; sessionId := sid |} in
        let room :=
          {| room_id := roomId; code := roomCode; adminId := playerId;
             players := [admin]; maxPlayers := maxPlayers; status := WAITING;
             createdAt := now; lastActivity := now; gameState := None |} in
        Some ((rooms_set roomCode room ;; playerToRoom_set sid roomCode ;; mret room) s)
    end.

Definition joinRoom (playerId : string) (now : Z)
    (roomCode playerName sid : string) : M (Room * Player) :=
  s ← getService;
  if decide (is_Some (playerToRoom s !! sid)) then
    throw (ConflictException "You are already in a room")
  else
    room ← orThrow (rooms s !! roomCode) (NotFoundException "Room not found");
    if decide (status room ≠ WAITING) then
      throw (BadRequestException "Room is not accepting new players")
    else if decide (Z.of_nat (length (players room)) >= maxPlayers room) then
      throw (BadRequestException "Room is full")
    else
      let takenColors := player_color <$> players room in
      let availableColors := filter (λ color, color ∉ takenColors) PlayerColor_values in
      match availableColors with
      | [] => throw (BadRequestException "No available colors")
      | firstAvailable :: _ =>
          let newPlayer :=
            {| player_id := playerId; name := playerName; player_color := firstAvailable;
               isReady := false; isAdmin := false; joinedAt := now; sessionId := sid |} in
          let room := set_lastActivity now (set_players (players room ++ [newPlayer]) room) in
          rooms_set roomCode room ;;
          playerToRoom_set sid roomCode ;;
          mret (room, newPlayer)
      end.

Definition leaveRoom (now : Z) (sid : string) : M (option Room * bool) :=
  s ← getService;
  roomCode ← orThrow (playerToRoom s !! sid) (NotFoundException "You are not in any room");
  room ← orThrow (rooms s !! roomCode) (NotFoundException "Room not found");
  playerIndex ← orThrow (findIndex (λ p, sessionId p = sid) (players room))
                   (NotFoundException "Player not found in room");
  player ← orThrow (players room !! playerIndex) TypeError;
  let wasAdmin := isAdmin player in
  let room := set_players (delete playerIndex (players room)) room in
  rooms_set roomCode room ;;
  playerToRoom_delete sid ;;
  match players room with
  | [] =>
      rooms_delete roomCode ;;
      mret (None, wasAdmin)
  | first :: others =>
      let room :=
        if wasAdmin then
          set_adminId (player_id first) (set_players (set_isAdmin true first :: others) room)
        else room in
      let room := set_lastActivity now room in
      rooms_set roomCode room ;;
      mret (Some room, wasAdmin)
  end.

Definition updatePlayerColor (now : Z) (sid : string) (newColor : PlayerColor)
    : M (Room * Player) :=
  s ← getService;
  roomCode ← orThrow (playerToRoom s !! sid) (NotFoundException "You are not in any room");
  room ← orThrow (rooms s !! roomCode) (NotFoundException "Room not found");
  '(i, player) ← orThrow (list_find (λ p, sessionId p = sid) (players room))
                   (NotFoundException "Player not found in room");
  let takenColors :=
    player_color <$> filter (λ p, player_id p ≠ player_id player) (players room) in
  if decide (newColor ∈ takenColors) then
    throw (ConflictException "Color already taken")
  else
    let player := set_color newColor player in
    let room := set_lastActivity now (set_players (<[i := player]> (players room)) room) in
    rooms_set roomCode room ;;
    mret (room, player).

Definition togglePlayerReady (now : Z) (sid : string) : M (Room * Player) :=
  s ← getService;
  roomCode ← orThrow (playerToRoom s !! sid) (NotFoundException "You are not in any room");
  room ← orThrow (rooms s !! roomCode) (NotFoundException "Room not found");
  '(i, player) ← orThrow (list_find (λ p, sessionId p = sid) (players room))
                   (NotFoundException "Player not found in room");
  let player := set_isReady (negb (isReady player)) player in
  let room := set_lastActivity now (set_players (<[i := player]> (players room)) room) in
  rooms_set roomCode room ;;
  mret (room, player).

Definition startGame (now : Z) (sid : string) : M Room :=
  s ← getService;
  roomCode ← orThrow (playerToRoom s !! sid) (NotFoundException "You are not in any room");
  room ← orThrow (rooms s !! roomCode) (NotFoundException "Room not found");
  player ← orThrow (find (λ p, sessionId p = sid) (players room))
             (NotFoundException "Player not found in room");
  if negb (isAdmin player) then
    throw (BadRequestException "Only admin can start the game")
  else if decide (Z.of_nat (length (players room)) < 2) then
    throw (BadRequestException "At least 2 players required to start")
  else
    let allReady := forallb (λ p, isReady p || isAdmin p) (players room) in
    if negb allReady then
      throw (BadRequestException "All players must be ready")
    else
      let room :=
        set_gameState (Some (LudoGameService.initializeGame (players room)))
          (set_lastActivity now (set_status PLAYING room)) in
      rooms_set roomCode room ;;
      mret room.

(** The engine is reached through these two methods; neither looks at
    [winner] or at the room status. *)
Definition rollDice (r : Q) (now : Z) (sid : string) : M Room :=
  s ← getService;
  roomCode ← orThrow (playerToRoom s !! sid) (NotFoundException "You are not in any room");
  room ← orThrow (rooms s !! roomCode) (NotFoundException "Game not found");
  game ← orThrow (gameState room) (NotFoundException "Game not found");
  player ← orThrow (find (λ p, sessionId p = sid) (players room))
             (NotFoundException "Player not found in room");
  currentPlayer ← orThrow (js_index (players room) (currentTurnPlayerIndex game)) TypeError;
  if decide (player_id currentPlayer ≠ player_id player) then
    throw (BadRequestException "Not your turn")
  else
    match LudoGameService.rollDice r game with
    | Throw e => throw e
    | Ok (_, game') =>
        let room := set_lastActivity now (set_gameState (Some game') room) in
        rooms_set roomCode room ;;
        mret room
    end.

Definition moveToken (now : Z) (sid tokenId : string) : M Room :=
  s ← getService;
  roomCode ← orThrow (playerToRoom s !! sid) (NotFoundException "You are not in any room");
  room ← orThrow (rooms s !! roomCode) (NotFoundException "Game not found");
  game ← orThrow (gameState room) (NotFoundException "Game not found");
  player ← orThrow (find (λ p, sessionId p = sid) (players room))
             (NotFoundException "Player not found in room");
  currentPlayer ← orThrow (js_index (players room) (currentTurnPlayerIndex game)) TypeError;
  if decide (player_id currentPlayer ≠ player_id player) then
    throw (BadRequestException "Not your turn")
  else
    match LudoGameService.moveToken now game tokenId with
    | Throw e => throw e
    | Ok game' =>
        let room := set_lastActivity now (set_gameState (Some game') room) in
        rooms_set roomCode room ;;
        mret room
    end.

(** *** Sequences of directory operations *)

Inductive Command :=
  | CreateRoom (draws : list string) (playerId roomId : string) (now : Z)
      (playerName : string) (playerColor : PlayerColor) (maxPlayers : Z) (sid : string)
  | JoinRoom (playerId : string) (now : Z) (roomCode playerName sid : string)
  | LeaveRoom (now : Z) (sid : string)
  | UpdateColor (now : Z) (sid : string) (newColor : PlayerColor)
  | ToggleReady (now : Z) (sid : string)
  | StartGame (now : Z) (sid : string)
  | RollDice (r : Q) (now : Z) (sid : string)
  | MoveToken (now : Z) (sid tokenId : string).

(** The service state after a command, whether it returned or threw;
    [None] only when [createRoom] was given too few code draws. *)
Definition exec (c : Command) (s : ServiceState) : option ServiceState :=
  match c with
  | CreateRoom draws playerId roomId now playerName playerColor maxPlayers sid =>
      snd <$> createRoom draws playerId roomId now playerName playerColor maxPlayers sid s
  | JoinRoom playerId now roomCode playerName sid =>
      Some (snd (joinRoom playerId now roomCode playerName sid s))
  | LeaveRoom now sid => Some (snd (leaveRoom now sid s))
  | UpdateColor now sid newColor => Some (snd (updatePlayerColor now sid newColor s))
  | ToggleReady now sid => Some (snd (togglePlayerReady now sid s))
  | StartGame now sid => Some (snd (startGame now sid s))
  | RollDice r now sid => Some (snd (rollDice r now sid s))
  | MoveToken now sid tokenId => Some (snd (moveToken now sid tokenId s))
  end.

(** What is assumed of the random draws of a command: [uuidv4()] does
    not return the id of a player already in the room that is joined,
    and [Math.random()] returns a number of the unit interval. *)
Definition drawsOk (c : Command) (s : ServiceState) : Prop :=
  match c with
  | JoinRoom playerId _ roomCode _ _ =>
      match rooms s !! roomCode with
      | Some room => playerId ∉ (player_id <$> players room)
      | None => True
      end
  | RollDice r _ _ => Play.unitInterval r = true
  | _ => True
  end.

#[global] Instance drawsOk_dec c s : Decision (drawsOk c s).
Proof.
  destruct c; simpl; try apply _.
  destruct (rooms s !! roomCode); apply _.
Defined.

Inductive reachable : ServiceState → Prop :=
  | reachable_empty : reachable emptyService
  | reachable_step s c s' :
      reachable s → drawsOk c s → exec c s = Some s' → reachable s'.

(** A session is bound to a room when the index maps it or when some
    room lists a player that it owns. *)
Definition sessionBound (s : ServiceState) (sid : string) : Prop :=
  is_Some (playerToRoom s !! sid)
  ∨ ∃ roomCode room p, rooms s !! roomCode = Some room
                       ∧ p ∈ players room ∧ sessionId p = sid.

(** What holds of every room of the directory: the players have distinct
    colors, ids and sessions, the index maps each of their sessions to
    the room, and the game of the room, if any, was reached by play. *)
Definition roomOk (s : ServiceState) (roomCode : string) (room : Room) : Prop :=
  NoDup (player_color <$> players room)
  ∧ NoDup (player_id <$> players room)
  ∧ NoDup (sessionId <$> players room)
  ∧ (∀ sid, sid ∈ (sessionId <$> players room) → playerToRoom s !! sid = Some roomCode)
  ∧ ∀ g, gameState room = Some g → Play.reachableGame g.

Definition DirectoryInv (s : ServiceState) : Prop :=
  ∀ roomCode room, rooms s !! roomCode = Some room → roomOk s roomCode room.

End RoomsService.


(* ===================================================================== *)
(** ** Example games                                                      *)
(* ===================================================================== *)

Module Examples.
Import LudoGameService Play.

Definition alice : Player :=
  {| player_id := "p-1"; name := "Alice"; player_color := RED;
     isReady := false; isAdmin := true; joinedAt := 0; sessionId := "s-1" |}.

Definition bob : Player :=
  {| player_id := "p-2"; name := "Bob"; player_color := GREEN;
     isReady := true; isAdmin := false; joinedAt := 1; sessionId := "s-2" |}.

(** A two-player game, red before green. *)
Definition newGame : GameState := initializeGame [alice; bob].

(** A draw of [Math.random()] that shows face [f] on a six-sided roll,
    and one for the five-sided roll that follows two sixes: the eighths
    0, 1/4, 3/8, 1/2, 3/4, 7/8 and 0, 1/4, 1/2, 3/4, 7/8. *)
Definition eighths (numerators : list Z) (f : Z) : Q :=
  Qmake (default 0 (numerators !! Z.to_nat (f - 1))) 8.

Definition face (f : Z) : Action := Roll (eighths [0; 2; 3; 4; 6; 7] f).
Definition forcedFace (f : Z) : Action := Roll (eighths [0; 2; 4; 6; 7] f).

(** Roll [f], then move the token [tokenId]. *)
Definition turn (f : Z) (tokenId : string) : list Action :=
  [face f; Move 0 tokenId].

(** A roll of the player who has nothing to move: the engine passes the
    turn by itself. *)
Definition idle : list Action := [face 1].

(** Red brings one token from Home to Finished while green stays at
    Home: out with a six, ten fives to cell 50, a five into the lane
    (cell 55) and a two to finish. *)
Definition redLap (tokenId : string) : list Action :=
  turn 6 tokenId ++ turn 5 tokenId ++ idle
  ++ concat (replicate 9 (turn 5 tokenId ++ idle))
  ++ turn 5 tokenId ++ idle
  ++ turn 2 tokenId.

(** Red finishes all four tokens; green has the turn afterwards. *)
Definition redWins : list Action :=
  redLap "red-0" ++ idle ++ redLap "red-1" ++ idle
  ++ redLap "red-2" ++ idle ++ redLap "red-3".

(** The game after red has won and green has rolled a six. *)
Definition afterRedWonPlay : list Action := redWins ++ [face 6].

Definition afterRedWon : GameState :=
  Eval vm_compute in default newGame (run afterRedWonPlay newGame).

(** Green, playing on after red's win, brings a token home: out with a
    six (cell 13), two fives (cell 23), a five into the lane (cell 54);
    the last roll of three is left to the caller. *)
Definition greenLapButLast (tokenId : string) : list Action :=
  turn 6 tokenId ++ idle ++ turn 5 tokenId ++ idle ++ turn 5 tokenId ++ idle
  ++ turn 5 tokenId ++ idle.

Definition greenLap (tokenId : string) : list Action :=
  greenLapButLast tokenId ++ turn 3 tokenId ++ idle.

(** Red has won, green has three tokens finished, the fourth on lane
    cell 54, and has just rolled a three. *)
Definition greenAboutToFinishPlay : list Action :=
  redWins ++ greenLap "green-0" ++ greenLap "green-1" ++ greenLap "green-2"
  ++ greenLapButLast "green-3" ++ [face 3].

Definition greenAboutToFinish : GameState :=
  Eval vm_compute in default newGame (run greenAboutToFinishPlay newGame).

(** Two green tokens share cell 18 and red, on cell 16, has rolled a two. *)
Definition stackedDefendersPlay : list Action :=
  turn 6 "red-0" ++ turn 5 "red-0" ++ idle
  ++ turn 5 "red-0" ++ idle
  ++ turn 5 "red-0"
  ++ turn 6 "green-0" ++ turn 6 "green-1" ++ [forcedFace 5; Move 0 "green-0"]
  ++ turn 1 "red-0"
  ++ turn 5 "green-1"
  ++ [face 2].

Definition stackedDefenders : GameState :=
  Eval vm_compute in default newGame (run stackedDefendersPlay newGame).

(** Red opens the game with a six. *)
Definition firstSix : GameState :=
  Eval vm_compute in default newGame (run [face 6] newGame).

(** Red holds a six with the six counter at 2: a state that rolling
    does not produce, since the roll that follows two sixes has five
    faces. *)
Definition thirdSixHeld : GameState := set_consecutiveSixes 2 firstSix.

(** Red has rolled and played two sixes and is to roll again. *)
Definition twoSixes : GameState :=
  Eval vm_compute in default newGame (run (turn 6 "red-0" ++ turn 6 "red-1") newGame).

(** The state stored after moving [tokenId] at clock reading 0. *)
Definition afterMove (g : GameState) (tokenId : string) : GameState :=
  match moveToken 0 g tokenId with
  | Ok g' => g'
  | Throw _ => g
  end.

(** Red lands on the two green tokens. *)
Definition afterCapture : GameState :=
  Eval vm_compute in afterMove stackedDefenders "red-0".

(** Red leaves Home with what is its third six in a row. *)
Definition afterThirdSix : GameState :=
  Eval vm_compute in afterMove thirdSixHeld "red-0".

(** Green leaves Home with its six although red has won. *)
Definition afterGreenSix : GameState :=
  Eval vm_compute in afterMove afterRedWon "green-0".

(** Green finishes its last token after red has won. *)
Definition afterGreenFinished : GameState :=
  Eval vm_compute in afterMove greenAboutToFinish "green-3".

(** *** A lobby and a table *)

(** Runs the commands whose random draws are as assumed. *)
Fixpoint runCommands (cs : list RoomsService.Command) (s : RoomsService.ServiceState)
    : option RoomsService.ServiceState :=
  match cs with
  | [] => Some s
  | c :: rest =>
      if bool_decide (RoomsService.drawsOk c s) then
        match RoomsService.exec c s with
        | Some s' => runCommands rest s'
        | None => None
        end
      else None
  end.

(** Alice creates a room for four as red, Bob joins it and is given the
    first free color, blue, and declares himself ready. *)
Definition lobbyCommands : list RoomsService.Command :=
  [ RoomsService.CreateRoom ["ABCD-1234"] "p-1" "r-1" 0 "Alice" RED 4 "s-1";
    RoomsService.JoinRoom "p-2" 1 "ABCD-1234" "Bob" "s-2";
    RoomsService.ToggleReady 2 "s-2" ].

Definition lobby : RoomsService.ServiceState :=
  default RoomsService.emptyService (runCommands lobbyCommands RoomsService.emptyService).

Definition lobbyAlice : Player :=
  {| player_id := "p-1"; name := "Alice"; player_color := RED;
     isReady := false; isAdmin := true; joinedAt := 0; sessionId := "s-1" |}.

Definition lobbyBob : Player :=
  {| player_id := "p-2"; name := "Bob"; player_color := BLUE;
     isReady := true; isAdmin := false; joinedAt := 1; sessionId := "s-2" |}.

Definition lobbyRoom : Room :=
  {| room_id := "r-1"; code := "ABCD-1234"; adminId := "p-1";
     players := [lobbyAlice; lobbyBob]; maxPlayers := 4; status := WAITING;
     createdAt := 0; lastActivity := 2; gameState := None |}.

(** Bob turns green and Alice starts the game. *)
Definition tableCommands : list RoomsService.Command :=
  lobbyCommands
  ++ [ RoomsService.UpdateColor 3 "s-2" GREEN; RoomsService.StartGame 4 "s-1" ].

(** The game stored for the room, and the session whose turn it is. *)
Definition storedGame (s : RoomsService.ServiceState) : option GameState :=
  room ← RoomsService.rooms s !! "ABCD-1234"; gameState room.

Definition sessionOfTurn (s : RoomsService.ServiceState) : string :=
  default EmptyString
    (room ← RoomsService.rooms s !! "ABCD-1234";
     game ← gameState room;
     player ← js_index (players room) (currentTurnPlayerIndex game);
     Some (sessionId player)).

(** An engine action as the request of the player whose turn it is. *)
Fixpoint requests (actions : list Action) (s : RoomsService.ServiceState)
    : option RoomsService.ServiceState :=
  match actions with
  | [] => Some s
  | a :: rest =>
      let c :=
        match a with
        | Roll r => RoomsService.RollDice r 0 (sessionOfTurn s)
        | Move now tokenId => RoomsService.MoveToken now (sessionOfTurn s) tokenId
        end in
      match runCommands [c] s with
      | Some s' => requests rest s'
      | None => None
      end
  end.

(** The directory after the table has been set and the play requested. *)
Definition tableAfter (actions : list Action) : RoomsService.ServiceState :=
  default RoomsService.emptyService
    (s ← runCommands tableCommands RoomsService.emptyService; requests actions s).

End Examples.

(* ===================================================================== *)
(** ** Three properties as the specification words them                   *)
(* ===================================================================== *)

(** The specification states these three properties of [moveToken] for
    every successful move.  The engine does not satisfy them in that
    generality; each is refuted below on a game reached by play, and
    proved in the form the engine does satisfy. *)
Module Stated.
Import LudoGameService Play.

(** Capture: landing on a ring cell that is not safe sends the occupying
    token of another color Home and records its id; landing on a safe
    cell removes no token. *)
Definition capture_of_occupant : Prop :=
  ∀ now gs gs' mover dice dest record victim,
    reachableGame gs → diceValue gs = Some dice → mover ∈ tokens gs →
    moveToken now gs (token_id mover) = Ok gs' →
    calculateNewPosition mover dice = Some dest → 0 ≤ dest ≤ 51 →
    last (moveHistory gs') = Some record →
    (¬ (dest ∈ SAFE_SQUARES) → victim ∈ tokens gs → position victim = dest →
     token_color victim ≠ token_color mover → onRing victim →
       (∃ v, v ∈ tokens gs' ∧ token_id v = token_id victim ∧ atHome v)
       ∧ capturedTokenId record = Some (token_id victim))
    ∧ (dest ∈ SAFE_SQUARES →
       capturedTokenId record = None
       ∧ ∀ t, t ∈ tokens gs → t ≠ mover → t ∈ tokens gs').

(** Turn continuation: the mover keeps the turn exactly when the dice
    was a six or a capture occurred, and this is not the third
    consecutive six; a turn that passes resets the six counter. *)
Definition turn_continuation : Prop :=
  ∀ now gs id gs' dice record,
    reachableGame gs → diceValue gs = Some dice →
    moveToken now gs id = Ok gs' →
    last (moveHistory gs') = Some record →
    (currentTurnPlayerIndex gs' = currentTurnPlayerIndex gs
     ↔ (dice = 6 ∨ is_Some (capturedTokenId record))
       ∧ ¬ (dice = 6 ∧ consecutiveSixes gs + 1 >= 3))
    ∧ diceValue gs' = None ∧ canRollDice gs' = true
    ∧ (currentTurnPlayerIndex gs' ≠ currentTurnPlayerIndex gs →
       consecutiveSixes gs' = 0).

(** Winner: a move that leaves every token of the mover's color
    Finished sets the winner to that color; the winner is never another
    color; and there is no winner while every color has an unfinished
    token. *)
Definition winner_of_move : Prop :=
  ∀ now gs gs' mover,
    reachableGame gs → mover ∈ tokens gs →
    moveToken now gs (token_id mover) = Ok gs' →
    (complete (tokens gs') (token_color mover) →
     winner gs' = Some (token_color mover))
    ∧ (∀ c, winner gs' = Some c → c = token_color mover)
    ∧ ((∀ c, ¬ complete (tokens gs') c) → winner gs' = None).

End Stated.

(* ===================================================================== *)
(** ** More of the engine: phases and paths                               *)
(* ===================================================================== *)

Module Phase.
Import LudoGameService Play.

(** The two phases of a turn. *)
Definition awaitingRoll (g : GameState) : Prop :=
  canRollDice g = true ∧ diceValue g = None ∧ validMoves g = [].

Definition awaitingMove (g : GameState) : Prop :=
  canRollDice g = false
  ∧ ∃ d, diceValue g = Some d ∧ 1 ≤ d ≤ 6 ∧ validMoves g ≠ []
         ∧ (consecutiveSixes g >= 2 → d ≤ 5).

Definition PhaseInv (g : GameState) : Prop :=
  (awaitingRoll g ∨ awaitingMove g) ∧ 0 ≤ consecutiveSixes g ≤ 2.

(** The number of [Move] actions of a play. *)
Definition isMove (a : Action) : bool :=
  match a with Move _ _ => true | Roll _ => false end.

Definition moveCount (actions : list Action) : nat :=
  length (filter (λ a, isMove a = true) actions).

End Phase.

Module Path.
Import LudoGameService Play.

(** The ring cells a token of a color walks from its start cell to its
    gateway, and the whole way to Finished: five lane cells and the
    finish follow the gateway. *)
Definition ringLength (c : PlayerColor) : Z :=
  stepsFromTo (START_POS c) (GATEWAY c).

Definition pathLength (c : PlayerColor) : Z := ringLength c + 6.

(** How far along the way of its color a token on the board is. *)
Definition progress (t : Token) : Z :=
  if isInHomeStretch t || isFinished t
  then ringLength (token_color t) + 1 + (position t - 52)
  else stepsFromTo (START_POS (token_color t)) (position t).

(** A ring token stands between the start cell and the gateway of its
    color. *)
Definition onOwnSegment (t : Token) : Prop :=
  onRing t →
  stepsFromTo (START_POS (token_color t)) (position t) ≤ ringLength (token_color t).

(** The cells of the ring on which a token of a color can stand. *)
Definition ownCells (c : PlayerColor) (p : Z) : Prop :=
  match c with
  | RED => 0 ≤ p ≤ 51
  | GREEN => 13 ≤ p ≤ 25
  | YELLOW => 27 ≤ p ≤ 39
  | BLUE => 41 ≤ p ≤ 46
  end.

(** The ids [initializeGame] gives the four tokens of a color. *)
Definition tokenIdsOf (c : PlayerColor) : list string :=
  (λ i, colorValue c +:+ "-" +:+ indexDigit i) <$> [0; 1; 2; 3]%nat.

End Path.

Module MoreExamples.
Import LudoGameService Play Examples.

(** Red leaves Home with the six that opened the game. *)
Definition redOut : GameState :=
  Eval vm_compute in afterMove firstSix "red-0".

End MoreExamples.

(* ===================================================================== *)
(** ** More of RoomsService: lookups and cleanup                          *)
(* ===================================================================== *)

Module RoomsLookups.
Import RoomsService.

(** What [if (!roomCode)] lets through: a code that is defined and not
    the empty string. *)
Definition nonEmpty (roomCode : option string) : option string :=
  match roomCode with
  | Some c => if decide (c = EmptyString) then None else Some c
  | None => None
  end.

Definition getRoom (roomCode : string) : M Room :=
  s ← getService;
  orThrow (rooms s !! roomCode) (NotFoundException "Room not found").

Definition getRoomBySessionId (sid : string) (s : ServiceState) : option Room :=
  match nonEmpty (playerToRoom s !! sid) with
  | None => None
  | Some roomCode => rooms s !! roomCode
  end.

Definition getPlayerBySessionId (sid : string) (s : ServiceState) : option Player :=
  match getRoomBySessionId sid s with
  | None => None
  | Some room => find (λ p, sessionId p = sid) (players room)
  end.

Definition getValidMoves (sid : string) : M (list string) :=
  s ← getService;
  roomCode ← orThrow (nonEmpty (playerToRoom s !! sid))
               (NotFoundException "You are not in any room");
  room ← orThrow (rooms s !! roomCode) (NotFoundException "Game not found");
  game ← orThrow (gameState room) (NotFoundException "Game not found");
  player ← orThrow (find (λ p, sessionId p = sid) (players room))
             (NotFoundException "Player not found in room");
  mret (LudoGameService.getValidMoves game (player_color player)).





(** The shape of a room of the directory: it is filed under its own
    code, its first player is its only admin, and it holds a game
    exactly when it is Playing. *)
Definition roomShape (roomCode : string) (room : Room) : Prop :=
  code room = roomCode
  ∧ (∃ admin others,
       players room = admin :: others ∧ isAdmin admin = true
       ∧ adminId room = player_id admin
       ∧ Forall (λ p, isAdmin p = false) others)
  ∧ ((status room = WAITING ∧ gameState room = None)
     ∨ (status room = PLAYING ∧ is_Some (gameState room))).

(** The index maps a session only to a room that lists it. *)
Definition indexExact (s : ServiceState) : Prop :=
  ∀ sid roomCode, playerToRoom s !! sid = Some roomCode →
    ∃ room, rooms s !! roomCode = Some room
            ∧ sid ∈ (sessionId <$> players room).

Definition ShapeInv (s : ServiceState) : Prop :=
  (∀ roomCode room, rooms s !! roomCode = Some room → roomShape roomCode room)
  ∧ indexExact s.

End RoomsLookups.

Module MoreRooms.
Import Play Examples.

(** The directory once Alice (red) and Bob (green) sit at the table and
    have played until red, on cell 16, has rolled a two; and their room. *)
Definition table : RoomsService.ServiceState := tableAfter stackedDefendersPlay.

Definition tableRoom : Room :=
  {| room_id := "r-1"; code := "ABCD-1234"; adminId := "p-1";
     players := [lobbyAlice; RoomsService.set_color GREEN lobbyBob];
     maxPlayers := 4; status := PLAYING;
     createdAt := 0; lastActivity := 0; gameState := Some stackedDefenders |}.

End MoreRooms.

(* ===================================================================== *)
(** ** Proof automation for the directory methods                         *)
(* ===================================================================== *)

(** Case analysis along a method of the directory: every lookup that
    can throw, every test and every call of the engine. *)
Ltac unfold_method :=
  unfold mbind, RoomsService.M_bind, mret, RoomsService.M_ret,
    RoomsService.orThrow, RoomsService.throw, RoomsService.getService,
    RoomsService.rooms_set, RoomsService.rooms_delete,
    RoomsService.playerToRoom_set, RoomsService.playerToRoom_delete in *.

Ltac method_cases :=
  unfold_method; cbn;
  repeat (first
    [ match goal with
      | |- context [match ?o with Some _ => _ | None => _ end] => destruct o eqn:?
      end
    | match goal with
      | |- context [match ?r with Ok _ => _ | Throw _ => _ end] => destruct r eqn:?
      end
    | match goal with
      | |- context [let (_, _) := ?p in _] => destruct p eqn:?
      end
    | match goal with
      | |- context [if ?b then _ else _] => destruct b eqn:?
      end ];
    cbn).


(* ===================================================================== *)
(** ** The embedding on concrete inputs                                   *)
(* ===================================================================== *)

Section Checks.
Import LudoGameService Play Examples.

Example face_of_lowest_draw : randomFace 0 6 = 1.
Proof. reflexivity. Qed.

(** The largest double below 1 shows the last face. *)
Example face_of_highest_draw :
  Qeq_bool (roundDouble (((2 ^ 53 - 1) # 2 ^ 53) * 6)) ((3 * 2 ^ 51 - 1) # 2 ^ 50) = true
  ∧ randomFace ((2 ^ 53 - 1) # 2 ^ 53) 6 = 6
  ∧ randomFace ((2 ^ 53 - 1) # 2 ^ 53) 5 = 5.
Proof. vm_compute. done. Qed.

(** The double 0.8333333333333333 lies below 5/6, but six times it is
    nearer to 5 than to any other double and is rounded to 5; likewise
    five times the double 0.6, which lies below 3/5, is rounded to 3. *)
Example face_of_a_rounded_product :
  unitInterval (3752999689475413 # 2 ^ 52) = true
  ∧ (3752999689475413 # 2 ^ 52 < 5 # 6)%Q
  ∧ Qeq_bool (roundDouble ((3752999689475413 # 2 ^ 52) * 6)) 5 = true
  ∧ randomFace (3752999689475413 # 2 ^ 52) 6 = 6
  ∧ unitInterval (5404319552844595 # 2 ^ 53) = true
  ∧ (5404319552844595 # 2 ^ 53 < 3 # 5)%Q
  ∧ Qeq_bool (roundDouble ((5404319552844595 # 2 ^ 53) * 5)) 3 = true
  ∧ randomFace (5404319552844595 # 2 ^ 53) 5 = 4.
Proof. vm_compute. done. Qed.

(** Doubles are the numbers that rounding keeps; a third is none. *)
Example doubles_and_others :
  isDouble (1 # 2 ^ 1074) = true ∧ isDouble (1 # 3) = false
  ∧ isDouble ((2 ^ 53 + 1) # 2 ^ 54) = false
  ∧ Qeq_bool (roundDouble (1 # 3)) (6004799503160661 # 2 ^ 54) = true.
Proof. vm_compute. done. Qed.

Example red_leaves_home : calculateNewPosition (mkToken "red-0" RED (-1) true false false) 6 = Some 0.
Proof. reflexivity. Qed.

Example red_stays_home : calculateNewPosition (mkToken "red-0" RED (-1) true false false) 5 = None.
Proof. reflexivity. Qed.

Example red_enters_lane : calculateNewPosition (mkToken "red-0" RED 50 false false false) 5 = Some 55.
Proof. reflexivity. Qed.

Example red_overshoots_from_gateway :
  calculateNewPosition (mkToken "red-0" RED 51 false false false) 6 = None.
Proof. reflexivity. Qed.

Example green_wraps_to_its_gateway : stepsFromTo 40 (GATEWAY GREEN) = 37.
Proof. reflexivity. Qed.

Example blue_wraps_around : calculateNewPosition (mkToken "blue-0" BLUE 50 false false false) 4 = Some 2.
Proof. reflexivity. Qed.

Example lane_needs_exact_count :
  calculateNewPosition (mkToken "green-3" GREEN 54 false true false) 3 = Some 57
  ∧ calculateNewPosition (mkToken "green-3" GREEN 54 false true false) 4 = None.
Proof. split; reflexivity. Qed.

Example first_roll_of_six_offers_all_red_tokens :
  (λ '(d, g), (d, validMoves g, canRollDice g)) <$>
    (match rollDice (7 # 8) newGame with Ok x => Some x | Throw _ => None end)
  = Some (6, ["red-0"; "red-1"; "red-2"; "red-3"], false).
Proof. reflexivity. Qed.

Example first_roll_of_one_passes :
  (λ '(d, g), (d, currentTurnPlayerIndex g, diceValue g, canRollDice g)) <$>
    (match rollDice 0 newGame with Ok x => Some x | Throw _ => None end)
  = Some (1, Num 1, None, true).
Proof. reflexivity. Qed.

Example winner_after_both_finished : checkWinner (tokens afterGreenFinished) = Some RED.
Proof. reflexivity. Qed.

Example bob_is_given_blue :
  RoomsService.rooms lobby !! "ABCD-1234" = Some lobbyRoom.
Proof. vm_compute. reflexivity. Qed.

End Checks.

(* ===================================================================== *)
(** ** Rounding to doubles                                                *)
(* ===================================================================== *)

Section Doubles.

(** [Math.floor] of a rational is determined by the two integers around it. *)
Lemma Qfloor_between (x : Q) (m : Z) :
  Qfloor x = m ↔ (inject_Z m <= x)%Q ∧ (x < inject_Z (m + 1))%Q.
Proof.
  split.
  - intros <-. split; [apply Qfloor_le | apply Qlt_floor].
  - intros [Hlo Hhi].
    apply Qfloor_resp_le in Hlo. rewrite Qfloor_Z in Hlo.
    pose proof (Qfloor_le x) as Hfl.
    assert (inject_Z (Qfloor x) < inject_Z (m + 1))%Q as Hlt
      by (eapply Qle_lt_trans; eassumption).
    rewrite <- Zlt_Qlt in Hlt. lia.
Qed.

(** The rounded integer is one of the two around [n/d], at most one
    half away from it. *)
Lemma roundHalfEven_bounds (n : Z) (d : positive) :
  n / Zpos d ≤ roundHalfEven (Qmake n d) ≤ n / Zpos d + 1
  ∧ 2 * Zpos d * roundHalfEven (Qmake n d) ≤ 2 * n + Zpos d
  ∧ 2 * n - Zpos d ≤ 2 * Zpos d * roundHalfEven (Qmake n d).
Proof.
  unfold roundHalfEven. cbn [Qnum Qden].
  pose proof (Z.div_mod n (Zpos d) ltac:(lia)) as Hdiv.
  pose proof (Z.mod_pos_bound n (Zpos d) ltac:(lia)) as Hmod.
  destruct (Z.compare_spec (2 * (n mod Zpos d)) (Zpos d));
    [destruct (Z.even _)|..]; nia.
Qed.

Lemma roundHalfEven_scaled (x : Q) (P : Z) :
  roundHalfEven (x * inject_Z P) = roundHalfEven (Qmake (Qnum x * P) (Qden x)).
Proof. unfold roundHalfEven, Qmult, inject_Z. cbn [Qnum Qden]. by rewrite Pos.mul_1_r. Qed.

Lemma Qfloor_scaled (N : Z) (p : positive) :
  Qfloor (inject_Z N * Qmake 1 p) = N / Zpos p.
Proof. unfold Qfloor, Qmult, inject_Z. cbn [Qnum Qden]. by rewrite Z.mul_1_r. Qed.

(** A positive number below [2^b] has an exponent below [b]. *)
Lemma binade_below (x : Q) (b : Z) :
  0 < Qnum x → 0 ≤ b → Qnum x < 2 ^ b * Zpos (Qden x) → binade x ≤ b - 1.
Proof.
  intros Hpos Hb Hlt. destruct x as [n d]. cbn [Qnum Qden] in *.
  unfold binade. cbn [Qnum Qden].
  assert (Z.log2 n ≤ b + Z.log2 (Zpos d)) as Hlog.
  { rewrite <- Z.log2_mul_pow2 by lia. apply Z.log2_le_mono. lia. }
  destruct (Qle_bool _ _) eqn:Htest; [|lia].
  destruct (decide (Z.log2 n - Z.log2 (Zpos d) = b)) as [Heq|]; [|lia].
  rewrite Heq in Htest. apply Qle_bool_iff in Htest.
  unfold pow2 in Htest. rewrite decide_True in Htest by done.
  unfold Qle, inject_Z in Htest. cbn [Qnum Qden] in Htest. lia.
Qed.

(** The numbers from one half up to one have exponent -1. *)
Lemma binade_upper_half (x : Q) :
  Zpos (Qden x) ≤ 2 * Qnum x → Qnum x < Zpos (Qden x) → binade x = -1.
Proof.
  intros Hhalf Hone. destruct x as [n d]. cbn [Qnum Qden] in *.
  unfold binade. cbn [Qnum Qden].
  assert (Z.log2 n ≤ Z.log2 (Zpos d)) as Hle by (apply Z.log2_le_mono; lia).
  assert (Z.log2 (Zpos d) ≤ Z.log2 n + 1) as Hge.
  { change (Z.log2 n + 1) with (Z.succ (Z.log2 n)).
    rewrite <- Z.log2_double by lia. apply Z.log2_le_mono. lia. }
  destruct (decide (Z.log2 n - Z.log2 (Zpos d) = 0)) as [Heq|Hne].
  - rewrite Heq. destruct (Qle_bool _ _) eqn:Htest; [|done].
    apply Qle_bool_iff in Htest. unfold pow2 in Htest.
    rewrite decide_True in Htest by done.
    unfold Qle, inject_Z in Htest. cbn in Htest. lia.
  - assert (Z.log2 n - Z.log2 (Zpos d) = -1) as Heq by lia. rewrite Heq.
    destruct (Qle_bool _ _) eqn:Htest; [done|].
    apply not_true_iff_false in Htest. destruct Htest. apply Qle_bool_iff.
    unfold pow2. rewrite decide_False by lia. unfold Qle. cbn. lia.
Qed.

(** Below [2^b], with [b] up to 52, the doubles are the multiples of
    [2^-s] for some [s] from [53 - b] on. *)
Lemma roundPositive_below (x : Q) (b : Z) :
  0 < Qnum x → 0 ≤ b ≤ 52 → Qnum x < 2 ^ b * Zpos (Qden x) →
  ∃ s, 53 - b ≤ s
       ∧ roundPositive x
         = (inject_Z (roundHalfEven (Qmake (Qnum x * 2 ^ s) (Qden x)))
            * Qmake 1 (Z.to_pos (2 ^ s)))%Q.
Proof.
  intros Hpos Hb Hlt. pose proof (binade_below x b Hpos ltac:(lia) Hlt) as Hbin.
  unfold roundPositive. set (u := Z.max (binade x - 52) (-1074)).
  assert (u ≤ b - 53) as Hu by lia.
  exists (- u). split; [lia|].
  unfold pow2. rewrite decide_True, decide_False by lia.
  by rewrite roundHalfEven_scaled.
Qed.

(** The floor of the double nearest to a number from 0 up to 8: it is
    not negative, not below an integer that the number reaches, and
    below an integer from which the number is more than [2^-51] away. *)
Lemma floor_roundDouble (x : Q) :
  0 ≤ Qnum x → Qnum x < 8 * Zpos (Qden x) →
  0 ≤ Qfloor (roundDouble x)
  ∧ (∀ m, m * Zpos (Qden x) ≤ Qnum x → m ≤ Qfloor (roundDouble x))
  ∧ (∀ m, Qnum x * 2 ^ 51 < (m * 2 ^ 51 - 1) * Zpos (Qden x) →
          Qfloor (roundDouble x) < m).
Proof.
  intros Hnn Hlt. unfold roundDouble.
  assert ((x ?= 0)%Q = (Qnum x ?= 0)) as ->.
  { unfold Qcompare. cbn. by rewrite Z.mul_1_r. }
  destruct (Z.compare_spec (Qnum x) 0) as [Hzero|?|Hpos]; [|lia|].
  - change (Qfloor 0) with 0. split; [done|]. split; intros m Hm; nia.
  - destruct (roundPositive_below x 3 Hpos ltac:(lia) Hlt) as (s & Hs & ->).
    rewrite Qfloor_scaled.
    set (n := Qnum x) in *. set (d := Qden x) in *.
    assert (0 < 2 ^ s) as HP by (apply Z.pow_pos_nonneg; lia).
    rewrite Z2Pos.id by done.
    destruct (roundHalfEven_bounds (n * 2 ^ s) d) as ([Hlo _] & Hup & _).
    set (N := roundHalfEven _) in *. set (P := 2 ^ s) in *.
    assert (2 ^ s = 2 ^ 50 * 2 ^ (s - 50)) as Hsplit.
    { rewrite <- Z.pow_add_r by lia. f_equal. lia. }
    assert (1 ≤ 2 ^ (s - 50)) as HK by (apply Z.lt_pred_le, Z.pow_pos_nonneg; lia).
    fold P in Hsplit. set (K := 2 ^ (s - 50)) in *.
    assert (∀ m, m * Zpos d ≤ n → m * P ≤ N) as Hreach.
    { intros m Hm. etrans; [|exact Hlo]. apply Z.div_le_lower_bound; [lia|]. nia. }
    split_and!.
    + apply Z.div_pos; [|done]. specialize (Hreach 0). lia.
    + intros m Hm. apply Z.div_le_lower_bound; [done|]. specialize (Hreach m Hm). lia.
    + intros m Hm. apply Z.div_lt_upper_bound; [done|].
      assert (2 * P = 2 ^ 51 * K) as H2P.
      { rewrite Hsplit. change (2 ^ 51) with (2 * 2 ^ 50). lia. }
      assert ((n * 2 ^ 51 + 1) * K ≤ (m * 2 ^ 51 - 1) * Zpos d * K) as Hscaled
        by (apply Z.mul_le_mono_nonneg_r; lia).
      assert (Zpos d ≤ Zpos d * K) as HdK by nia.
      nia.
Qed.

(** A double below 1 is at most [1 - 2^-53]. *)
Lemma double_below_one (r : Q) :
  Play.unitInterval r = true →
  0 ≤ Qnum r ∧ Qnum r * 2 ^ 53 ≤ (2 ^ 53 - 1) * Zpos (Qden r).
Proof.
  unfold Play.unitInterval, isDouble. intros Hr.
  apply andb_prop in Hr as [Hr Hd]. apply andb_prop in Hr as [H0 H1].
  apply Qle_bool_iff in H0. apply negb_true_iff in H1. apply Qeq_bool_iff in Hd.
  assert (Qnum r < Zpos (Qden r)) as Hone.
  { destruct (Z_lt_le_dec (Qnum r) (Zpos (Qden r))) as [|Hge]; [done|].
    apply not_true_iff_false in H1. destruct H1. apply Qle_bool_iff.
    unfold Qle. cbn. lia. }
  unfold Qle in H0. cbn in H0. split; [lia|].
  destruct (Z_lt_le_dec (2 * Qnum r) (Zpos (Qden r))) as [Hlow|Hhigh]; [lia|].
  unfold roundDouble in Hd.
  assert ((r ?= 0)%Q = Gt) as Hgt.
  { unfold Qcompare. cbn. rewrite Z.mul_1_r. apply Z.compare_gt_iff. lia. }
  rewrite Hgt in Hd. unfold roundPositive in Hd.
  rewrite (binade_upper_half r Hhigh Hone) in Hd.
  change (Z.max (-1 - 52) (-1074)) with (-53) in Hd.
  unfold pow2 in Hd. rewrite decide_True, decide_False in Hd by lia.
  rewrite roundHalfEven_scaled in Hd.
  change (- (-53)) with 53 in Hd.
  set (N := roundHalfEven _) in *.
  unfold Qeq, Qmult, inject_Z in Hd. cbn [Qnum Qden] in Hd.
  rewrite Z.mul_1_r, Pos2Z.inj_mul, Z2Pos.id in Hd by done.
  clearbody N. set (T := 2 ^ 53) in *. set (d := Zpos (Qden r)) in *.
  assert (0 < d) as Hdpos by done.
  assert (N < T) as HN.
  { apply (Z.mul_lt_mono_pos_r d); [done|]. rewrite Hd. nia. }
  assert (N * d ≤ (T - 1) * d) by (apply Z.mul_le_mono_nonneg_r; lia).
  lia.
Qed.

End Doubles.

(* ===================================================================== *)
(** ** Properties of the rules engine                                     *)
(* ===================================================================== *)

Section Dice.
Import LudoGameService.

(** The face in terms of the draw's numerator and denominator. *)
Lemma randomFace_floor (r : Q) (faces : Z) :
  Play.unitInterval r = true → 5 ≤ faces ≤ 8 →
  let F := randomFace r faces - 1 in
  0 ≤ F
  ∧ (∀ m, m * Zpos (Qden r) ≤ Qnum r * faces → m ≤ F)
  ∧ (∀ m, Qnum r * faces * 2 ^ 51 < (m * 2 ^ 51 - 1) * Zpos (Qden r) → F < m).
Proof.
  intros [Hnn Hone]%double_below_one Hfaces F.
  assert (F = Qfloor (roundDouble (r * inject_Z faces))) as ->
    by (unfold F, randomFace; lia).
  pose proof (floor_roundDouble (r * inject_Z faces)) as Hfloor.
  change (Qnum (r * inject_Z faces)) with (Qnum r * faces) in Hfloor.
  change (Qden (r * inject_Z faces)) with (Qden r * 1)%positive in Hfloor.
  rewrite Pos.mul_1_r in Hfloor. apply Hfloor; [nia|].
  change (2 ^ 53) with 9007199254740992 in Hone. nia.
Qed.

(** The faces of a roll of five or of six faces. *)
Lemma randomFace_range (r : Q) (faces : Z) :
  Play.unitInterval r = true → 5 ≤ faces ≤ 8 → 1 ≤ randomFace r faces ≤ faces.
Proof.
  intros Hr Hfaces.
  destruct (randomFace_floor r faces Hr Hfaces) as (Hlo & _ & Hup).
  destruct (double_below_one r Hr) as [Hnn Hone].
  split; [lia|].
  assert (randomFace r faces - 1 < faces); [|lia].
  apply Hup. change (2 ^ 53) with (4 * 2 ^ 51) in Hone.
  assert (4 * Zpos (Qden r) < faces * Zpos (Qden r)) by nia.
  nia.
Qed.

(** Each face has its share of the draws: face [k] of [faces] comes up
    for the draws from [(k-1)/faces] up to one spacing below [k/faces],
    and only for draws from one spacing below [(k-1)/faces] up to
    [k/faces].  The product with [faces] is rounded, which can carry a
    draw just below [k/faces] over to the next face. *)
Lemma randomFace_share (r : Q) (faces : positive) (k : Z) :
  Play.unitInterval r = true → 5 ≤ Zpos faces ≤ 8 →
  ((Qmake (k - 1) faces <= r)%Q ∧ (r <= Qmake k faces - Play.drawSpacing)%Q →
   randomFace r (Zpos faces) = k)
  ∧ (randomFace r (Zpos faces) = k →
     (Qmake (k - 1) faces - Play.drawSpacing <= r)%Q ∧ (r < Qmake k faces)%Q).
Proof.
  intros Hr Hfaces.
  destruct (randomFace_floor r (Zpos faces) Hr Hfaces) as (_ & Hreach & Hbelow).
  destruct r as [n d]. cbn [Qnum Qden] in *.
  unfold Qle, Qlt, Qminus, Qplus, Qopp, Play.drawSpacing. cbn [Qnum Qden].
  rewrite !Pos2Z.inj_mul.
  change (Zpos (2 ^ 53)) with (4 * 2 ^ 51).
  set (T := 2 ^ 51) in *. assert (0 < T) as HT by done.
  set (f := Zpos faces) in *. set (D := Zpos d) in *.
  assert (0 < D) as HD by done.
  split.
  - intros [Hlo Hhi].
    pose proof (Hreach (k - 1) ltac:(lia)).
    assert (randomFace (n # d) f - 1 < k); [|lia].
    apply Hbelow. assert (4 * D < f * D) by nia. nia.
  - intros Hk. split.
    + destruct (Z_lt_le_dec (n * (f * (4 * T))) (((k - 1) * (4 * T) + -1 * f) * D))
        as [Hlt|]; [|lia].
      assert (randomFace (n # d) f - 1 < k - 1); [|lia].
      apply Hbelow. assert (4 * D < f * D) by nia. nia.
    + destruct (Z_lt_le_dec (n * f) (k * D)) as [|Hge]; [done|].
      pose proof (Hreach k ltac:(lia)). lia.
Qed.

(** [rollDice] returns the face it drew, whichever branch it takes. *)
Lemma rollDice_returns (r : Q) (gs : GameState) :
  canRollDice gs = true →
  ∃ gs', rollDice r gs
         = Ok (if decide (consecutiveSixes gs >= 2) then randomFace r 5 else randomFace r 6,
               gs').
Proof.
  intros Hroll. unfold rollDice. rewrite Hroll. simpl.
  case_decide; unfold passTurn; eauto.
Qed.

End Dice.

Section Movement.
Import LudoGameService Play.

(** The code's [stepsFromTo] is the forward distance modulo 52. *)
Lemma stepsFromTo_mod (from to : Z) :
  0 ≤ from ≤ 51 → 0 ≤ to ≤ 51 → stepsFromTo from to = (to - from) mod 52.
Proof.
  intros Hf Ht. unfold stepsFromTo. case_decide.
  - rewrite Z.mod_small; lia.
  - replace (to - from) with (52 - from + to + (-1) * 52) by lia.
    rewrite Z.mod_add by lia. rewrite Z.mod_small; lia.
Qed.

Lemma GATEWAY_range (c : PlayerColor) : 0 ≤ GATEWAY c ≤ 51.
Proof. destruct c; simpl; lia. Qed.

Lemma START_POS_range (c : PlayerColor) : 0 ≤ START_POS c ≤ 51.
Proof. destruct c; simpl; lia. Qed.

Lemma calculateNewPosition_home (t : Token) (d : Z) :
  isInHome t = true →
  calculateNewPosition t d = if decide (d = 6) then Some (START_POS (token_color t)) else None.
Proof. intros H. unfold calculateNewPosition. by rewrite H. Qed.

Lemma calculateNewPosition_finished (t : Token) (d : Z) :
  isInHome t = false → isFinished t = true → calculateNewPosition t d = None.
Proof. intros H1 H2. unfold calculateNewPosition. by rewrite H1, H2. Qed.

Lemma calculateNewPosition_lane (t : Token) (d : Z) :
  isInHome t = false → isFinished t = false → isInHomeStretch t = true →
  calculateNewPosition t d =
    if decide (position t + d > 57) then None else Some (position t + d).
Proof.
  intros H1 H2 H3. unfold calculateNewPosition. rewrite H1, H2, H3.
  repeat case_decide; try lia; congruence.
Qed.

Lemma calculateNewPosition_ring (t : Token) (d : Z) :
  onRing t → 1 ≤ d ≤ 6 →
  let stepsToGateway := (GATEWAY (token_color t) - position t) mod 52 in
  calculateNewPosition t d =
    if decide (d ≤ stepsToGateway) then Some ((position t + d) mod 52)
    else if decide (52 + (d - stepsToGateway - 1) > 56) then None
    else Some (52 + (d - stepsToGateway - 1)).
Proof.
  intros (Hp & H1 & H2 & H3) Hd. simpl.
  pose proof (GATEWAY_range (token_color t)) as Hg.
  unfold calculateNewPosition. rewrite H1, H3, H2.
  rewrite stepsFromTo_mod by lia.
  set (s := (GATEWAY (token_color t) - position t) mod 52).
  destruct (decide (d ≤ s)) as [Hle|Hgt].
  - f_equal. case_decide.
    + replace (position t + d) with (position t + d - 52 + 1 * 52) by lia.
      rewrite Z.mod_add by lia. rewrite Z.mod_small; lia.
    + rewrite Z.mod_small; lia.
  - repeat case_decide; try lia; done.
Qed.

(** Where a legal move can end: on the ring, in the lane, or on 57. *)
Lemma calculateNewPosition_bounds (t : Token) (d p : Z) :
  tokenOk t → 1 ≤ d ≤ 6 → calculateNewPosition t d = Some p → 0 ≤ p ≤ 57.
Proof.
  intros Hok Hd Hp. destruct Hok as [Hh|[Hr|[Hl|Hf]]].
  - destruct Hh as (_ & Hh & _). rewrite calculateNewPosition_home in Hp by done.
    case_decide; [|done]. injection Hp as <-.
    pose proof (START_POS_range (token_color t)). lia.
  - pose proof Hr as (Hpos & _). rewrite calculateNewPosition_ring in Hp by done.
    pose proof (Z.mod_pos_bound (GATEWAY (token_color t) - position t) 52).
    pose proof (Z.mod_pos_bound (position t + d) 52).
    repeat case_decide; simplify_eq; lia.
  - destruct Hl as (Hpos & H1 & H2 & H3).
    rewrite calculateNewPosition_lane in Hp by done.
    case_decide; simplify_eq; lia.
  - destruct Hf as (_ & H1 & _ & H3).
    by rewrite calculateNewPosition_finished in Hp.
Qed.

(** A finishing move is made from the lane with a face below six; a six
    never finishes a token. *)
Lemma calculateNewPosition_57 (t : Token) (d : Z) :
  tokenOk t → 1 ≤ d ≤ 6 → calculateNewPosition t d = Some 57 →
  inLane t ∧ d ≤ 5.
Proof.
  intros Hok Hd Hp. destruct Hok as [Hh|[Hr|[Hl|Hf]]].
  - destruct Hh as (_ & Hh & _). rewrite calculateNewPosition_home in Hp by done.
    case_decide; [|done]. injection Hp as Hp.
    pose proof (START_POS_range (token_color t)). lia.
  - pose proof Hr as (Hpos & _). rewrite calculateNewPosition_ring in Hp by done.
    pose proof (Z.mod_pos_bound (GATEWAY (token_color t) - position t) 52).
    pose proof (Z.mod_pos_bound (position t + d) 52).
    repeat case_decide; simplify_eq; lia.
  - split; [done|]. destruct Hl as (Hpos & H1 & H2 & H3).
    rewrite calculateNewPosition_lane in Hp by done.
    case_decide; simplify_eq; lia.
  - destruct Hf as (_ & H1 & _ & H3).
    by rewrite calculateNewPosition_finished in Hp.
Qed.

Lemma movedToken_ok (t : Token) (p : Z) :
  0 ≤ p ≤ 57 → tokenOk (movedToken t p).
Proof.
  intros Hp. unfold tokenOk, onRing, inLane, finished, movedToken. simpl.
  destruct (decide (p ≤ 51)); [right; left|].
  { rewrite !bool_decide_eq_false_2 by lia. repeat split; lia. }
  destruct (decide (p = 57)) as [->|]; [right; right; right|right; right; left].
  - rewrite bool_decide_eq_false_2 by lia. rewrite bool_decide_eq_true_2 by lia.
    repeat split; lia.
  - rewrite bool_decide_eq_true_2 by lia. rewrite bool_decide_eq_false_2 by lia.
    repeat split; lia.
Qed.

End Movement.

Section Winner.
Import LudoGameService Play.

Lemma pushByColor_keys (g : list (PlayerColor * list Token)) (t : Token) :
  (pushByColor g t).*1
  = if decide (token_color t ∈ g.*1) then g.*1 else g.*1 ++ [token_color t].
Proof.
  induction g as [|[c ct] g IH]; [done|].
  cbn [pushByColor]. destruct (decide (c = token_color t)) as [->|Hc].
  - rewrite decide_True; [done|]. rewrite fmap_cons. by left.
  - rewrite !fmap_cons, IH. cbn [fst].
    destruct (decide (token_color t ∈ g.*1)) as [Hin|Hnin].
    + rewrite decide_True; [done|]. by right.
    + rewrite decide_False; [done|].
      intros [?|?]%elem_of_cons; [congruence|done].
Qed.

Lemma pushByColor_elem (g : list (PlayerColor * list Token)) (t : Token) c ct :
  NoDup (g.*1) →
  (c, ct) ∈ pushByColor g t ↔
    (c ≠ token_color t ∧ (c, ct) ∈ g)
    ∨ (c = token_color t
       ∧ ((∃ ct0, (c, ct0) ∈ g ∧ ct = ct0 ++ [t]) ∨ ((¬ (c ∈ g.*1)) ∧ ct = [t]))).
Proof.
  induction g as [|[c0 ct0] g IH]; intros Hnd.
  - cbn [pushByColor]. rewrite list_elem_of_singleton.
    assert (c ∉ ([] : list (PlayerColor * list Token)).*1) by (by intros ?%elem_of_nil).
    assert (∀ x, (c, x) ∉ ([] : list (PlayerColor * list Token)))
      by (by intros ? ?%elem_of_nil).
    split.
    + intros [= -> ->]. right. split; [done|]. by right.
    + intros [[_ Hin]|[-> [(ct1 & Hin & _)|[_ ->]]]]; [by destruct (H0 ct)| |done].
      by destruct (H0 ct1).
  - rewrite fmap_cons in Hnd. apply NoDup_cons in Hnd as [Hc0 Hnd]. specialize (IH Hnd).
    assert (∀ x, (c0, x) ∉ g) as Hfresh.
    { intros x Hx. apply Hc0. apply list_elem_of_fmap. by exists (c0, x). }
    assert (c ∈ (g.*1) → c ≠ c0) as Hother by (by intros ? ->).
    cbn [pushByColor]. rewrite fmap_cons. cbn [fst].
    destruct (decide (c0 = token_color t)) as [->|Hc].
    + rewrite !elem_of_cons. split.
      * intros [[= -> ->]|Hin].
        { right. split; [done|]. left. exists ct0. split; [by left|done]. }
        left. split; [|by right]. intros ->. by apply (Hfresh ct).
      * intros [[Hne [[= ??]|Hin]]|[-> [(ct1 & [[= ->]|Hin]%elem_of_cons & ->)|[Hnin _]]]].
        { congruence. }
        { by right. }
        { by left. }
        { by destruct (Hfresh ct1). }
        { destruct Hnin. by left. }
    + rewrite !elem_of_cons, IH. split.
      * intros [[= -> ->]|[[Hne Hin]|[-> [(ct1 & Hin & ->)|[Hnin ->]]]]].
        { left. split; [done|by left]. }
        { left. split; [done|by right]. }
        { right. split; [done|]. left. exists ct1. split; [by right|done]. }
        { right. split; [done|]. right. split; [|done].
          intros [?|?]; [congruence|done]. }
      * intros [[Hne [[= -> ->]|Hin]]|[-> [(ct1 & [[= ??]|Hin]%elem_of_cons & ->)|[Hnin ->]]]].
        { by left. }
        { right. left. done. }
        { congruence. }
        { right. right. split; [done|]. left. by exists ct1. }
        { right. right. split; [done|]. right. split; [|done].
          intros ?. apply Hnin. by right. }
Qed.

(** [groupByColor] holds, for each color on the board, exactly the
    tokens of that color. *)
Lemma groupByColor_spec (ts : list Token) :
  NoDup ((groupByColor ts).*1)
  ∧ (∀ c ct, (c, ct) ∈ groupByColor ts ↔
       ct = filter (λ t, token_color t = c) ts ∧ ct ≠ []).
Proof.
  induction ts as [|t ts [IHnd IH]] using rev_ind.
  - split; [constructor|]. intros c ct. simpl. split; [by intros ?%elem_of_nil|].
    intros [-> H]. done.
  - unfold groupByColor in *. rewrite fold_left_app. simpl.
    set (g := fold_left pushByColor ts []) in *.
    split.
    + rewrite pushByColor_keys. case_decide as Hin; [done|].
      apply NoDup_app. split; [done|]. split; [|apply NoDup_singleton].
      intros c Hc ->%list_elem_of_singleton. done.
    + intros c ct. rewrite pushByColor_elem by done. rewrite filter_app.
      rewrite (filter_cons _ t), filter_nil. split.
      * intros [[Hne Hin]|[-> [(ct0 & Hin & ->)|[Hnin ->]]]].
        { apply IH in Hin as [-> Hnil]. rewrite decide_False by done.
          by rewrite app_nil_r. }
        { apply IH in Hin as [-> Hnil]. rewrite decide_True by done.
          split; [done|]. by intros [? ?]%app_eq_nil. }
        rewrite decide_True by done. split; [|done].
        destruct (filter (λ t0, token_color t0 = token_color t) ts) as [|t0 l] eqn:Hf;
          [done|].
        exfalso. apply Hnin. apply list_elem_of_fmap.
        exists (token_color t, t0 :: l). split; [done|]. apply IH. by rewrite Hf.
      * intros [-> Hnil]. destruct (decide (c = token_color t)) as [->|Hne].
        { right. split; [done|]. rewrite decide_True by done.
          destruct (filter (λ t0, token_color t0 = token_color t) ts) as [|t0 l] eqn:Hf.
          - right. split; [|done]. intros ([c' ct'] & Hc' & Hin)%list_elem_of_fmap.
            simpl in Hc'. subst c'. apply IH in Hin as [-> Hne]. by rewrite Hf in Hne.
          - left. exists (t0 :: l). split; [|done]. apply IH. by rewrite Hf. }
        left. split; [done|]. rewrite decide_False in * by done.
        rewrite app_nil_r in *. by apply IH.
Qed.

Lemma checkWinner_Some (ts : list Token) (c : PlayerColor) :
  checkWinner ts = Some c → complete ts c.
Proof.
  unfold checkWinner. destruct (List.find _ _) as [[c' ct]|] eqn:Hfind; [|done].
  intros [= ->]. apply find_some in Hfind as [Hin Hall].
  apply list_elem_of_In, (proj2 (groupByColor_spec ts)) in Hin as [-> Hne].
  split.
  - destruct (filter _ ts) as [|t l] eqn:Hf; [done|]. exists t.
    assert (t ∈ filter (λ t, token_color t = c) ts) as Ht by (rewrite Hf; by left).
    by apply list_elem_of_filter in Ht as [? ?].
  - intros t Ht Hc. rewrite forallb_forall in Hall. apply Hall.
    apply list_elem_of_In, list_elem_of_filter. done.
Qed.

Lemma checkWinner_None (ts : list Token) :
  checkWinner ts = None → ∀ c, ¬ complete ts c.
Proof.
  unfold checkWinner. destruct (List.find _ _) as [[c' ct]|] eqn:Hfind; [done|].
  intros _ c [(t & Ht & Hc) Hall].
  assert ((c, filter (λ t, token_color t = c) ts) ∈ groupByColor ts) as Hin.
  { apply groupByColor_spec. split; [done|]. intros Hnil.
    assert (t ∈ filter (λ t, token_color t = c) ts) as Hf
      by (by apply list_elem_of_filter).
    rewrite Hnil in Hf. by apply elem_of_nil in Hf. }
  apply list_elem_of_In in Hin. apply (find_none _ _ Hfind) in Hin.
  apply not_true_iff_false in Hin. apply Hin. apply forallb_forall.
  intros t' [Hc' Ht']%list_elem_of_In%list_elem_of_filter. by apply Hall.
Qed.

(** The winner is the only complete color, when there is only one. *)
Lemma checkWinner_unique (ts : list Token) (c : PlayerColor) :
  complete ts c → (∀ c', complete ts c' → c' = c) → checkWinner ts = Some c.
Proof.
  intros Hc Honly. destruct (checkWinner ts) as [c'|] eqn:Hw.
  - f_equal. by apply Honly, checkWinner_Some.
  - by destruct (checkWinner_None ts Hw c).
Qed.

End Winner.

Section Engine.
Import LudoGameService Play.

(** *** Token lists with distinct ids *)

Lemma list_find_by_id (ts : list Token) (j : nat) (v : Token) :
  NoDup (token_id <$> ts) → ts !! j = Some v →
  list_find (λ t, token_id t = token_id v) ts = Some (j, v).
Proof.
  intros Hnd Hj. apply list_find_Some. split; [done|]. split; [done|].
  intros j' y Hj' Hlt Heq.
  assert (j' = j); [|lia].
  eapply NoDup_lookup; [exact Hnd| |].
  - rewrite list_lookup_fmap, Hj'. simpl. by rewrite Heq.
  - by rewrite list_lookup_fmap, Hj.
Qed.

Lemma ids_insert (ts : list Token) (j : nat) (v v' : Token) :
  ts !! j = Some v → token_id v' = token_id v →
  token_id <$> <[j := v']> ts = token_id <$> ts.
Proof.
  intros Hj Hid. rewrite list_fmap_insert, Hid.
  apply list_insert_id. by rewrite list_lookup_fmap, Hj.
Qed.

(** *** computeValidMoves *)

Lemma computeValidMoves_spec (gs : GameState) (c : option PlayerColor) (d : Z) (i : string) :
  i ∈ computeValidMoves gs c d ↔
  ∃ t, t ∈ tokens gs ∧ token_id t = i ∧ Some (token_color t) = c
       ∧ isFinished t = false ∧ calculateNewPosition t d ≠ None.
Proof.
  unfold computeValidMoves. rewrite list_elem_of_fmap. split.
  - intros (t & -> & [Hmove [[Hc Hf] Hin]%list_elem_of_filter]%list_elem_of_filter).
    by exists t.
  - intros (t & Hin & <- & Hc & Hf & Hmove). exists t. split; [done|].
    by rewrite !list_elem_of_filter.
Qed.

Lemma computeValidMoves_nil (gs : GameState) (c : option PlayerColor) (d : Z) :
  computeValidMoves gs c d = [] ↔
  ∀ t, t ∈ tokens gs → Some (token_color t) = c → isFinished t = false →
       calculateNewPosition t d = None.
Proof.
  split.
  - intros Hnil t Hin Hc Hf.
    destruct (calculateNewPosition t d) as [p|] eqn:Hp; [|done].
    assert (token_id t ∈ computeValidMoves gs c d) as Hid.
    { apply computeValidMoves_spec. exists t. by rewrite Hp. }
    rewrite Hnil in Hid. by apply elem_of_nil in Hid.
  - intros Hall. destruct (computeValidMoves gs c d) as [|i l] eqn:Hv; [done|].
    assert (i ∈ computeValidMoves gs c d) as Hi by (rewrite Hv; by left).
    apply computeValidMoves_spec in Hi as (t & Hin & _ & Hc & Hf & Hmove).
    by destruct Hmove; apply Hall.
Qed.

(** *** The capture block *)

Lemma captureAt_cases (token : Token) (p : Z) (ts : list Token) :
  NoDup (token_id <$> ts) →
  (captureAt token p ts = (ts, None)
   ∧ (¬ (0 ≤ p ≤ 51 ∧ ¬ (p ∈ SAFE_SQUARES))
      ∨ Forall (λ t, ¬ capturable token p t) ts))
  ∨ (∃ j v, (0 ≤ p ≤ 51 ∧ ¬ (p ∈ SAFE_SQUARES))
            ∧ list_find (capturable token p) ts = Some (j, v)
            ∧ captureAt token p ts = (<[j := sentHome v]> ts, Some (token_id v))).
Proof.
  intros Hnd. unfold captureAt, find, findIndex.
  destruct (decide (p >= 0 ∧ p <= 51 ∧ ¬ (p ∈ SAFE_SQUARES))) as [Hp|Hp].
  - destruct (list_find (capturable token p) ts) as [[j v]|] eqn:Hfind; simpl.
    + right. exists j, v. split; [split; [lia|tauto]|]. split; [done|].
      apply list_find_Some in Hfind as (Hj & _ & _).
      by rewrite (list_find_by_id ts j v Hnd Hj).
    + left. split; [done|]. right. by apply (list_find_None (capturable token p)).
  - left. split; [done|]. left. intros [? ?]. apply Hp. repeat split; (lia || done).
Qed.

(** *** What a successful moveToken did *)

Lemma passTurn_fields (gs : GameState) (d : Z) :
  let gs' := snd (passTurn gs d) in
  fst (passTurn gs d) = d
  ∧ currentTurnPlayerIndex gs' = nextIndex gs
  ∧ diceValue gs' = None ∧ canRollDice gs' = true ∧ consecutiveSixes gs' = 0
  ∧ validMoves gs' = [] ∧ tokens gs' = tokens gs ∧ winner gs' = winner gs
  ∧ moveHistory gs' = moveHistory gs ∧ playerColorOrder gs' = playerColorOrder gs.
Proof. done. Qed.

Lemma moveToken_Ok (now : Z) (gs : GameState) (id : string) (gs' : GameState) :
  moveToken now gs id = Ok gs' →
  ∃ dice tokenIndex token newPosition,
    diceValue gs = Some dice
    ∧ list_find (λ t, token_id t = id) (tokens gs) = Some (tokenIndex, token)
    ∧ Some (token_color token) = getCurrentPlayerColor gs
    ∧ id ∈ validMoves gs
    ∧ calculateNewPosition token dice = Some newPosition
    ∧ tokens gs' = <[tokenIndex := movedToken token newPosition]>
                     (captureAt token newPosition (tokens gs)).1
    ∧ moveHistory gs' = moveHistory gs ++
        [ {| playerColor := token_color token; tokenId := token_id token;
             move_from := position token; move_to := newPosition; timestamp := now;
             capturedTokenId := (captureAt token newPosition (tokens gs)).2 |} ]
    ∧ winner gs' = checkWinner (tokens gs')
    ∧ diceValue gs' = None ∧ canRollDice gs' = true ∧ validMoves gs' = []
    ∧ playerColorOrder gs' = playerColorOrder gs
    ∧ (if keepsTurn dice (captureAt token newPosition (tokens gs)).2
            (winner gs') (consecutiveSixes gs)
       then currentTurnPlayerIndex gs' = currentTurnPlayerIndex gs
            ∧ consecutiveSixes gs'
              = (if decide (dice = 6) then consecutiveSixes gs + 1 else 0)
       else currentTurnPlayerIndex gs'
            = js_succ_rem (currentTurnPlayerIndex gs) (playerCountOf gs')
            ∧ consecutiveSixes gs' = 0).
Proof.
  unfold moveToken, find, findIndex. intros Hmove.
  destruct (diceValue gs) as [dice|]; [|done].
  destruct (list_find _ (tokens gs)) as [[tokenIndex token]|] eqn:Hfind; [|done].
  simpl in Hmove.
  destruct (decide (Some (token_color token) ≠ getCurrentPlayerColor gs)) as [|Hcol%dec_stable];
    [done|].
  destruct (decide (id ∉ validMoves gs)) as [|Hvalid%dec_stable]; [done|].
  destruct (calculateNewPosition token dice) as [newPosition|] eqn:Hpos; [|done].
  pose proof Hfind as (Hidx & _ & _)%list_find_Some. rewrite Hidx in Hmove.
  destruct (captureAt token newPosition (tokens gs)) as [ts1 cap] eqn:Hcap.
  exists dice, tokenIndex, token, newPosition.
  do 5 (split; [done|]). rewrite Hcap. unfold keepsTurn. cbn [fst snd].
  set (ts2 := <[tokenIndex:=movedToken token newPosition]> ts1) in *.
  destruct (bool_decide (dice = 6)) eqn:Hsix;
    [apply bool_decide_eq_true in Hsix|apply bool_decide_eq_false in Hsix];
    destruct (truthy cap); destruct (bool_decide (is_Some (checkWinner ts2))) eqn:Hw;
    cbn [orb andb negb] in Hmove;
    repeat (case_decide; try lia); injection Hmove as <-; cbn;
    rewrite ?Hw; cbn;
    rewrite ?bool_decide_eq_true_2, ?bool_decide_eq_false_2 by lia; cbn;
    repeat split; done.
Qed.

End Engine.

Section Invariant.
Import LudoGameService Play.

(** *** The initial state *)

Lemma NoDup_fmap_eq {A B} (f : A → B) (l : list A) (x y : A) :
  NoDup (f <$> l) → x ∈ l → y ∈ l → f x = f y → x = y.
Proof.
  intros Hnd [i Hi]%list_elem_of_lookup [j Hj]%list_elem_of_lookup Hf.
  assert (i = j) as ->; [|congruence].
  eapply NoDup_lookup; [exact Hnd| |].
  - by rewrite list_lookup_fmap, Hi.
  - rewrite list_lookup_fmap, Hj. simpl. by rewrite Hf.
Qed.

Lemma newToken_id_inj (p q : Player) (i j : nat) :
  (i < 4)%nat → (j < 4)%nat →
  token_id (newToken p i) = token_id (newToken q j) →
  player_color p = player_color q ∧ i = j.
Proof.
  intros Hi Hj. unfold newToken. simpl.
  destruct (player_color p), (player_color q);
    do 4 (try destruct i as [|i]); try lia;
    do 4 (try destruct j as [|j]); try lia;
    simpl; intros [=]; done.
Qed.

Lemma counter_elem (i : nat) : i ∈ [0; 1; 2; 3]%nat ↔ (i < 4)%nat.
Proof.
  rewrite !elem_of_cons, elem_of_nil. lia.
Qed.

Lemma initial_tokens_elem (players : list Player) (t : Token) :
  t ∈ tokens (initializeGame players) ↔
  ∃ p i, p ∈ players ∧ (i < 4)%nat ∧ t = newToken p i.
Proof.
  cbn [tokens initializeGame]. rewrite list_elem_of_bind. split.
  - intros (p & Ht & Hp). exists p.
    apply list_elem_of_fmap in Ht as (i & -> & Hi%counter_elem). by exists i.
  - intros (p & i & Hp & Hi & ->). exists p. split; [|done].
    apply list_elem_of_fmap. exists i. by rewrite counter_elem.
Qed.

Lemma initial_ids_NoDup (players : list Player) :
  NoDup (player_color <$> players) →
  NoDup (token_id <$> tokens (initializeGame players)).
Proof.
  cbn [tokens initializeGame]. induction players as [|p players IH]; intros Hnd.
  - constructor.
  - rewrite fmap_cons in Hnd. apply NoDup_cons in Hnd as [Hp Hnd].
    rewrite bind_cons, fmap_app. apply NoDup_app. split; [|split; [|by apply IH]].
    + unfold newToken. cbn [fmap list_fmap token_id].
      destruct (player_color p); by apply (bool_decide_unpack _); vm_compute.
    + intros i (a & -> & (ia & -> & Hia%counter_elem)%list_elem_of_fmap)%list_elem_of_fmap.
      intros (b & Hab & Hb)%list_elem_of_fmap.
      apply (initial_tokens_elem players) in Hb as (q & ib & Hq & Hib & ->).
      apply newToken_id_inj in Hab as [Hc _]; [|done..].
      apply Hp. apply list_elem_of_fmap. by exists q.
Qed.

Lemma initializeGame_inv (players : list Player) :
  (2 ≤ length players)%nat → NoDup (player_color <$> players) →
  GameInv (initializeGame players).
Proof.
  intros Hlen Hnd. split.
  - exists (player_color <$> players), 0. rewrite length_fmap. simpl.
    repeat split; (done || lia).
  - by apply initial_ids_NoDup.
  - apply Forall_forall. intros t (p & i & _ & _ & ->)%initial_tokens_elem.
    unfold newToken. simpl. by destruct (player_color p).
  - apply Forall_forall. intros t (p & i & _ & _ & ->)%initial_tokens_elem.
    left. done.
  - done.
  - cbn [winner initializeGame].
    destruct (checkWinner _) as [c|] eqn:Hw; [|done].
    apply checkWinner_Some in Hw as [(t & Ht & Hc) Hall].
    specialize (Hall t Ht Hc).
    apply (initial_tokens_elem players) in Ht as (p & i & _ & _ & ->).
    discriminate Hall.
Qed.

(** *** rollDice *)

Lemma rollDice_Ok (r : Q) (gs : GameState) (d : Z) (gs' : GameState) :
  rollDice r gs = Ok (d, gs') →
  canRollDice gs = true
  ∧ d = (if decide (consecutiveSixes gs >= 2) then randomFace r 5 else randomFace r 6)
  ∧ tokens gs' = tokens gs ∧ playerColorOrder gs' = playerColorOrder gs
  ∧ winner gs' = winner gs ∧ moveHistory gs' = moveHistory gs
  ∧ ((computeValidMoves gs (getCurrentPlayerColor gs) d = []
      ∧ currentTurnPlayerIndex gs' = nextIndex gs ∧ diceValue gs' = None
      ∧ canRollDice gs' = true ∧ consecutiveSixes gs' = 0 ∧ validMoves gs' = [])
     ∨ (computeValidMoves gs (getCurrentPlayerColor gs) d ≠ []
        ∧ currentTurnPlayerIndex gs' = currentTurnPlayerIndex gs
        ∧ diceValue gs' = Some d ∧ canRollDice gs' = false
        ∧ consecutiveSixes gs' = consecutiveSixes gs
        ∧ validMoves gs' = computeValidMoves gs (getCurrentPlayerColor gs) d)).
Proof.
  unfold rollDice. destruct (canRollDice gs) eqn:Hcan; [|done]. cbn [negb].
  set (face := if decide (consecutiveSixes gs >= 2) then _ else _).
  change (computeValidMoves _ (getCurrentPlayerColor gs) face)
    with (computeValidMoves gs (getCurrentPlayerColor gs) face).
  destruct (decide (length (computeValidMoves gs (getCurrentPlayerColor gs) face) = 0%nat))
    as [Hnil%nil_length_inv|Hne]; intros [= <- <-].
  - repeat split; try done. by left.
  - repeat split; try done. right. repeat split; try done.
    intros Hnil. by rewrite Hnil in Hne.
Qed.

(** *** Preservation *)

Lemma nextIndex_inv (gs : GameState) (order : list PlayerColor) (i : Z) :
  playerColorOrder gs = Some order → (1 ≤ length order)%nat →
  currentTurnPlayerIndex gs = Num i → 0 ≤ i < Z.of_nat (length order) →
  nextIndex gs = Num ((i + 1) mod Z.of_nat (length order))
  ∧ 0 ≤ (i + 1) mod Z.of_nat (length order) < Z.of_nat (length order).
Proof.
  intros Ho Hlen Hi Hrange. unfold nextIndex, playerCountOf, js_succ_rem.
  rewrite Ho, Hi. rewrite decide_False by lia.
  rewrite Z.rem_mod_nonneg by lia.
  split; [done|]. apply Z.mod_pos_bound. lia.
Qed.

Lemma rollDice_inv (r : Q) (gs : GameState) (d : Z) (gs' : GameState) :
  unitInterval r = true → GameInv gs → rollDice r gs = Ok (d, gs') → GameInv gs'.
Proof.
  intros Hr [Hord Hids Hne Htok Hdice Hwin] Hroll.
  apply rollDice_Ok in Hroll
    as (Hcan & Hd & Htokens & Horder & Hwinner & Hhist & Hcases).
  destruct Hord as (order & i & Ho & Hlen & Hi & Hrange).
  assert (1 ≤ d ≤ 6) as Hface.
  { subst d. case_decide.
    - pose proof (randomFace_range r 5 Hr ltac:(lia)). lia.
    - pose proof (randomFace_range r 6 Hr ltac:(lia)). lia. }
  assert (∀ c, computeValidMoves gs' c d = computeValidMoves gs c d) as Hsame.
  { intros c. unfold computeValidMoves. by rewrite Htokens. }
  split; rewrite ?Htokens, ?Hwinner; try done.
  - exists order. destruct Hcases as [(_ & Hidx & _)|(_ & Hidx & _)].
    + destruct (nextIndex_inv gs order i) as [Hn ?]; [done|lia|done|done|].
      exists ((i + 1) mod Z.of_nat (length order)).
      rewrite Horder, Hidx. done.
    + exists i. rewrite Horder, Hidx. done.
  - intros d' Hd'. destruct Hcases as [(_ & _ & Hnone & _)|(_ & Hidx & Hsome & _ & _ & Hvm)].
    + congruence.
    + rewrite Hsome in Hd'. injection Hd' as <-. split; [done|].
      rewrite Hvm, Hsame. unfold getCurrentPlayerColor. by rewrite Horder, Hidx.
Qed.

Lemma ids_insert_same (ts : list Token) (j : nat) (v : Token) :
  (token_id <$> ts) !! j = Some (token_id v) →
  token_id <$> <[j := v]> ts = token_id <$> ts.
Proof.
  intros Hj. rewrite list_fmap_insert. by apply list_insert_id.
Qed.

(** The capture block keeps the ids, the colors and the finished flags,
    and leaves every token in a legal place. *)
Lemma captureAt_keeps (token : Token) (p : Z) (ts : list Token) :
  NoDup (token_id <$> ts) →
  let ts' := (captureAt token p ts).1 in
  token_id <$> ts' = token_id <$> ts
  ∧ token_color <$> ts' = token_color <$> ts
  ∧ isFinished <$> ts' = isFinished <$> ts
  ∧ (Forall tokenOk ts → Forall tokenOk ts').
Proof.
  intros Hnd.
  destruct (captureAt_cases token p ts Hnd)
    as [[-> _]|(j & v & _ & Hfind & ->)]; [done|].
  cbn [fst]. apply list_find_Some in Hfind as (Hj & Hcap & _).
  rewrite !list_fmap_insert. cbn [sentHome token_id token_color isFinished].
  repeat split.
  - apply list_insert_id. by rewrite list_lookup_fmap, Hj.
  - apply list_insert_id. by rewrite list_lookup_fmap, Hj.
  - apply list_insert_id. by rewrite list_lookup_fmap, Hj.
  - intros Hok. apply Forall_insert; [done|]. left.
    destruct Hcap as (_ & _ & _ & Hfin & _). done.
Qed.

Lemma moveToken_inv (now : Z) (gs : GameState) (id : string) (gs' : GameState) :
  GameInv gs → moveToken now gs id = Ok gs' → GameInv gs'.
Proof.
  intros [Hord Hids Hne Htok Hdice Hwin] Hmove.
  apply moveToken_Ok in Hmove
    as (dice & i & token & p & Hd & Hfind & Hcol & Hvalid & Hpos & Htokens
        & Hhist & Hwinner & Hdice' & Hcan & Hvm & Horder & Hturn).
  apply list_find_Some in Hfind as (Hi & Hid & _).
  destruct (Hdice dice Hd) as [Hface _].
  destruct (captureAt_keeps token p (tokens gs) Hids) as (Hids1 & _ & _ & Hok1).
  assert (token_id <$> tokens gs' = token_id <$> tokens gs) as Hids'.
  { rewrite Htokens, ids_insert_same; [done|].
    rewrite Hids1, list_lookup_fmap, Hi. done. }
  destruct Hord as (order & k & Ho & Hlen & Hk & Hrange).
  split.
  - exists order. destruct (keepsTurn _ _ _ _).
    + exists k. destruct Hturn as [-> _]. rewrite Horder. done.
    + destruct Hturn as [Hidx _].
      exists ((k + 1) mod Z.of_nat (length order)).
      rewrite Horder, Hidx. unfold playerCountOf. rewrite Horder, Ho, Hk.
      unfold js_succ_rem. rewrite decide_False by lia.
      rewrite Z.rem_mod_nonneg by lia.
      repeat split; try done; apply Z.mod_pos_bound; lia.
  - by rewrite Hids'.
  - apply (Forall_fmap token_id (λ i, i ≠ EmptyString)). rewrite Hids'.
    by apply (Forall_fmap token_id (λ i, i ≠ EmptyString)).
  - rewrite Htokens. apply Forall_insert; [by apply Hok1|].
    apply movedToken_ok. eapply calculateNewPosition_bounds; [|done..].
    rewrite Forall_forall in Htok. apply Htok. by eapply list_elem_of_lookup_2.
  - intros d'. by rewrite Hdice'.
  - done.
Qed.

Theorem reachableGame_inv (gs : GameState) : reachableGame gs → GameInv gs.
Proof.
  induction 1 as [players Hlen Hnd|g a g' _ IH Hstep].
  - by apply initializeGame_inv.
  - destruct a as [r|now id]; simpl in Hstep.
    + destruct (unitInterval r) eqn:Hr; [|done].
      destruct (rollDice r g) as [[d g'']|] eqn:Hroll; [|done].
      injection Hstep as ->. by eapply rollDice_inv.
    + destruct (moveToken now g id) as [g''|] eqn:Hmove; [|done].
      injection Hstep as ->. by eapply moveToken_inv.
Qed.

End Invariant.

(* ===================================================================== *)
(** ** The rolled value (C1, C2)                                          *)
(* ===================================================================== *)

Section Reachability.
Import LudoGameService Play Examples.

Lemma run_reachable (actions : list Action) (g g' : GameState) :
  reachableGame g → run actions g = Some g' → reachableGame g'.
Proof.
  revert g. induction actions as [|a actions IH]; simpl; intros g Hg Hrun.
  - by injection Hrun as <-.
  - destruct (step a g) as [g1|] eqn:Hstep; [|done].
    eapply IH; [|done]. by eapply reachable_action.
Defined.

Lemma newGame_reachable : reachableGame newGame.
Proof.
  apply (reachable_start [alice; bob]).
  - simpl. lia.
  - apply (bool_decide_unpack _). vm_compute. exact I.
Defined.

Lemma afterRedWon_reachable : reachableGame afterRedWon.
Proof.
  apply (run_reachable afterRedWonPlay newGame); [apply newGame_reachable|].
  vm_compute. reflexivity.
Qed.

Lemma greenAboutToFinish_reachable : reachableGame greenAboutToFinish.
Proof.
  apply (run_reachable greenAboutToFinishPlay newGame); [apply newGame_reachable|].
  vm_compute. reflexivity.
Qed.

Lemma stackedDefenders_reachable : reachableGame stackedDefenders.
Proof.
  apply (run_reachable stackedDefendersPlay newGame); [apply newGame_reachable|].
  vm_compute. reflexivity.
Qed.

Lemma firstSix_reachable : reachableGame firstSix.
Proof.
  apply (run_reachable [face 6] newGame); [apply newGame_reachable|].
  vm_compute. reflexivity.
Qed.

(** The invariant does not depend on the six counter. *)
Lemma thirdSixHeld_inv : GameInv thirdSixHeld.
Proof.
  destruct (reachableGame_inv firstSix firstSix_reachable). by split.
Qed.

End Reachability.

Section RollClaims.
Import LudoGameService Play Examples.

(** C1. Whenever rolling is allowed, [rollDice] returns a value: after
    two consecutive sixes it lies in 1..5, so it is never a third six,
    and otherwise in 1..6.  The value is one more than the floor of the
    draw [r] of [Math.random()] times 5 (resp. 6), rounded to a double.
    Each face has the same share of the draws up to the spacing of the
    doubles, which is what makes the roll uniform over its range: face
    [k] is returned for every draw from [(k-1)/5] up to one spacing
    below [k/5], and only for draws from one spacing below [(k-1)/5]
    up to [k/5] (resp. 6). *)
Theorem rollDice_face_range (r : Q) (gs : GameState) :
  unitInterval r = true → canRollDice gs = true →
  ∃ d gs', rollDice r gs = Ok (d, gs')
    ∧ (consecutiveSixes gs >= 2 →
         1 ≤ d ≤ 5 ∧ d ≠ 6
         ∧ ∀ k, (d = k ↔ (inject_Z (k - 1) <= roundDouble (r * 5))%Q
                         ∧ (roundDouble (r * 5) < inject_Z k)%Q)
                ∧ (((k - 1) # 5 <= r)%Q ∧ (r <= (k # 5) - drawSpacing)%Q → d = k)
                ∧ (d = k → (((k - 1) # 5) - drawSpacing <= r)%Q ∧ (r < k # 5)%Q))
    ∧ (consecutiveSixes gs < 2 →
         1 ≤ d ≤ 6
         ∧ ∀ k, (d = k ↔ (inject_Z (k - 1) <= roundDouble (r * 6))%Q
                         ∧ (roundDouble (r * 6) < inject_Z k)%Q)
                ∧ (((k - 1) # 6 <= r)%Q ∧ (r <= (k # 6) - drawSpacing)%Q → d = k)
                ∧ (d = k → (((k - 1) # 6) - drawSpacing <= r)%Q ∧ (r < k # 6)%Q)).
Proof.
  intros Hr Hcan.
  destruct (rollDice_returns r gs Hcan) as [gs' Hroll].
  assert (∀ faces k, randomFace r faces = k
            ↔ (inject_Z (k - 1) <= roundDouble (r * inject_Z faces))%Q
              ∧ (roundDouble (r * inject_Z faces) < inject_Z k)%Q) as Hfloor.
  { intros faces k. unfold randomFace.
    pose proof (Qfloor_between (roundDouble (r * inject_Z faces)) (k - 1)) as Hbetween.
    replace (k - 1 + 1) with k in Hbetween by lia.
    rewrite <- Hbetween. lia. }
  eexists _, gs'. split; [exact Hroll|]. split; intros Hsix.
  - rewrite decide_True by done.
    pose proof (randomFace_range r 5 Hr ltac:(lia)).
    split; [lia|]. split; [lia|]. intros k.
    split; [apply (Hfloor 5)|apply (randomFace_share r 5 k Hr); lia].
  - rewrite decide_False by lia.
    pose proof (randomFace_range r 6 Hr ltac:(lia)).
    split; [lia|]. intros k.
    split; [apply (Hfloor 6)|apply (randomFace_share r 6 k Hr); lia].
Qed.

Lemma rollDice_face_range_witness :
  let r := (5404319552844595 # 2 ^ 53)%Q in
  ∃ d gs', rollDice r twoSixes = Ok (d, gs')
    ∧ (consecutiveSixes twoSixes >= 2 →
         1 ≤ d ≤ 5 ∧ d ≠ 6
         ∧ ∀ k, (d = k ↔ (inject_Z (k - 1) <= roundDouble (r * 5))%Q
                         ∧ (roundDouble (r * 5) < inject_Z k)%Q)
                ∧ (((k - 1) # 5 <= r)%Q ∧ (r <= (k # 5) - drawSpacing)%Q → d = k)
                ∧ (d = k → (((k - 1) # 5) - drawSpacing <= r)%Q ∧ (r < k # 5)%Q))
    ∧ (consecutiveSixes twoSixes < 2 →
         1 ≤ d ≤ 6
         ∧ ∀ k, (d = k ↔ (inject_Z (k - 1) <= roundDouble (r * 6))%Q
                         ∧ (roundDouble (r * 6) < inject_Z k)%Q)
                ∧ (((k - 1) # 6 <= r)%Q ∧ (r <= (k # 6) - drawSpacing)%Q → d = k)
                ∧ (d = k → (((k - 1) # 6) - drawSpacing <= r)%Q ∧ (r < k # 6)%Q)).
Proof.
  apply (rollDice_face_range (5404319552844595 # 2 ^ 53) twoSixes).
  - vm_compute. reflexivity.
  - reflexivity.
Defined.

(** C2. Rolling is allowed and, for the value drawn, no unfinished token
    of the active color has a destination: [rollDice] returns the drawn
    value itself together with a state in which the turn index has moved
    to the next player, [validMoves] is empty and rolling is enabled
    (the dice field of that state is null: the value is in the result
    only). *)
Theorem rollDice_without_move_passes (r : Q) (gs : GameState) :
  reachableGame gs → canRollDice gs = true →
  (∀ t, t ∈ tokens gs → Some (token_color t) = getCurrentPlayerColor gs →
        isFinished t = false → calculateNewPosition t (drawnFace r gs) = None) →
  ∃ gs' order i,
    rollDice r gs = Ok (drawnFace r gs, gs')
    ∧ playerColorOrder gs = Some order ∧ currentTurnPlayerIndex gs = Num i
    ∧ currentTurnPlayerIndex gs' = Num ((i + 1) mod Z.of_nat (length order))
    ∧ (i + 1) mod Z.of_nat (length order) ≠ i
    ∧ 0 ≤ (i + 1) mod Z.of_nat (length order) < Z.of_nat (length order)
    ∧ validMoves gs' = [] ∧ canRollDice gs' = true ∧ diceValue gs' = None.
Proof.
  intros Hreach Hcan Hnone.
  destruct (reachableGame_inv gs Hreach) as [(order & i & Ho & Hlen & Hi & Hrange) _ _ _ _ _].
  destruct (rollDice_returns r gs Hcan) as [gs' Hroll].
  fold (drawnFace r gs) in Hroll.
  exists gs', order, i. split; [done|].
  apply rollDice_Ok in Hroll as (_ & _ & _ & _ & _ & _ & Hcases).
  apply computeValidMoves_nil in Hnone.
  destruct Hcases as [(_ & Hidx & Hnodice & Hcan' & _ & Hvm)|(Hne & _)]; [|done].
  destruct (nextIndex_inv gs order i) as [Hn Hbound]; [done|lia|done|done|].
  rewrite Hidx, Hn. repeat split; try done; try lia.
  intros Heq. destruct (decide (i + 1 < Z.of_nat (length order))) as [Hlt|Hge].
  - rewrite Z.mod_small in Heq by lia. lia.
  - assert (i + 1 = Z.of_nat (length order)) as Hfull by lia.
    rewrite Hfull, Z.mod_same in Heq by lia. lia.
Qed.

Lemma rollDice_without_move_passes_witness :
  ∃ gs' order i,
    rollDice 0 newGame = Ok (drawnFace 0 newGame, gs')
    ∧ playerColorOrder newGame = Some order ∧ currentTurnPlayerIndex newGame = Num i
    ∧ currentTurnPlayerIndex gs' = Num ((i + 1) mod Z.of_nat (length order))
    ∧ (i + 1) mod Z.of_nat (length order) ≠ i
    ∧ 0 ≤ (i + 1) mod Z.of_nat (length order) < Z.of_nat (length order)
    ∧ validMoves gs' = [] ∧ canRollDice gs' = true ∧ diceValue gs' = None.
Proof.
  apply (rollDice_without_move_passes 0 newGame).
  - apply (reachable_start [alice; bob]).
    + simpl. lia.
    + apply (bool_decide_unpack _). vm_compute. exact I.
  - reflexivity.
  - intros t Ht. vm_compute in Ht.
    repeat (apply elem_of_cons in Ht as [->|Ht]; [vm_compute; try discriminate; reflexivity|]).
    by apply elem_of_nil in Ht.
Defined.

End RollClaims.

(* ===================================================================== *)
(** ** Destinations (C3, C4)                                              *)
(* ===================================================================== *)

Section DestinationClaims.
Import LudoGameService Play Examples.

(** C3. A token on the shared ring moved by a face 1..6, with
    [stepsToGateway] the forward distance modulo 52 to the gateway of
    its color: within that distance it lands on (position + dice) mod 52;
    beyond it, on lane cell 52 + (dice - stepsToGateway - 1); and it has
    no destination when that cell would lie beyond 56. *)
Theorem ring_destination (t : Token) (d : Z) :
  onRing t → 1 ≤ d ≤ 6 →
  let stepsToGateway := (GATEWAY (token_color t) - position t) mod 52 in
  (d ≤ stepsToGateway →
     calculateNewPosition t d = Some ((position t + d) mod 52))
  ∧ (d > stepsToGateway → 52 + (d - stepsToGateway - 1) ≤ 56 →
     calculateNewPosition t d = Some (52 + (d - stepsToGateway - 1)))
  ∧ (d > stepsToGateway → 52 + (d - stepsToGateway - 1) > 56 →
     calculateNewPosition t d = None).
Proof.
  intros Hring Hd. cbn zeta. rewrite (calculateNewPosition_ring t d Hring Hd).
  repeat split; intros; repeat case_decide; (done || lia).
Qed.

Lemma ring_destination_witness :
  let t := mkToken "red-0" RED 50 false false false in
  let stepsToGateway := (GATEWAY (token_color t) - position t) mod 52 in
  (5 ≤ stepsToGateway →
     calculateNewPosition t 5 = Some ((position t + 5) mod 52))
  ∧ (5 > stepsToGateway → 52 + (5 - stepsToGateway - 1) ≤ 56 →
     calculateNewPosition t 5 = Some (52 + (5 - stepsToGateway - 1)))
  ∧ (5 > stepsToGateway → 52 + (5 - stepsToGateway - 1) > 56 →
     calculateNewPosition t 5 = None).
Proof.
  apply (ring_destination (mkToken "red-0" RED 50 false false false) 5).
  - unfold onRing. simpl. repeat split; lia.
  - lia.
Defined.

(** In a stored game a token is determined by its id. *)
Lemma token_by_id (gs : GameState) (t t' : Token) :
  GameInv gs → t ∈ tokens gs → t' ∈ tokens gs → token_id t' = token_id t → t' = t.
Proof.
  intros Hinv Ht Ht' Hid.
  by apply (NoDup_fmap_eq token_id (tokens gs)); [apply Hinv|..].
Qed.




End DestinationClaims.

(* ===================================================================== *)
(** ** Capture (C5)                                                       *)
(* ===================================================================== *)

Section CaptureClaims.
Import LudoGameService Play Examples.

(** The facts about a successful move of a token of a stored game. *)
Lemma moveToken_of (now : Z) (gs : GameState) (mover : Token) (gs' : GameState) :
  GameInv gs → mover ∈ tokens gs → moveToken now gs (token_id mover) = Ok gs' →
  ∃ dice dest i,
    diceValue gs = Some dice ∧ calculateNewPosition mover dice = Some dest
    ∧ 1 ≤ dice ≤ 6 ∧ 0 ≤ dest ≤ 57
    ∧ tokens gs !! i = Some mover
    ∧ Some (token_color mover) = getCurrentPlayerColor gs
    ∧ tokens gs' = <[i := movedToken mover dest]> (captureAt mover dest (tokens gs)).1
    ∧ last (moveHistory gs')
      = Some {| playerColor := token_color mover; tokenId := token_id mover;
                move_from := position mover; move_to := dest; timestamp := now;
                capturedTokenId := (captureAt mover dest (tokens gs)).2 |}
    ∧ winner gs' = checkWinner (tokens gs')
    ∧ diceValue gs' = None ∧ canRollDice gs' = true
    ∧ (if keepsTurn dice (captureAt mover dest (tokens gs)).2
            (winner gs') (consecutiveSixes gs)
       then currentTurnPlayerIndex gs' = currentTurnPlayerIndex gs
       else currentTurnPlayerIndex gs' = nextIndex gs ∧ consecutiveSixes gs' = 0).
Proof.
  intros Hinv Hin Hmove.
  apply moveToken_Ok in Hmove
    as (dice & i & token & dest & Hd & Hfind & Hcol & _ & Hpos & Htokens
        & Hhist & Hwinner & Hdice' & Hcan & _ & Horder & Hturn).
  apply list_find_Some in Hfind as (Hi & Hid & _).
  assert (token = mover) as -> by (eapply token_by_id; eauto using list_elem_of_lookup_2).
  destruct (inv_dice gs Hinv dice Hd) as [Hface _].
  assert (tokenOk mover) as Hok.
  { pose proof (inv_tokens gs Hinv) as Htok. rewrite Forall_forall in Htok. by apply Htok. }
  assert (0 ≤ dest ≤ 57) by (by eapply calculateNewPosition_bounds).
  exists dice, dest, i. split_and!; try done; try lia.
  - by rewrite Hhist, last_snoc.
  - revert Hturn. destruct (keepsTurn _ _ _ _); intros Hturn; [exact (proj1 Hturn)|].
    destruct Hturn as [-> ?]. split; [|done].
    destruct (inv_order gs Hinv) as (order & _ & Ho & _).
    unfold nextIndex, playerCountOf. by rewrite Horder, Ho.
Qed.

(** What the capture block does when the first capturable token is
    known. *)
Lemma captureAt_first (mover : Token) (dest : Z) (ts : list Token) (j : nat) (victim : Token) :
  NoDup (token_id <$> ts) → 0 ≤ dest ≤ 51 → ¬ (dest ∈ SAFE_SQUARES) →
  ts !! j = Some victim → capturable mover dest victim →
  (∀ j' y, (j' < j)%nat → ts !! j' = Some y → ¬ capturable mover dest y) →
  captureAt mover dest ts = (<[j := sentHome victim]> ts, Some (token_id victim)).
Proof.
  intros Hnd Hdest Hsafe Hj Hcap Hfirst.
  assert (list_find (capturable mover dest) ts = Some (j, victim)) as Hfind.
  { apply list_find_Some. split; [done|]. split; [done|].
    intros j' y Hj' Hlt. by eapply Hfirst. }
  destruct (captureAt_cases mover dest ts Hnd)
    as [[_ [Hno|Hno]]|(j0 & v & _ & Hfind' & ->)].
  - by destruct Hno.
  - rewrite Forall_forall in Hno. destruct (Hno victim); [|done].
    by eapply list_elem_of_lookup_2.
  - rewrite Hfind in Hfind'. by injection Hfind' as <- <-.
Qed.

Lemma captureAt_safe (mover : Token) (dest : Z) (ts : list Token) :
  dest ∈ SAFE_SQUARES → captureAt mover dest ts = (ts, None).
Proof.
  intros Hsafe. unfold captureAt. rewrite decide_False; [done|]. tauto.
Qed.

(** C5, as the engine has it.  A successful move to a ring cell that is
    not safe sends Home the first token, in token order, of another
    color that stands on that cell of the ring, and records its id as
    [capturedTokenId]; no token but the mover and that one changes.  A
    successful move to a safe cell records no capture and changes no
    token but the mover. *)
Theorem capture_first_occupant (now : Z) (gs gs' : GameState)
    (mover : Token) (dice dest : Z) (record : MoveRecord) :
  reachableGame gs → diceValue gs = Some dice → mover ∈ tokens gs →
  moveToken now gs (token_id mover) = Ok gs' →
  calculateNewPosition mover dice = Some dest → 0 ≤ dest ≤ 51 →
  last (moveHistory gs') = Some record →
  (¬ (dest ∈ SAFE_SQUARES) →
   ∀ j victim,
     tokens gs !! j = Some victim → position victim = dest →
     token_color victim ≠ token_color mover → onRing victim →
     (∀ j' y, (j' < j)%nat → tokens gs !! j' = Some y →
        ¬ (position y = dest ∧ token_color y ≠ token_color mover ∧ onRing y)) →
     tokens gs' !! j = Some (sentHome victim)
     ∧ atHome (sentHome victim)
     ∧ token_id (sentHome victim) = token_id victim
     ∧ capturedTokenId record = Some (token_id victim)
     ∧ ∀ k y, tokens gs !! k = Some y → y ≠ mover → k ≠ j →
         tokens gs' !! k = Some y)
  ∧ (dest ∈ SAFE_SQUARES →
     capturedTokenId record = None
     ∧ ∀ k y, tokens gs !! k = Some y → y ≠ mover → tokens gs' !! k = Some y).
Proof.
  intros Hreach Hdice Hin Hmove Hpos Hdest Hlast.
  pose proof (reachableGame_inv gs Hreach) as Hinv.
  apply moveToken_of in Hmove
    as (dice' & dest' & i & Hd & Hp & _ & _ & Hi & _ & Htokens & Hrec & _); [|done..].
  assert (dice' = dice) as -> by congruence.
  assert (dest' = dest) as -> by congruence.
  rewrite Hlast in Hrec. injection Hrec as ->. cbn [capturedTokenId].
  split.
  - intros Hsafe j victim Hj Hat Hcolor Hring Hfirst.
    assert (capturable mover dest victim) as Hcap.
    { destruct Hring as (_ & ? & ? & ?). by repeat split. }
    rewrite Htokens.
    rewrite (captureAt_first mover dest (tokens gs) j victim); try done;
      [|apply Hinv|].
    + cbn [fst snd].
      assert (i ≠ j) as Hij by (intros ->; congruence).
      rewrite list_lookup_insert_ne by done.
      rewrite list_lookup_insert_eq by (by eapply lookup_lt_Some).
      destruct Hcap as (_ & _ & _ & Hfin & _).
      repeat split; try done.
      intros k y Hk Hy Hkj.
      assert (i ≠ k) as Hik by (intros ->; congruence).
      by rewrite !list_lookup_insert_ne.
    + intros j' y Hlt Hj' (Hy & Hc & Hs & Hf & Hh). eapply Hfirst; [done..|].
      repeat split; try done; lia.
  - intros Hsafe. rewrite Htokens, captureAt_safe by done. cbn [fst snd].
    split; [done|]. intros k y Hk Hy.
    assert (i ≠ k) as Hik by (intros ->; congruence).
    by rewrite list_lookup_insert_ne.
Qed.

Lemma capture_first_occupant_witness :
  let mover := mkToken "red-0" RED 16 false false false in
  let record := mkMoveRecord RED "red-0" 16 18 0 (Some "green-0") in
  (¬ (18 ∈ SAFE_SQUARES) →
   ∀ j victim,
     tokens stackedDefenders !! j = Some victim → position victim = 18 →
     token_color victim ≠ token_color mover → onRing victim →
     (∀ j' y, (j' < j)%nat → tokens stackedDefenders !! j' = Some y →
        ¬ (position y = 18 ∧ token_color y ≠ token_color mover ∧ onRing y)) →
     tokens afterCapture !! j = Some (sentHome victim)
     ∧ atHome (sentHome victim)
     ∧ token_id (sentHome victim) = token_id victim
     ∧ capturedTokenId record = Some (token_id victim)
     ∧ ∀ k y, tokens stackedDefenders !! k = Some y → y ≠ mover → k ≠ j →
         tokens afterCapture !! k = Some y)
  ∧ (18 ∈ SAFE_SQUARES →
     capturedTokenId record = None
     ∧ ∀ k y, tokens stackedDefenders !! k = Some y → y ≠ mover →
         tokens afterCapture !! k = Some y).
Proof.
  apply (capture_first_occupant 0 stackedDefenders afterCapture
           (mkToken "red-0" RED 16 false false false) 2 18
           (mkMoveRecord RED "red-0" 16 18 0 (Some "green-0"))).
  - apply stackedDefenders_reachable.
  - reflexivity.
  - simpl. apply list_elem_of_here.
  - vm_compute. reflexivity.
  - vm_compute. reflexivity.
  - lia.
  - vm_compute. reflexivity.
Defined.

(** C5, as worded, fails where two tokens of one color share the cell:
    red lands on cell 18, which holds green-0 and green-1; green-0 goes
    Home and is recorded, green-1 stays on cell 18. *)
Lemma capture_of_occupant_fails : ¬ Stated.capture_of_occupant.
Proof.
  intros Hclaim.
  destruct (Hclaim 0 stackedDefenders afterCapture
              (mkToken "red-0" RED 16 false false false) 2 18
              (mkMoveRecord RED "red-0" 16 18 0 (Some "green-0"))
              (mkToken "green-1" GREEN 18 false false false)) as [Hcapture _].
  - apply stackedDefenders_reachable.
  - reflexivity.
  - simpl. apply list_elem_of_here.
  - vm_compute. reflexivity.
  - vm_compute. reflexivity.
  - lia.
  - vm_compute. reflexivity.
  - destruct Hcapture as [_ Hrecorded].
    + unfold SAFE_SQUARES. rewrite !elem_of_cons, elem_of_nil. lia.
    + simpl. do 5 apply list_elem_of_further. apply list_elem_of_here.
    + reflexivity.
    + discriminate.
    + unfold onRing. simpl. repeat split; lia.
    + discriminate Hrecorded.
Qed.

End CaptureClaims.

(* ===================================================================== *)
(** ** Turn continuation and winner (C6, C7)                              *)
(* ===================================================================== *)

Section TurnClaims.
Import LudoGameService Play Examples.

Lemma moveToken_mover (now : Z) (gs : GameState) (id : string) (gs' : GameState) :
  moveToken now gs id = Ok gs' → ∃ mover, mover ∈ tokens gs ∧ token_id mover = id.
Proof.
  intros (_ & i & token & _ & _ & Hfind & _)%moveToken_Ok.
  apply list_find_Some in Hfind as (Hi & Hid & _).
  exists token. split; [by eapply list_elem_of_lookup_2|done].
Qed.

(** With two players or more, passing the turn changes the index. *)
Lemma nextIndex_differs (gs : GameState) :
  GameInv gs → nextIndex gs ≠ currentTurnPlayerIndex gs.
Proof.
  intros Hinv. destruct (inv_order gs Hinv) as (order & i & Ho & Hlen & Hi & Hrange).
  destruct (nextIndex_inv gs order i) as [-> _]; [done|lia|done|done|].
  rewrite Hi. intros [= Heq].
  destruct (decide (i + 1 < Z.of_nat (length order))) as [Hlt|Hge].
  - rewrite Z.mod_small in Heq by lia. lia.
  - assert (i + 1 = Z.of_nat (length order)) as Hfull by lia.
    rewrite Hfull, Z.mod_same in Heq by lia. lia.
Qed.

(** The id recorded by the capture block is the id of a token. *)
Lemma captureAt_recorded (gs : GameState) (mover : Token) (dest : Z) (i : string) :
  GameInv gs → (captureAt mover dest (tokens gs)).2 = Some i → i ≠ EmptyString.
Proof.
  intros Hinv.
  destruct (captureAt_cases mover dest (tokens gs) (inv_ids gs Hinv))
    as [[-> _]|(j & v & _ & Hfind & ->)]; [done|].
  intros [= <-]. apply list_find_Some in Hfind as (Hj & _).
  pose proof (inv_ids_nonempty gs Hinv) as Hne. rewrite Forall_forall in Hne.
  apply Hne. by eapply list_elem_of_lookup_2.
Qed.

Lemma keepsTurn_true (dice : Z) (cap : option string) (w : option PlayerColor) (sixes : Z) :
  (∀ i, cap = Some i → i ≠ EmptyString) →
  keepsTurn dice cap w sixes = true ↔
  (dice = 6 ∨ is_Some cap) ∧ w = None ∧ ¬ (dice = 6 ∧ sixes + 1 >= 3).
Proof.
  intros Hcap. unfold keepsTurn.
  assert (truthy cap = true ↔ is_Some cap) as Htruthy.
  { destruct cap as [i|]; simpl.
    - rewrite negb_true_iff, bool_decide_eq_false. split; [by eauto|].
      intros _. by apply Hcap.
    - split; [done|]. by intros [? ?]. }
  rewrite !andb_true_iff, orb_true_iff, !negb_true_iff, !bool_decide_eq_false,
    bool_decide_eq_true, Htruthy.
  assert (¬ is_Some w ↔ w = None) as -> by (rewrite <- eq_None_not_Some; done).
  destruct (bool_decide (dice = 6)) eqn:Hsix;
    [apply bool_decide_eq_true in Hsix|apply bool_decide_eq_false in Hsix];
    intuition lia.
Qed.

(** How [moveToken] settles the turn, for a stored game. *)
Lemma moveToken_turn (now : Z) (gs : GameState) (id : string)
    (gs' : GameState) (dice : Z) (record : MoveRecord) :
  GameInv gs → diceValue gs = Some dice →
  moveToken now gs id = Ok gs' →
  last (moveHistory gs') = Some record →
  (currentTurnPlayerIndex gs' = currentTurnPlayerIndex gs
   ↔ (dice = 6 ∨ is_Some (capturedTokenId record))
     ∧ winner gs' = None
     ∧ ¬ (dice = 6 ∧ consecutiveSixes gs + 1 >= 3))
  ∧ diceValue gs' = None ∧ canRollDice gs' = true
  ∧ (currentTurnPlayerIndex gs' ≠ currentTurnPlayerIndex gs →
     consecutiveSixes gs' = 0).
Proof.
  intros Hinv Hdice Hmove Hlast.
  destruct (moveToken_mover now gs id gs' Hmove) as (mover & Hin & <-).
  apply moveToken_of in Hmove
    as (dice' & dest & i & Hd & _ & _ & _ & _ & _ & _ & Hrec & _ & Hnone & Hcan & Hturn);
    [|done..].
  assert (dice' = dice) as -> by congruence.
  rewrite Hlast in Hrec. injection Hrec as ->. cbn [capturedTokenId].
  pose proof (keepsTurn_true dice (captureAt mover dest (tokens gs)).2
                (winner gs') (consecutiveSixes gs)
                (λ i, captureAt_recorded gs mover dest i Hinv)) as Hkeep.
  pose proof (nextIndex_differs gs Hinv) as Hdiff.
  destruct (keepsTurn _ _ _ _).
  - split; [|done]. split; [intros _; by apply Hkeep|done].
  - destruct Hturn as [Hidx Hsix]. split; [|done].
    split; [intros Heq; congruence|].
    intros Hyes. apply Hkeep in Hyes. done.
Qed.

(** C6, as the engine has it.  After a successful move on a well-formed
    game state the mover keeps the turn exactly when the dice was a six
    or a capture occurred, the game has no winner after the move, and
    this is not the third consecutive six.  In every case the dice is
    cleared and rolling is enabled, and when the turn passes the six
    counter is reset to 0.  The well-formed states are those of
    [GameInv]: all the games reached by play, and also the games that
    hold a six with the counter at 2, on which the third six passes the
    turn. *)
Theorem turn_continuation_unless_won (now : Z) (gs : GameState) (id : string)
    (gs' : GameState) (dice : Z) (record : MoveRecord) :
  GameInv gs → diceValue gs = Some dice →
  moveToken now gs id = Ok gs' →
  last (moveHistory gs') = Some record →
  (currentTurnPlayerIndex gs' = currentTurnPlayerIndex gs
   ↔ (dice = 6 ∨ is_Some (capturedTokenId record))
     ∧ winner gs' = None
     ∧ ¬ (dice = 6 ∧ consecutiveSixes gs + 1 >= 3))
  ∧ diceValue gs' = None ∧ canRollDice gs' = true
  ∧ (currentTurnPlayerIndex gs' ≠ currentTurnPlayerIndex gs →
     consecutiveSixes gs' = 0).
Proof.
  intros Hinv Hdice Hmove Hlast.
  destruct (moveToken_turn now gs id gs' dice record Hinv Hdice Hmove Hlast)
    as (Hkeeps & Hcleared & Hcan & Hreset).
  by split_and!.
Qed.

(** The witness is the third six: red holds a six with the counter at
    2, leaves Home with it, and the turn passes to green. *)
Lemma turn_continuation_unless_won_witness :
  let record := mkMoveRecord RED "red-0" (-1) 0 0 None in
  (currentTurnPlayerIndex afterThirdSix = currentTurnPlayerIndex thirdSixHeld
   ↔ (6 = 6 ∨ is_Some (capturedTokenId record))
     ∧ winner afterThirdSix = None
     ∧ ¬ (6 = 6 ∧ consecutiveSixes thirdSixHeld + 1 >= 3))
  ∧ diceValue afterThirdSix = None ∧ canRollDice afterThirdSix = true
  ∧ (currentTurnPlayerIndex afterThirdSix ≠ currentTurnPlayerIndex thirdSixHeld →
     consecutiveSixes afterThirdSix = 0).
Proof.
  apply (turn_continuation_unless_won 0 thirdSixHeld "red-0" afterThirdSix 6
           (mkMoveRecord RED "red-0" (-1) 0 0 None)).
  - apply thirdSixHeld_inv.
  - reflexivity.
  - vm_compute. reflexivity.
  - vm_compute. reflexivity.
Defined.

(** On the third six the turn does pass, and after a win a six does not
    keep it. *)
Example third_six_passes_the_turn :
  currentTurnPlayerIndex thirdSixHeld = Num 0
  ∧ currentTurnPlayerIndex afterThirdSix = Num 1
  ∧ consecutiveSixes afterThirdSix = 0 ∧ winner afterThirdSix = None.
Proof. vm_compute. done. Qed.

(** C6, as worded, fails once a color has won: red has finished its four
    tokens, green rolls a first six and leaves Home with it, and the
    turn passes to red although the dice was a six. *)
Lemma turn_continuation_fails : ¬ Stated.turn_continuation.
Proof.
  intros Hclaim.
  destruct (Hclaim 0 afterRedWon "green-0" afterGreenSix 6
              (mkMoveRecord GREEN "green-0" (-1) 13 0 None)) as [Hkeeps _].
  - apply afterRedWon_reachable.
  - reflexivity.
  - vm_compute. reflexivity.
  - vm_compute. reflexivity.
  - assert (currentTurnPlayerIndex afterGreenSix = currentTurnPlayerIndex afterRedWon)
      as Hsame.
    { apply Hkeeps. split; [by left|]. simpl. lia. }
    discriminate Hsame.
Qed.

(** A move changes neither the color nor the finished flag of any token
    but the mover. *)
Lemma moveToken_other_tokens (now : Z) (gs : GameState) (mover : Token) (gs' : GameState) :
  GameInv gs → mover ∈ tokens gs → moveToken now gs (token_id mover) = Ok gs' →
  ∃ i dest,
    tokens gs !! i = Some mover
    ∧ tokens gs' !! i = Some (movedToken mover dest)
    ∧ ∀ k, k ≠ i →
        (token_color <$> tokens gs') !! k = (token_color <$> tokens gs) !! k
        ∧ (isFinished <$> tokens gs') !! k = (isFinished <$> tokens gs) !! k.
Proof.
  intros Hinv Hin Hmove.
  apply moveToken_of in Hmove
    as (dice & dest & i & _ & _ & _ & _ & Hi & _ & Htokens & _); [|done..].
  destruct (captureAt_keeps mover dest (tokens gs) (inv_ids gs Hinv))
    as (Hids & Hcolors & Hfins & _).
  exists i, dest. split; [done|]. split.
  - rewrite Htokens. apply list_lookup_insert_eq.
    apply (f_equal length) in Hids. rewrite !length_fmap in Hids. rewrite Hids.
    by eapply lookup_lt_Some.
  - intros k Hk. rewrite Htokens, !list_fmap_insert.
    rewrite !list_lookup_insert_ne by done. by rewrite Hcolors, Hfins.
Qed.

Lemma complete_before (now : Z) (gs : GameState) (mover : Token) (gs' : GameState)
    (c : PlayerColor) :
  GameInv gs → mover ∈ tokens gs → moveToken now gs (token_id mover) = Ok gs' →
  c ≠ token_color mover → complete (tokens gs') c → complete (tokens gs) c.
Proof.
  intros Hinv Hin Hmove Hc [(t' & Ht' & Hct') Hall].
  destruct (moveToken_other_tokens now gs mover gs' Hinv Hin Hmove)
    as (i & dest & Hi & Hi' & Hother).
  split.
  - apply list_elem_of_lookup in Ht' as [k Hk].
    assert (k ≠ i) as Hki.
    { intros ->. rewrite Hi' in Hk. injection Hk as <-. by apply Hc. }
    destruct (Hother k Hki) as [Hcol _].
    rewrite !list_lookup_fmap, Hk in Hcol. simpl in Hcol.
    destruct (tokens gs !! k) as [t|] eqn:Ht; [|done].
    exists t. split; [by eapply list_elem_of_lookup_2|].
    simpl in Hcol. congruence.
  - intros t [k Hk]%list_elem_of_lookup Hct.
    assert (k ≠ i) as Hki by (intros ->; congruence).
    destruct (Hother k Hki) as [Hcol Hfin].
    rewrite !list_lookup_fmap in Hcol. rewrite !list_lookup_fmap in Hfin.
    rewrite Hk in Hcol. rewrite Hk in Hfin.
    destruct (tokens gs' !! k) as [t1|] eqn:Hk'; [|done].
    simpl in Hcol, Hfin. injection Hcol as Hcol. injection Hfin as Hfin.
    rewrite <- Hfin. apply Hall; [by eapply list_elem_of_lookup_2|congruence].
Qed.

(** The move that produces the first winner of a game finishes a token:
    it is made with a face below six and captures nothing. *)
Lemma first_win_is_plain (now : Z) (gs : GameState) (mover : Token) (gs' : GameState)
    (dice dest : Z) :
  GameInv gs → winner gs = None → mover ∈ tokens gs →
  diceValue gs = Some dice → calculateNewPosition mover dice = Some dest →
  moveToken now gs (token_id mover) = Ok gs' →
  is_Some (winner gs') →
  dice ≠ 6 ∧ (captureAt mover dest (tokens gs)).2 = None.
Proof.
  intros Hinv Hnone Hin Hdice Hpos Hmove [c Hc].
  assert (∀ c, ¬ complete (tokens gs) c) as Hopen.
  { apply checkWinner_None. by rewrite <- (inv_winner gs Hinv). }
  pose proof (moveToken_of now gs mover gs' Hinv Hin Hmove)
    as (dice' & dest' & i & Hd & Hp & Hface & _ & Hi & _ & Htokens & _ & Hwinner & _).
  assert (dice' = dice) as -> by congruence.
  assert (dest' = dest) as -> by congruence.
  rewrite Hwinner in Hc. apply checkWinner_Some in Hc.
  destruct (decide (c = token_color mover)) as [->|Hne].
  - destruct (moveToken_other_tokens now gs mover gs' Hinv Hin Hmove)
      as (i' & dest' & _ & Hi' & _).
    destruct Hc as [_ Hall].
    assert (isFinished (movedToken mover dest') = true) as Hfin
      by (apply Hall; [by eapply list_elem_of_lookup_2|done]).
    assert (tokens gs' !! i = Some (movedToken mover dest)) as Hmoved.
    { rewrite Htokens. apply list_lookup_insert_eq.
      destruct (captureAt_keeps mover dest (tokens gs) (inv_ids gs Hinv)) as (Hids & _).
      apply (f_equal length) in Hids. rewrite !length_fmap in Hids. rewrite Hids.
      by eapply lookup_lt_Some. }
    assert (isFinished (movedToken mover dest) = true) as Hfin'
      by (apply Hall; [by eapply list_elem_of_lookup_2|done]).
    cbn in Hfin'. apply bool_decide_eq_true in Hfin'. subst dest.
    assert (tokenOk mover) as Hok.
    { pose proof (inv_tokens gs Hinv) as Htok. rewrite Forall_forall in Htok.
      by apply Htok. }
    destruct (calculateNewPosition_57 mover dice Hok Hface Hpos) as [_ Hle].
    split; [lia|]. unfold captureAt. rewrite decide_False; [done|]. lia.
  - destruct (Hopen c). by eapply complete_before.
Qed.

(** In a game that has no winner yet the [!winner] guard is idle, and
    C6 holds as it is worded. *)
Lemma turn_continuation_before_win (now : Z) (gs : GameState) (id : string)
    (gs' : GameState) (dice : Z) (record : MoveRecord) :
  reachableGame gs → winner gs = None → diceValue gs = Some dice →
  moveToken now gs id = Ok gs' →
  last (moveHistory gs') = Some record →
  (currentTurnPlayerIndex gs' = currentTurnPlayerIndex gs
   ↔ (dice = 6 ∨ is_Some (capturedTokenId record))
     ∧ ¬ (dice = 6 ∧ consecutiveSixes gs + 1 >= 3))
  ∧ diceValue gs' = None ∧ canRollDice gs' = true
  ∧ (currentTurnPlayerIndex gs' ≠ currentTurnPlayerIndex gs →
     consecutiveSixes gs' = 0).
Proof.
  intros Hreach Hnone Hdice Hmove Hlast.
  pose proof (reachableGame_inv gs Hreach) as Hinv.
  destruct (moveToken_turn now gs id gs' dice record Hinv Hdice Hmove Hlast)
    as (Hiff & Hrest).
  split; [|done]. rewrite Hiff. split; [tauto|].
  intros [Hcause Hthird]. split; [done|]. split; [|done].
  destruct (winner gs') as [c|] eqn:Hw; [|done]. exfalso.
  destruct (moveToken_mover now gs id gs' Hmove) as (mover & Hin & <-).
  pose proof (moveToken_of now gs mover gs' Hinv Hin Hmove)
    as (dice' & dest & i & Hd & Hp & _ & _ & _ & _ & _ & Hrec & _).
  assert (dice' = dice) as -> by congruence.
  destruct (first_win_is_plain now gs mover gs' dice dest Hinv Hnone Hin Hdice Hp Hmove)
    as [Hsix Hcap]; [by rewrite Hw|].
  rewrite Hlast in Hrec. injection Hrec as ->. cbn in Hcause.
  rewrite Hcap in Hcause. destruct Hcause as [?|[? ?]]; done.
Qed.

(** C7, as the engine has it.  In a game that has no winner yet: a move
    that leaves every token of the mover's color Finished sets the
    winner to that color; the winner after a move is never another
    color; and there is no winner while every color still has an
    unfinished token. *)
Theorem winner_of_move_before_win (now : Z) (gs gs' : GameState) (mover : Token) :
  reachableGame gs → winner gs = None → mover ∈ tokens gs →
  moveToken now gs (token_id mover) = Ok gs' →
  (complete (tokens gs') (token_color mover) →
   winner gs' = Some (token_color mover))
  ∧ (∀ c, winner gs' = Some c → c = token_color mover)
  ∧ ((∀ c, ¬ complete (tokens gs') c) → winner gs' = None).
Proof.
  intros Hreach Hnone Hin Hmove.
  pose proof (reachableGame_inv gs Hreach) as Hinv.
  assert (∀ c, ¬ complete (tokens gs) c) as Hopen.
  { apply checkWinner_None. by rewrite <- (inv_winner gs Hinv). }
  assert (∀ c, complete (tokens gs') c → c = token_color mover) as Honly.
  { intros c Hc. destruct (decide (c = token_color mover)) as [|Hne]; [done|].
    destruct (Hopen c). by eapply complete_before. }
  pose proof (moveToken_of now gs mover gs' Hinv Hin Hmove)
    as (dice & dest & i & _ & _ & _ & _ & _ & _ & _ & _ & Hwinner & _).
  rewrite Hwinner. split; [|split].
  - intros Hdone. by apply checkWinner_unique.
  - intros c Hc. by apply Honly, checkWinner_Some.
  - intros Hnobody. destruct (checkWinner (tokens gs')) as [c|] eqn:Hw; [|done].
    by destruct (Hnobody c); apply checkWinner_Some.
Qed.

Lemma winner_of_move_before_win_witness :
  let mover := mkToken "red-0" RED 16 false false false in
  (complete (tokens afterCapture) (token_color mover) →
   winner afterCapture = Some (token_color mover))
  ∧ (∀ c, winner afterCapture = Some c → c = token_color mover)
  ∧ ((∀ c, ¬ complete (tokens afterCapture) c) → winner afterCapture = None).
Proof.
  apply (winner_of_move_before_win 0 stackedDefenders afterCapture
           (mkToken "red-0" RED 16 false false false)).
  - apply stackedDefenders_reachable.
  - reflexivity.
  - simpl. apply list_elem_of_here.
  - vm_compute. reflexivity.
Defined.

(** C7, as worded, fails once a color has won: red has finished its four
    tokens and green, playing on, finishes its fourth; every green token
    is Finished, yet the winner is still red. *)
Lemma winner_of_move_fails : ¬ Stated.winner_of_move.
Proof.
  intros Hclaim.
  destruct (Hclaim 0 greenAboutToFinish afterGreenFinished
              (mkToken "green-3" GREEN 54 false true false)) as [Hwins _].
  - apply greenAboutToFinish_reachable.
  - simpl. do 7 apply list_elem_of_further. apply list_elem_of_here.
  - vm_compute. reflexivity.
  - assert (winner afterGreenFinished = Some GREEN) as Hgreen; [|discriminate Hgreen].
    apply Hwins. split.
    + exists (mkToken "green-3" GREEN 57 false false true). split; [|done].
      simpl. do 7 apply list_elem_of_further. apply list_elem_of_here.
    + intros t Ht. simpl in Ht.
      repeat (apply elem_of_cons in Ht as [->|Ht]; [simpl; intros; done|]).
      by apply elem_of_nil in Ht.
Qed.

End TurnClaims.

(* ===================================================================== *)
(** ** Rejected moves (C8)                                                *)
(* ===================================================================== *)

Section ErrorClaims.
Import LudoGameService Play Examples.

(** The directory stores nothing when its [moveToken] throws. *)
Lemma service_moveToken_throw (now : Z) (sid id : string)
    (s s' : RoomsService.ServiceState) (e : Exception) :
  RoomsService.moveToken now sid id s = (Throw e, s') → s' = s.
Proof.
  unfold RoomsService.moveToken. method_cases; congruence.
Qed.

(** C8. In a stored game, [moveToken] fails exactly when the dice is
    null, or no token has the given id, or the token with that id is not
    of the active player's color, or the id is not in [validMoves]; in
    every other case it succeeds.  Each failure is a BadRequest
    (IllegalAction) exception, and the directory leaves its state as it
    was when the engine throws. *)
Theorem moveToken_fails_exactly (now : Z) (gs : GameState) (id : string) :
  reachableGame gs →
  ((∃ e, moveToken now gs id = Throw e) ↔
     diceValue gs = None
     ∨ (∀ t, t ∈ tokens gs → token_id t ≠ id)
     ∨ (∃ t, t ∈ tokens gs ∧ token_id t = id
             ∧ Some (token_color t) ≠ getCurrentPlayerColor gs)
     ∨ ¬ (id ∈ validMoves gs))
  ∧ (∀ e, moveToken now gs id = Throw e → isIllegalAction e)
  ∧ ((¬ ∃ e, moveToken now gs id = Throw e) → isOk (moveToken now gs id))
  ∧ (∀ sid s s' e,
       RoomsService.moveToken now sid id s = (Throw e, s') → s' = s).
Proof.
  intros Hreach. pose proof (reachableGame_inv gs Hreach) as Hinv.
  split; [|split; [|split]].
  - unfold moveToken, find, findIndex.
    destruct (diceValue gs) as [dice|] eqn:Hdice; [|split; [by left|eauto]].
    destruct (list_find _ (tokens gs)) as [[i token]|] eqn:Hfind; cbn.
    2:{ split; [|eauto]. intros _. right. left.
        apply list_find_None in Hfind. rewrite Forall_forall in Hfind. done. }
    pose proof Hfind as (Hi & Hid & _)%list_find_Some.
    assert (token ∈ tokens gs) as Hin by (by eapply list_elem_of_lookup_2).
    destruct (decide (Some (token_color token) ≠ getCurrentPlayerColor gs))
      as [Hcol|Hcol%dec_stable].
    { split; [|eauto]. intros _. right. right. left. by exists token. }
    destruct (decide (id ∉ validMoves gs)) as [Hvalid|Hvalid%dec_stable].
    { split; [|eauto]. intros _. by do 3 right. }
    destruct (inv_dice gs Hinv dice Hdice) as [_ Hvm].
    pose proof Hvalid as Hlegal. rewrite Hvm in Hlegal.
    apply computeValidMoves_spec in Hlegal as (t & Ht & Htid & _ & _ & Hpos).
    assert (t = token) as -> by (eapply token_by_id; eauto; congruence).
    destruct (calculateNewPosition token dice) as [p|]; [|done].
    rewrite Hi. destruct (captureAt token p (tokens gs)) as [ts1 cap].
    split.
    + intros [e He]. exfalso.
      repeat (match type of He with
              | context [if ?b then _ else _] => destruct b
              end; try discriminate He).
    + intros [?|[Hno|[(t & Ht' & Htid' & Hbad)|Hbad]]]; [done| | |done].
      * by destruct (Hno token Hin).
      * assert (t = token) as -> by (eapply token_by_id; eauto; congruence). done.
  - intros e. unfold moveToken, find, findIndex.
    destruct (diceValue gs) as [dice|]; [|by intros [= <-]].
    destruct (list_find _ (tokens gs)) as [[i token]|] eqn:Hfind; cbn;
      [|by intros [= <-]].
    apply list_find_Some in Hfind as (Hi & _).
    destruct (decide (Some (token_color token) ≠ getCurrentPlayerColor gs));
      [by intros [= <-]|].
    destruct (decide (id ∉ validMoves gs)); [by intros [= <-]|].
    destruct (calculateNewPosition token dice) as [p|]; [|by intros [= <-]].
    rewrite Hi. destruct (captureAt token p (tokens gs)) as [ts1 cap].
    intros He. exfalso.
    repeat (match type of He with
            | context [if ?b then _ else _] => destruct b
            end; try discriminate He).
  - intros Hno. destruct (moveToken now gs id) as [gs'|e]; [done|].
    destruct Hno. by exists e.
  - intros sid s s' e. apply service_moveToken_throw.
Qed.

Lemma moveToken_fails_exactly_witness :
  ((∃ e, moveToken 0 newGame "red-0" = Throw e) ↔
     diceValue newGame = None
     ∨ (∀ t, t ∈ tokens newGame → token_id t ≠ "red-0")
     ∨ (∃ t, t ∈ tokens newGame ∧ token_id t = "red-0"
             ∧ Some (token_color t) ≠ getCurrentPlayerColor newGame)
     ∨ ¬ ("red-0" ∈ validMoves newGame))
  ∧ (∀ e, moveToken 0 newGame "red-0" = Throw e → isIllegalAction e)
  ∧ ((¬ ∃ e, moveToken 0 newGame "red-0" = Throw e) →
     isOk (moveToken 0 newGame "red-0"))
  ∧ (∀ sid s s' e,
       RoomsService.moveToken 0 sid "red-0" s = (Throw e, s') → s' = s).
Proof.
  apply (moveToken_fails_exactly 0 newGame "red-0").
  apply newGame_reachable.
Defined.

End ErrorClaims.

(* ===================================================================== *)
(** ** The earlier engine variant, for comparison                         *)
(* ===================================================================== *)

Section Legacy.
Import Play Examples.

(** The earlier [rollDice] draws from six faces whatever the six
    counter, so it can show a third six in a row ... *)
Lemma legacy_rollDice_six_faces (r : Q) (gs : GameState) :
  canRollDice gs = true →
  ∃ gs', LegacyEngine.rollDice r gs = Ok (LudoGameService.randomFace r 6, gs').
Proof.
  intros Hcan. unfold LegacyEngine.rollDice. rewrite Hcan. cbn [negb].
  destruct (negb _); eauto.
Qed.

Example legacy_rollDice_third_six :
  ∃ gs', LegacyEngine.rollDice (7 # 8) (set_consecutiveSixes 2 newGame) = Ok (6, gs').
Proof. vm_compute. eauto. Qed.

(** ... and the earlier [moveToken] does not consult [validMoves]: right
    after red's first six, with [validMoves] emptied, it still moves the
    token, where the present engine refuses. *)
Example legacy_moveToken_without_validMoves :
  let gs := set_validMoves [] (set_canRollDice false (set_diceValue (Some 6) newGame)) in
  isOk (LegacyEngine.moveToken 0 gs "red-0" (Num 0))
  ∧ ¬ isOk (LudoGameService.moveToken 0 gs "red-0").
Proof. vm_compute. split; [exact I|intros []]. Qed.

End Legacy.

(* ===================================================================== *)
(** ** Starting a game (C9)                                               *)
(* ===================================================================== *)

Section StartClaims.
Import LudoGameService Play Examples.
Import RoomsService.





(** Alice, the admin of the lobby, starts the game once Bob is ready. *)
Example alice_starts_the_game :
  isOk (startGame 3 "s-1" lobby).1
  ∧ (status <$> rooms (startGame 3 "s-1" lobby).2 !! "ABCD-1234") = Some PLAYING.
Proof. vm_compute. done. Qed.

End StartClaims.

(* ===================================================================== *)
(** ** Rooms and sessions (C10)                                           *)
(* ===================================================================== *)

Section DirectoryClaims.
Import Examples.
Import RoomsService.

Lemma generateRoomCode_fresh (draws : list string) (rs : gmap string Room) (c : string) :
  generateRoomCode draws rs = Some c → rs !! c = None.
Proof.
  induction draws as [|d draws IH]; simpl; [done|].
  case_decide as Hd; [done|]. intros [= <-].
  by apply eq_None_not_Some.
Qed.

Lemma NoDup_insert_fresh {A} (l : list A) (i : nat) (x : A) :
  NoDup l → (∀ j y, j ≠ i → l !! j = Some y → y ≠ x) → NoDup (<[i := x]> l).
Proof.
  intros Hnd Hfresh. apply NoDup_alt. intros j k y Hj Hk.
  destruct (decide (j = i)) as [->|Hji], (decide (k = i)) as [->|Hki]; [done|..].
  - apply list_lookup_insert_Some in Hj as [(_ & <- & _)|[? _]]; [|done].
    rewrite list_lookup_insert_ne in Hk by done. by destruct (Hfresh k x).
  - apply list_lookup_insert_Some in Hk as [(_ & <- & _)|[? _]]; [|done].
    rewrite list_lookup_insert_ne in Hj by done. by destruct (Hfresh j x).
  - rewrite list_lookup_insert_ne in Hj, Hk by done.
    by eapply NoDup_lookup.
Qed.

Lemma NoDup_delete {A} (l : list A) (i : nat) : NoDup l → NoDup (delete i l).
Proof.
  intros Hnd. eapply sublist_NoDup; [done|apply sublist_delete].
Qed.

(** The first color that [joinRoom] finds free is held by no player. *)
Lemma available_color_free (taken : list PlayerColor) (c : PlayerColor) (rest : list PlayerColor) :
  filter (λ color, color ∉ taken) PlayerColor_values = c :: rest → c ∉ taken.
Proof.
  intros Hf. assert (c ∈ filter (λ color, color ∉ taken) PlayerColor_values) as Hc
    by (rewrite Hf; by left).
  by apply list_elem_of_filter in Hc as [? _].
Qed.

(** A room that was not touched stays well-formed when the index
    changes only at sessions that the room does not list. *)
Lemma roomOk_untouched (s s' : ServiceState) (roomCode : string) (room : Room) :
  roomOk s roomCode room →
  (∀ sid, playerToRoom s !! sid = Some roomCode →
          playerToRoom s' !! sid = Some roomCode) →
  roomOk s' roomCode room.
Proof.
  intros (Hc & Hi & Hs & Hidx & Hgame) Hsame. split_and!; try done.
  intros sid Hsid. by apply Hsame, Hidx.
Qed.

Lemma createRoom_inv draws playerId roomId now playerName playerColor maxPlayers sid
    (s : ServiceState) (r : Result Room) (s' : ServiceState) :
  DirectoryInv s →
  createRoom draws playerId roomId now playerName playerColor maxPlayers sid s
    = Some (r, s') →
  DirectoryInv s'.
Proof.
  intros Hinv. unfold createRoom.
  destruct (decide (is_Some (playerToRoom s !! sid))) as [|Hfree]; [by intros [= _ <-]|].
  apply eq_None_not_Some in Hfree.
  destruct (generateRoomCode draws (rooms s)) as [roomCode|] eqn:Hcode; [|done].
  apply generateRoomCode_fresh in Hcode.
  unfold_method. cbn. intros [= _ <-].
  intros code0 room0 Hlook. cbn [rooms] in Hlook.
  apply lookup_insert_Some in Hlook as [[<- <-]|[Hne Hold]].
  - split_and!; cbn; try apply NoDup_singleton; [|done].
    intros sid' ->%list_elem_of_singleton. apply lookup_insert_eq.
  - eapply roomOk_untouched; [by apply Hinv|]. cbn. intros sid' Hsid'.
    rewrite lookup_insert_ne; [done|]. congruence.
Qed.

Lemma joinRoom_inv playerId now roomCode playerName sid (s : ServiceState) :
  DirectoryInv s →
  drawsOk (JoinRoom playerId now roomCode playerName sid) s →
  DirectoryInv (joinRoom playerId now roomCode playerName sid s).2.
Proof.
  intros Hinv Hfresh. simpl in Hfresh. unfold joinRoom. unfold_method. cbn -[filter].
  destruct (decide (is_Some (playerToRoom s !! sid))) as [|Hfree]; [done|].
  apply eq_None_not_Some in Hfree.
  destruct (rooms s !! roomCode) as [room|] eqn:Hroom; cbn -[filter]; [|done].
  destruct (decide (status room ≠ WAITING)); [done|].
  destruct (decide (Z.of_nat (length (players room)) >= maxPlayers room)); [done|].
  destruct (filter (λ color, color ∉ player_color <$> players room) PlayerColor_values)
    as [|c rest] eqn:Havail; cbn; [done|].
  apply available_color_free in Havail.
  destruct (Hinv roomCode room Hroom) as (Hc & Hi & Hs & Hidx & Hgame).
  intros code0 room0 Hlook. cbn [rooms] in Hlook.
  apply lookup_insert_Some in Hlook as [[<- <-]|[Hne Hold]].
  - unfold roomOk. cbn. rewrite !fmap_app. cbn.
    split_and!; [| | | |done].
    + apply NoDup_app. split_and!; [done| |apply NoDup_singleton].
      intros c' Hc' ->%list_elem_of_singleton. done.
    + apply NoDup_app. split_and!; [done| |apply NoDup_singleton].
      intros i' Hi' ->%list_elem_of_singleton. done.
    + apply NoDup_app. split_and!; [done| |apply NoDup_singleton].
      intros s0 Hs0 ->%list_elem_of_singleton. apply Hidx in Hs0. congruence.
    + intros sid' [Hin| ->%list_elem_of_singleton]%elem_of_app.
      * rewrite lookup_insert_ne; [by apply Hidx|].
        intros <-. apply Hidx in Hin. congruence.
      * apply lookup_insert_eq.
  - eapply roomOk_untouched; [by apply Hinv|]. cbn. intros sid' Hsid'.
    rewrite lookup_insert_ne; [done|]. congruence.
Qed.

Lemma deleted_not_elem {A} (l : list A) (i : nat) (x : A) :
  NoDup l → l !! i = Some x → x ∉ delete i l.
Proof.
  intros Hnd Hi [j Hj]%list_elem_of_lookup.
  destruct (decide (j < i)%nat).
  - rewrite list_lookup_delete_lt in Hj by done.
    assert (j = i) by (by eapply NoDup_lookup). lia.
  - rewrite list_lookup_delete_ge in Hj by lia.
    assert (S j = i) by (by eapply NoDup_lookup). lia.
Qed.

Lemma delete_elem {A} (l : list A) (i : nat) (x : A) : x ∈ delete i l → x ∈ l.
Proof. intros Hx. eapply elem_of_sublist; [done|apply sublist_delete]. Qed.

Lemma leaveRoom_inv now sid (s : ServiceState) :
  DirectoryInv s → DirectoryInv (leaveRoom now sid s).2.
Proof.
  intros Hinv. unfold leaveRoom, findIndex. unfold_method. cbn.
  destruct (playerToRoom s !! sid) as [roomCode|] eqn:Hsid; cbn; [|done].
  destruct (rooms s !! roomCode) as [room|] eqn:Hroom; cbn; [|done].
  destruct (list_find _ (players room)) as [[i leaver]|] eqn:Hfind; cbn; [|done].
  apply list_find_Some in Hfind as (Hi & Hses & _). rewrite Hi. cbn.
  destruct (Hinv roomCode room Hroom) as (Hc & Hids & Hs & Hidx & Hgame).
  assert (∀ code0 room0, code0 ≠ roomCode → rooms s !! code0 = Some room0 →
          roomOk (mkService (rooms s) (delete sid (playerToRoom s))) code0 room0)
    as Hothers.
  { intros code0 room0 Hne Hold.
    eapply roomOk_untouched; [by apply Hinv|]. cbn. intros sid' Hsid'.
    rewrite lookup_delete_ne; [done|]. congruence. }
  assert (∀ sid', sid' ∈ (sessionId <$> delete i (players room)) →
          delete sid (playerToRoom s) !! sid' = Some roomCode) as Hrest.
  { intros sid' Hin. rewrite list_fmap_delete in Hin.
    rewrite lookup_delete_ne.
    - by apply Hidx, (delete_elem _ i).
    - intros <-. revert Hin. apply deleted_not_elem; [done|].
      by rewrite list_lookup_fmap, Hi, <- Hses. }
  destruct (delete i (players room)) as [|first others] eqn:Hdel; cbn.
  - intros code0 room0 Hlook. cbn [rooms] in Hlook.
    apply lookup_delete_Some in Hlook as [Hne Hlook].
    rewrite lookup_insert_ne in Hlook by done.
    by apply Hothers.
  - intros code0 room0 Hlook. cbn [rooms] in Hlook.
    apply lookup_insert_Some in Hlook as [[<- <-]|[Hne Hlook]].
    + assert (NoDup (player_color <$> first :: others)
              ∧ NoDup (player_id <$> first :: others)
              ∧ NoDup (sessionId <$> first :: others)) as (Hc' & Hi' & Hs').
      { rewrite <- Hdel, !list_fmap_delete. split_and!; by apply NoDup_delete. }
      destruct (isAdmin leaver); split_and!; cbn; try done.
    + rewrite lookup_insert_ne in Hlook by done.
      by apply Hothers.
Qed.

Lemma updatePlayerColor_inv now sid newColor (s : ServiceState) :
  DirectoryInv s → DirectoryInv (updatePlayerColor now sid newColor s).2.
Proof.
  intros Hinv. unfold updatePlayerColor. unfold_method. cbn.
  destruct (playerToRoom s !! sid) as [roomCode|] eqn:Hsid; cbn; [|done].
  destruct (rooms s !! roomCode) as [room|] eqn:Hroom; cbn; [|done].
  destruct (list_find _ (players room)) as [[i player]|] eqn:Hfind; cbn; [|done].
  apply list_find_Some in Hfind as (Hi & Hses & _).
  destruct (decide (newColor ∈ _)) as [|Hfree]; cbn; [done|].
  destruct (Hinv roomCode room Hroom) as (Hc & Hids & Hs & Hidx & Hgame).
  intros code0 room0 Hlook. cbn [rooms] in Hlook.
  apply lookup_insert_Some in Hlook as [[<- <-]|[Hne Hold]].
  - unfold roomOk. cbn. rewrite !list_fmap_insert. cbn.
    rewrite (list_insert_id (player_id <$> players room))
      by (by rewrite list_lookup_fmap, Hi).
    rewrite (list_insert_id (sessionId <$> players room))
      by (by rewrite list_lookup_fmap, Hi).
    split_and!; try done.
    apply NoDup_insert_fresh; [done|].
    intros j c Hj Hcj ->. apply Hfree.
    rewrite list_lookup_fmap in Hcj.
    destruct (players room !! j) as [q|] eqn:Hq; [|done]. injection Hcj as <-.
    apply list_elem_of_fmap. exists q. split; [done|].
    apply list_elem_of_filter. split; [|by eapply list_elem_of_lookup_2].
    intros Heq. apply Hj. eapply NoDup_lookup; [exact Hids| |].
    + by rewrite list_lookup_fmap, Hq.
    + rewrite list_lookup_fmap, Hi. simpl. by rewrite Heq.
  - eapply roomOk_untouched; [by apply Hinv|]. done.
Qed.

Lemma togglePlayerReady_inv now sid (s : ServiceState) :
  DirectoryInv s → DirectoryInv (togglePlayerReady now sid s).2.
Proof.
  intros Hinv. unfold togglePlayerReady. unfold_method. cbn.
  destruct (playerToRoom s !! sid) as [roomCode|] eqn:Hsid; cbn; [|done].
  destruct (rooms s !! roomCode) as [room|] eqn:Hroom; cbn; [|done].
  destruct (list_find _ (players room)) as [[i player]|] eqn:Hfind; cbn; [|done].
  apply list_find_Some in Hfind as (Hi & Hses & _).
  destruct (Hinv roomCode room Hroom) as (Hc & Hids & Hs & Hidx & Hgame).
  intros code0 room0 Hlook. cbn [rooms] in Hlook.
  apply lookup_insert_Some in Hlook as [[<- <-]|[Hne Hold]].
  - unfold roomOk. cbn. rewrite !list_fmap_insert. cbn.
    rewrite (list_insert_id (player_color <$> players room))
      by (by rewrite list_lookup_fmap, Hi).
    rewrite (list_insert_id (player_id <$> players room))
      by (by rewrite list_lookup_fmap, Hi).
    rewrite (list_insert_id (sessionId <$> players room))
      by (by rewrite list_lookup_fmap, Hi).
    done.
  - eapply roomOk_untouched; [by apply Hinv|]. done.
Qed.

Lemma startGame_inv now sid (s : ServiceState) :
  DirectoryInv s → DirectoryInv (startGame now sid s).2.
Proof.
  intros Hinv. unfold startGame, find. unfold_method. cbn.
  destruct (playerToRoom s !! sid) as [roomCode|] eqn:Hsid; cbn; [|done].
  destruct (rooms s !! roomCode) as [room|] eqn:Hroom; cbn; [|done].
  destruct (list_find _ (players room)) as [[i player]|] eqn:Hfind; cbn; [|done].
  destruct (isAdmin player); cbn; [|done].
  destruct (decide (Z.of_nat (length (players room)) < 2)); cbn; [done|].
  destruct (forallb _ (players room)); cbn; [|done].
  intros code0 room0 Hlook. cbn [rooms] in Hlook.
  apply lookup_insert_Some in Hlook as [[<- <-]|[Hne Hold]].
  - destruct (Hinv roomCode room Hroom) as (? & ? & ? & ? & ?).
    split_and!; try done. cbn. intros g [= <-].
    apply Play.reachable_start; [lia|done].
  - eapply roomOk_untouched; [by apply Hinv|]. done.
Qed.

(** The two game requests store a game reached by one more action. *)
Lemma rollDice_inv_service r now sid (s : ServiceState) :
  DirectoryInv s → Play.unitInterval r = true →
  DirectoryInv (rollDice r now sid s).2.
Proof.
  intros Hinv Hr. unfold rollDice, find. unfold_method. cbn.
  destruct (playerToRoom s !! sid) as [roomCode|] eqn:Hsid; cbn; [|done].
  destruct (rooms s !! roomCode) as [room|] eqn:Hroom; cbn; [|done].
  destruct (gameState room) as [game|] eqn:Hgame; cbn; [|done].
  destruct (list_find _ (players room)) as [[i player]|] eqn:Hfind; cbn; [|done].
  destruct (js_index (players room) (currentTurnPlayerIndex game)) as [current|];
    cbn; [|done].
  destruct (decide (player_id current ≠ player_id player)); cbn; [done|].
  destruct (LudoGameService.rollDice r game) as [[d game']|e] eqn:Hroll; cbn; [|done].
  intros code0 room0 Hlook. cbn [rooms] in Hlook.
  apply lookup_insert_Some in Hlook as [[<- <-]|[Hne Hold]].
  - destruct (Hinv roomCode room Hroom) as (? & ? & ? & ? & Hreach).
    split_and!; try done. cbn. intros g [= <-].
    apply (Play.reachable_action game (Play.Roll r)); [by apply Hreach|].
    simpl. by rewrite Hr, Hroll.
  - eapply roomOk_untouched; [by apply Hinv|]. done.
Qed.

Lemma moveToken_inv_service now sid tokenId (s : ServiceState) :
  DirectoryInv s → DirectoryInv (moveToken now sid tokenId s).2.
Proof.
  intros Hinv. unfold moveToken, find. unfold_method. cbn.
  destruct (playerToRoom s !! sid) as [roomCode|] eqn:Hsid; cbn; [|done].
  destruct (rooms s !! roomCode) as [room|] eqn:Hroom; cbn; [|done].
  destruct (gameState room) as [game|] eqn:Hgame; cbn; [|done].
  destruct (list_find _ (players room)) as [[i player]|] eqn:Hfind; cbn; [|done].
  destruct (js_index (players room) (currentTurnPlayerIndex game)) as [current|];
    cbn; [|done].
  destruct (decide (player_id current ≠ player_id player)); cbn; [done|].
  destruct (LudoGameService.moveToken now game tokenId) as [game'|e] eqn:Hmove;
    cbn; [|done].
  intros code0 room0 Hlook. cbn [rooms] in Hlook.
  apply lookup_insert_Some in Hlook as [[<- <-]|[Hne Hold]].
  - destruct (Hinv roomCode room Hroom) as (? & ? & ? & ? & Hreach).
    split_and!; try done. cbn. intros g [= <-].
    apply (Play.reachable_action game (Play.Move now tokenId)); [by apply Hreach|].
    simpl. by rewrite Hmove.
  - eapply roomOk_untouched; [by apply Hinv|]. done.
Qed.

Lemma exec_inv (c : Command) (s s' : ServiceState) :
  DirectoryInv s → drawsOk c s → exec c s = Some s' → DirectoryInv s'.
Proof.
  intros Hinv Hfresh. destruct c; simpl.
  - destruct (createRoom _ _ _ _ _ _ _ _ s) as [[r s1]|] eqn:Hcreate; [|done].
    intros [= <-]. by eapply createRoom_inv.
  - intros [= <-]. by apply joinRoom_inv.
  - intros [= <-]. by apply leaveRoom_inv.
  - intros [= <-]. by apply updatePlayerColor_inv.
  - intros [= <-]. by apply togglePlayerReady_inv.
  - intros [= <-]. by apply startGame_inv.
  - intros [= <-]. by apply rollDice_inv_service.
  - intros [= <-]. by apply moveToken_inv_service.
Qed.

Lemma reachable_inv (s : ServiceState) : reachable s → DirectoryInv s.
Proof.
  induction 1 as [|s c s' _ IH Hfresh Hexec].
  - intros roomCode room Hlook. cbn [rooms emptyService] in Hlook.
    by rewrite lookup_empty in Hlook.
  - by eapply exec_inv.
Qed.

(** C10. After every sequence of directory operations the players of
    each room hold pairwise distinct colors; and for a session that is
    already bound to a room, [createRoom] and [joinRoom] throw a
    Conflict exception and leave the directory, hence every room, as it
    was. *)
Theorem rooms_keep_colors_and_sessions (s : ServiceState) :
  reachable s →
  (∀ roomCode room, rooms s !! roomCode = Some room →
     NoDup (player_color <$> players room))
  ∧ (∀ sid, sessionBound s sid →
       (∀ draws playerId roomId now playerName playerColor maxPlayers,
          ∃ e, createRoom draws playerId roomId now playerName playerColor
                 maxPlayers sid s = Some (Throw e, s) ∧ isConflict e)
       ∧ (∀ playerId now roomCode playerName,
          ∃ e, joinRoom playerId now roomCode playerName sid s = (Throw e, s)
               ∧ isConflict e)).
Proof.
  intros Hreach. pose proof (reachable_inv s Hreach) as Hinv. split.
  - intros roomCode room Hroom. by destruct (Hinv roomCode room Hroom) as [? _].
  - intros sid Hbound.
    assert (is_Some (playerToRoom s !! sid)) as Hindexed.
    { destruct Hbound as [|(roomCode & room & p & Hroom & Hp & <-)]; [done|].
      destruct (Hinv roomCode room Hroom) as (_ & _ & _ & Hidx & _).
      rewrite Hidx; [done|]. apply list_elem_of_fmap. by exists p. }
    split.
    + intros. unfold createRoom. rewrite decide_True by done. by eexists.
    + intros. unfold joinRoom. unfold_method. cbn. rewrite decide_True by done.
      by eexists.
Qed.

Lemma runCommands_reachable (cs : list Command) (s s' : ServiceState) :
  reachable s → runCommands cs s = Some s' → reachable s'.
Proof.
  revert s. induction cs as [|c cs IH]; simpl; intros s Hs Hrun.
  - by injection Hrun as <-.
  - destruct (bool_decide (drawsOk c s)) eqn:Hok; [|done].
    apply bool_decide_eq_true in Hok.
    destruct (exec c s) as [s1|] eqn:Hexec; [|done].
    eapply IH; [|done]. by eapply reachable_step.
Defined.

Lemma lobby_reachable : reachable lobby.
Proof.
  apply (runCommands_reachable lobbyCommands emptyService); [apply reachable_empty|].
  vm_compute. reflexivity.
Defined.

Lemma rooms_keep_colors_and_sessions_witness :
  (∀ roomCode room, rooms lobby !! roomCode = Some room →
     NoDup (player_color <$> players room))
  ∧ (∀ sid, sessionBound lobby sid →
       (∀ draws playerId roomId now playerName playerColor maxPlayers,
          ∃ e, createRoom draws playerId roomId now playerName playerColor
                 maxPlayers sid lobby = Some (Throw e, lobby) ∧ isConflict e)
       ∧ (∀ playerId now roomCode playerName,
          ∃ e, joinRoom playerId now roomCode playerName sid lobby = (Throw e, lobby)
               ∧ isConflict e)).
Proof.
  apply (rooms_keep_colors_and_sessions lobby). apply lobby_reachable.
Defined.

End DirectoryClaims.

(* ===================================================================== *)
(** ** The games of the examples, as the directory stores them            *)
(* ===================================================================== *)

Section StoredGames.
Import Play Examples.
Import RoomsService.

(** Every game that the directory stores was reached by play from
    [initializeGame]. *)
Lemma stored_games_reachable (s : ServiceState) (roomCode : string) (room : Room)
    (g : GameState) :
  reachable s → rooms s !! roomCode = Some room → gameState room = Some g →
  reachableGame g.
Proof.
  intros Hreach Hroom Hgame.
  destruct (reachable_inv s Hreach roomCode room Hroom) as (_ & _ & _ & _ & Hplay).
  by apply Hplay.
Qed.

Lemma requests_reachable (actions : list Action) (s s' : ServiceState) :
  reachable s → requests actions s = Some s' → reachable s'.
Proof.
  revert s. induction actions as [|a actions IH]; intros s Hs Hrun.
  - simpl in Hrun. by injection Hrun as <-.
  - cbn [requests] in Hrun.
    destruct (runCommands _ s) as [s1|] eqn:Hstep; [|done].
    eapply IH; [|done]. by eapply runCommands_reachable.
Qed.

Lemma tableAfter_reachable (actions : list Action) :
  is_Some (s ← runCommands tableCommands emptyService; requests actions s) →
  reachable (tableAfter actions).
Proof.
  unfold tableAfter. intros [s' Hs']. rewrite Hs'. cbn [default].
  destruct (runCommands tableCommands emptyService) as [s1|] eqn:Hset; [|done].
  cbn in Hs'. eapply requests_reachable; [|done].
  by eapply runCommands_reachable; [apply reachable_empty|].
Qed.

(** The directory accepts the requests of each of the three example
    plays, although some follow a win, and stores the game that the
    engine computed. *)
Lemma afterRedWon_stored :
  reachable (tableAfter afterRedWonPlay)
  ∧ storedGame (tableAfter afterRedWonPlay) = Some afterRedWon.
Proof.
  split; [apply tableAfter_reachable|]; vm_compute; eauto.
Qed.

Lemma greenAboutToFinish_stored :
  reachable (tableAfter greenAboutToFinishPlay)
  ∧ storedGame (tableAfter greenAboutToFinishPlay) = Some greenAboutToFinish.
Proof.
  split; [apply tableAfter_reachable|]; vm_compute; eauto.
Qed.

Lemma stackedDefenders_stored :
  reachable (tableAfter stackedDefendersPlay)
  ∧ storedGame (tableAfter stackedDefendersPlay) = Some stackedDefenders.
Proof.
  split; [apply tableAfter_reachable|]; vm_compute; eauto.
Qed.

End StoredGames.

(* ===================================================================== *)
(** ** The course of a game                                               *)
(* ===================================================================== *)

Section GameCourse.
Import LudoGameService Play Phase Examples MoreExamples.

Lemma step_cases (a : Action) (g g' : GameState) :
  step a g = Some g' →
  (∃ r d, a = Roll r ∧ unitInterval r = true ∧ rollDice r g = Ok (d, g'))
  ∨ (∃ now id, a = Move now id ∧ moveToken now g id = Ok g').
Proof.
  destruct a as [r|now id]; simpl; intros Hstep.
  - destruct (unitInterval r) eqn:Hr; [|done].
    destruct (rollDice r g) as [[d g'']|] eqn:Hroll; [|done].
    injection Hstep as ->. left. by exists r, d.
  - destruct (moveToken now g id) as [g''|] eqn:Hmove; [|done].
    injection Hstep as ->. right. by exists now, id.
Qed.

Lemma keepsTurn_sixes (dice : Z) (cap : option string) (w : option PlayerColor) (sixes : Z) :
  keepsTurn dice cap w sixes = true →
  (if decide (dice = 6) then sixes + 1 else 0) < 3.
Proof.
  unfold keepsTurn. intros [_ H%negb_true_iff]%andb_prop.
  apply bool_decide_eq_false in H. destruct (decide (dice = 6)).
  - rewrite bool_decide_eq_true_2 in H by done. lia.
  - lia.
Qed.

Lemma rollDice_phase (r : Q) (gs : GameState) (d : Z) (gs' : GameState) :
  unitInterval r = true → PhaseInv gs → rollDice r gs = Ok (d, gs') → PhaseInv gs'.
Proof.
  intros Hr [Hphase Hsix] Hroll.
  apply rollDice_Ok in Hroll
    as (Hcan & Hd & _ & _ & _ & _ & [(_ & _ & Hdice & Hcan' & Hsix' & Hvm)
                                    |(Hne & _ & Hdice & Hcan' & Hsix' & Hvm)]).
  - split; [|lia]. by left.
  - split; [|lia]. right. split; [done|]. exists d.
    rewrite Hvm, Hsix'. split; [done|]. split; [|split; [done|]].
    + subst d. destruct (decide (consecutiveSixes gs >= 2)).
      * pose proof (randomFace_range r 5 Hr ltac:(lia)). lia.
      * pose proof (randomFace_range r 6 Hr ltac:(lia)). lia.
    + intros Hge. subst d. rewrite decide_True by done.
      pose proof (randomFace_range r 5 Hr ltac:(lia)). lia.
Qed.

Lemma moveToken_phase (now : Z) (gs : GameState) (id : string) (gs' : GameState) :
  PhaseInv gs → moveToken now gs id = Ok gs' → PhaseInv gs'.
Proof.
  intros [Hphase Hsix] Hmove.
  apply moveToken_Ok in Hmove
    as (dice & i & t & p & Hdice & _ & _ & _ & _ & _ & _ & _ & Hd' & Hc' & Hv' & _ & Hturn).
  split; [by left|].
  destruct (keepsTurn _ _ _ _) eqn:Hkeep.
  - destruct Hturn as [_ ->]. apply keepsTurn_sixes in Hkeep.
    destruct (decide (dice = 6)); lia.
  - destruct Hturn as [_ ->]. lia.
Qed.

Lemma reachableGame_phase (gs : GameState) : reachableGame gs → PhaseInv gs.
Proof.
  induction 1 as [players Hlen Hnd|g a g' _ IH Hstep].
  - split; [by left|]. simpl. lia.
  - apply step_cases in Hstep as [(r & d & -> & Hr & Hroll)|(now & id & -> & Hmove)].
    + by eapply rollDice_phase.
    + by eapply moveToken_phase.
Qed.

(** A token offered by [validMoves] is moved. *)
Lemma moveToken_offered (now : Z) (gs : GameState) (id : string) :
  GameInv gs → id ∈ validMoves gs → is_Some (diceValue gs) →
  ∃ gs', moveToken now gs id = Ok gs'.
Proof.
  intros Hinv Hid [d Hd].
  destruct (inv_dice _ Hinv d Hd) as [Hrange Hvm].
  pose proof Hid as Hid'. rewrite Hvm in Hid'.
  apply computeValidMoves_spec in Hid' as (t & Hin & <- & Hcol & Hfin & Hcalc).
  apply list_elem_of_lookup in Hin as [j Hj].
  pose proof (list_find_by_id _ _ _ (inv_ids _ Hinv) Hj) as Hfind.
  unfold moveToken. rewrite Hd. unfold find, findIndex. rewrite Hfind. simpl.
  rewrite decide_False by (intros Hne; by apply Hne).
  rewrite decide_False by (intros Hne; by apply Hne).
  destruct (calculateNewPosition t d) as [p|] eqn:Hp; [|done].
  rewrite Hj. destruct (captureAt t p (tokens gs)) as [ts cap].
  repeat match goal with |- context [if ?b then _ else _] => destruct b end; eauto.
Qed.

(** X1. A stored game is never stuck and its two phases alternate.
    Either it awaits a roll: no dice value is held, no move is offered,
    every roll is accepted and every move is refused.  Or it awaits a
    move: it holds a dice value from 1 to 6, offers at least one token,
    every offered token can be moved and every roll is refused. *)
Theorem game_never_stuck (gs : GameState) :
  reachableGame gs →
  (canRollDice gs = true ∧ diceValue gs = None ∧ validMoves gs = []
   ∧ (∀ r, ∃ d gs', rollDice r gs = Ok (d, gs'))
   ∧ (∀ now id, ¬ isOk (moveToken now gs id)))
  ∨ (canRollDice gs = false
     ∧ (∃ d, diceValue gs = Some d ∧ 1 ≤ d ≤ 6)
     ∧ validMoves gs ≠ []
     ∧ (∀ now id, id ∈ validMoves gs → ∃ gs', moveToken now gs id = Ok gs')
     ∧ (∀ r, ¬ isOk (rollDice r gs))).
Proof.
  intros Hreach.
  pose proof (reachableGame_inv _ Hreach) as Hinv.
  destruct (reachableGame_phase _ Hreach)
    as [[(Hcan & Hdice & Hvm)|(Hcan & d & Hdice & Hd & Hvm & _)] _].
  - left. split_and!; [done..| |].
    + intros r. destruct (rollDice_returns r gs Hcan) as [gs' Hroll]. eauto.
    + intros now id. unfold moveToken. rewrite Hdice. by intros [].
  - right. split_and!; [done|by exists d|done| |].
    + intros now id Hid. apply moveToken_offered; [done..|by exists d].
    + intros r. unfold rollDice. rewrite Hcan. by intros [].
Qed.

Lemma game_never_stuck_witness :
  (canRollDice stackedDefenders = true ∧ diceValue stackedDefenders = None
   ∧ validMoves stackedDefenders = []
   ∧ (∀ r, ∃ d gs', rollDice r stackedDefenders = Ok (d, gs'))
   ∧ (∀ now id, ¬ isOk (moveToken now stackedDefenders id)))
  ∨ (canRollDice stackedDefenders = false
     ∧ (∃ d, diceValue stackedDefenders = Some d ∧ 1 ≤ d ≤ 6)
     ∧ validMoves stackedDefenders ≠ []
     ∧ (∀ now id, id ∈ validMoves stackedDefenders →
          ∃ gs', moveToken now stackedDefenders id = Ok gs')
     ∧ (∀ r, ¬ isOk (rollDice r stackedDefenders))).
Proof. apply (game_never_stuck stackedDefenders), stackedDefenders_reachable. Defined.

(** X2. The six counter of a stored game stays between 0 and 2, and a
    six is never held while it is 2 (the roll is five-sided then).  So
    the branch of [moveToken] that passes the turn at a third six never
    runs: the mover keeps the turn exactly when the roll was a six or
    the move captured, and no winner is recorded; the counter then goes
    up by one after a six and back to 0 otherwise. *)
Theorem third_six_never_held (now : Z) (gs : GameState) (id : string)
    (gs' : GameState) (dice : Z) (record : MoveRecord) :
  reachableGame gs → diceValue gs = Some dice →
  moveToken now gs id = Ok gs' →
  last (moveHistory gs') = Some record →
  0 ≤ consecutiveSixes gs ≤ 2
  ∧ (dice = 6 → consecutiveSixes gs ≤ 1)
  ∧ (currentTurnPlayerIndex gs' = currentTurnPlayerIndex gs
     ↔ (dice = 6 ∨ is_Some (capturedTokenId record)) ∧ winner gs' = None)
  ∧ consecutiveSixes gs'
    = (if decide (dice = 6 ∧ winner gs' = None) then consecutiveSixes gs + 1 else 0)
  ∧ 0 ≤ consecutiveSixes gs' ≤ 2.
Proof.
  intros Hreach Hdice Hmove Hlast.
  pose proof (reachableGame_inv _ Hreach) as Hinv.
  destruct (reachableGame_phase _ Hreach) as [[(_ & Hnone & _)|(_ & d & Hd & _ & _ & Hfive)] Hsix];
    [congruence|].
  assert (d = dice) as -> by congruence.
  assert (dice = 6 → consecutiveSixes gs ≤ 1) as Hone by lia.
  destruct (moveToken_turn now gs id gs' dice record Hinv Hdice Hmove Hlast)
    as (Hiff & _ & _ & Hzero).
  assert (Hphase' : PhaseInv gs') by (eapply moveToken_phase; [|done]; by eapply reachableGame_phase).
  destruct Hphase' as [_ Hsix'].
  assert (currentTurnPlayerIndex gs' = currentTurnPlayerIndex gs
          ↔ (dice = 6 ∨ is_Some (capturedTokenId record)) ∧ winner gs' = None) as Hiff'.
  { rewrite Hiff. split; [by intros (? & ? & ?)|].
    intros [? ?]. split_and!; [done..|lia]. }
  split_and!; [lia|lia|done|done| |lia|lia].
  apply moveToken_Ok in Hmove
    as (dice' & i & t & p & Hdice' & _ & _ & _ & _ & _ & Hhist & _ & _ & _ & _ & _ & Hturn).
  assert (dice' = dice) as -> by congruence.
  destruct (keepsTurn _ _ _ _) eqn:Hkeep.
  - destruct Hturn as [Hsame ->].
    apply Hiff in Hsame as (_ & Hw & _).
    destruct (decide (dice = 6)) as [->|Hne].
    + by rewrite decide_True.
    + rewrite decide_False; [done|]. by intros [? _].
  - destruct Hturn as [Hidx ->].
    rewrite decide_False; [done|]. intros [-> Hw].
    assert (currentTurnPlayerIndex gs' = currentTurnPlayerIndex gs) as Hsame.
    { apply Hiff'. split; [by left|done]. }
    assert (keepsTurn 6 (captureAt t p (tokens gs)).2 (winner gs')
              (consecutiveSixes gs) = true) as Hkeep'; [|congruence].
    apply keepsTurn_true.
    + intros j Hj. by eapply captureAt_recorded.
    + split_and!; [by left|done|lia].
Qed.

Lemma third_six_never_held_witness :
  let record := mkMoveRecord RED "red-0" (-1) 0 0 None in
  0 ≤ consecutiveSixes firstSix ≤ 2
  ∧ (6 = 6 → consecutiveSixes firstSix ≤ 1)
  ∧ (currentTurnPlayerIndex redOut = currentTurnPlayerIndex firstSix
     ↔ (6 = 6 ∨ is_Some (capturedTokenId record)) ∧ winner redOut = None)
  ∧ consecutiveSixes redOut
    = (if decide (6 = 6 ∧ winner redOut = None) then consecutiveSixes firstSix + 1 else 0)
  ∧ 0 ≤ consecutiveSixes redOut ≤ 2.
Proof.
  apply (third_six_never_held 0 firstSix "red-0" redOut 6
           (mkMoveRecord RED "red-0" (-1) 0 0 None)).
  - apply firstSix_reachable.
  - reflexivity.
  - vm_compute. reflexivity.
  - vm_compute. reflexivity.
Defined.

(** X3. [getValidMoves] and [moveToken] agree for the color whose turn it
    is: without a dice value the list is empty; for the active color it
    is the stored [validMoves], and a token is moved exactly when its id
    is in the list.  For any other color the list names tokens that
    [moveToken] refuses. *)
Theorem getValidMoves_are_the_accepted_moves (gs : GameState) (c : PlayerColor) :
  reachableGame gs →
  (diceValue gs = None → getValidMoves gs c = [])
  ∧ (Some c = getCurrentPlayerColor gs →
     getValidMoves gs c = validMoves gs
     ∧ ∀ now id, isOk (moveToken now gs id) ↔ id ∈ getValidMoves gs c)
  ∧ (Some c ≠ getCurrentPlayerColor gs →
     ∀ now id, id ∈ getValidMoves gs c → ¬ isOk (moveToken now gs id)).
Proof.
  intros Hreach.
  pose proof (reachableGame_inv _ Hreach) as Hinv.
  pose proof (reachableGame_phase _ Hreach) as [Hphase _].
  split_and!.
  - intros Hnone. unfold getValidMoves. by rewrite Hnone.
  - intros Hc.
    assert (getValidMoves gs c = validMoves gs) as Heq.
    { unfold getValidMoves. destruct (diceValue gs) as [d|] eqn:Hd.
      - destruct (inv_dice _ Hinv d Hd) as [Hrange ->].
        rewrite decide_False by lia. by rewrite Hc.
      - destruct Hphase as [(_ & _ & ->)|(_ & d & ? & _)]; [done|congruence]. }
    split; [done|]. intros now id. rewrite Heq. split.
    + destruct (moveToken now gs id) as [gs'|] eqn:Hmove; [|done]. intros _.
      by apply moveToken_Ok in Hmove as (? & ? & ? & ? & _ & _ & _ & ? & _).
    + intros Hid.
      destruct (moveToken_offered now gs id Hinv Hid) as [gs' ->]; [|done].
      destruct (diceValue gs) eqn:Hd; [done|].
      destruct Hphase as [(_ & _ & Hvm)|(_ & d & ? & _)]; [|congruence].
      rewrite Hvm in Hid. by apply elem_of_nil in Hid.
  - intros Hc now id Hid.
    unfold getValidMoves in Hid. destruct (diceValue gs) as [d|] eqn:Hd;
      [|by apply elem_of_nil in Hid].
    destruct (decide (d = 0)); [by apply elem_of_nil in Hid|].
    apply computeValidMoves_spec in Hid as (t & Hin & <- & Hcol & _).
    destruct (moveToken now gs (token_id t)) as [gs'|] eqn:Hmove; [|by intros []].
    intros _.
    apply moveToken_Ok in Hmove as (? & j & t' & ? & _ & Hfind & Hcol' & _).
    apply list_find_Some in Hfind as (Hj & Hid' & _).
    assert (t' = t) as ->.
    { eapply token_by_id; [done|done| |done]. by eapply list_elem_of_lookup_2. }
    apply Hc. by rewrite <- Hcol.
Qed.

Lemma getValidMoves_are_the_accepted_moves_witness :
  (diceValue stackedDefenders = None → getValidMoves stackedDefenders RED = [])
  ∧ (Some RED = getCurrentPlayerColor stackedDefenders →
     getValidMoves stackedDefenders RED = validMoves stackedDefenders
     ∧ ∀ now id, isOk (moveToken now stackedDefenders id)
                 ↔ id ∈ getValidMoves stackedDefenders RED)
  ∧ (Some RED ≠ getCurrentPlayerColor stackedDefenders →
     ∀ now id, id ∈ getValidMoves stackedDefenders RED →
               ¬ isOk (moveToken now stackedDefenders id)).
Proof.
  apply (getValidMoves_are_the_accepted_moves stackedDefenders RED),
    stackedDefenders_reachable.
Defined.

End GameCourse.

(* ===================================================================== *)
(** ** What a move changes                                                *)
(* ===================================================================== *)

Section MoveFrame.
Import LudoGameService Play Phase Examples MoreExamples.

(** A move rewrites the mover and at most one captured token. *)
Lemma moveToken_frame (now : Z) (gs : GameState) (mover : Token) (gs' : GameState) :
  GameInv gs → mover ∈ tokens gs → moveToken now gs (token_id mover) = Ok gs' →
  ∃ dice dest i,
    diceValue gs = Some dice ∧ 1 ≤ dice ≤ 6
    ∧ calculateNewPosition mover dice = Some dest
    ∧ tokens gs !! i = Some mover
    ∧ tokens gs' !! i = Some (movedToken mover dest)
    ∧ last (moveHistory gs')
      = Some {| playerColor := token_color mover; tokenId := token_id mover;
                move_from := position mover; move_to := dest; timestamp := now;
                capturedTokenId := (captureAt mover dest (tokens gs)).2 |}
    ∧ (((captureAt mover dest (tokens gs)).2 = None
        ∧ ∀ k y, k ≠ i → tokens gs !! k = Some y → tokens gs' !! k = Some y)
       ∨ (∃ j v, j ≠ i ∧ tokens gs !! j = Some v ∧ capturable mover dest v
                 ∧ 0 ≤ dest ≤ 51 ∧ ¬ (dest ∈ SAFE_SQUARES)
                 ∧ (captureAt mover dest (tokens gs)).2 = Some (token_id v)
                 ∧ tokens gs' !! j = Some (sentHome v)
                 ∧ ∀ k y, k ≠ i → k ≠ j → tokens gs !! k = Some y →
                     tokens gs' !! k = Some y)).
Proof.
  intros Hinv Hin Hmove.
  destruct (moveToken_of now gs mover gs' Hinv Hin Hmove)
    as (dice & dest & i & Hdice & Hcalc & Hrange & _ & Hi & _ & Htokens & Hlast & _).
  exists dice, dest, i. split_and!; [done|lia|lia|done|done| |done|].
  { rewrite Htokens. apply list_lookup_insert_eq.
    destruct (captureAt_keeps mover dest (tokens gs) (inv_ids _ Hinv)) as (Hids & _).
    apply (f_equal length) in Hids. rewrite !length_fmap in Hids. rewrite Hids.
    by eapply lookup_lt_Some. }
  destruct (captureAt_cases mover dest (tokens gs) (inv_ids _ Hinv))
    as [[Heq _]|(j & v & [Hdest Hsafe] & Hfind & Heq)].
  - left. rewrite Htokens, Heq. simpl. split; [done|].
    intros k y Hk Hy. by rewrite list_lookup_insert_ne.
  - right. apply list_find_Some in Hfind as (Hj & Hcap & _).
    assert (j ≠ i) as Hji.
    { intros ->. rewrite Hi in Hj. injection Hj as <-. by destruct Hcap as (_ & ? & _). }
    exists j, v. rewrite Htokens, Heq. simpl. split_and!; [done|done|done|lia|lia|done|done| |].
    + rewrite list_lookup_insert_ne by done. apply list_lookup_insert_eq.
      by eapply lookup_lt_Some.
    + intros k y Hk Hkj Hy. by rewrite !list_lookup_insert_ne.
Qed.

Lemma moveToken_keeps (now : Z) (gs : GameState) (id : string) (gs' : GameState) :
  GameInv gs → moveToken now gs id = Ok gs' →
  token_id <$> tokens gs' = token_id <$> tokens gs
  ∧ token_color <$> tokens gs' = token_color <$> tokens gs
  ∧ playerColorOrder gs' = playerColorOrder gs.
Proof.
  intros Hinv Hmove.
  apply moveToken_Ok in Hmove
    as (dice & i & t & p & _ & Hfind & _ & _ & _ & Htokens & _ & _ & _ & _ & _ & Horder & _).
  apply list_find_Some in Hfind as (Hi & _ & _).
  destruct (captureAt_keeps t p (tokens gs) (inv_ids _ Hinv)) as (Hids & Hcols & _).
  rewrite Htokens, !list_fmap_insert, Hids, Hcols.
  split_and!; [| |done]; apply list_insert_id; by rewrite list_lookup_fmap, Hi.
Qed.

Lemma step_keeps (a : Action) (g g' : GameState) :
  GameInv g → step a g = Some g' →
  token_id <$> tokens g' = token_id <$> tokens g
  ∧ token_color <$> tokens g' = token_color <$> tokens g
  ∧ playerColorOrder g' = playerColorOrder g.
Proof.
  intros Hinv [(r & d & -> & _ & Hroll)|(now & id & -> & Hmove)]%step_cases.
  - apply rollDice_Ok in Hroll as (_ & _ & -> & -> & _). done.
  - by eapply moveToken_keeps.
Qed.

Lemma step_reachable (a : Action) (g g' : GameState) :
  reachableGame g → step a g = Some g' → reachableGame g'.
Proof. intros Hreach Hstep. by eapply reachable_action. Qed.

Lemma tokens_differ (gs : GameState) (i k : nat) (x y : Token) :
  GameInv gs → tokens gs !! i = Some x → tokens gs !! k = Some y → y ≠ x → k ≠ i.
Proof. intros _ Hi Hk Hne ->. congruence. Qed.

(** X4. A move leaves the number of tokens as it is and changes, apart
    from the mover, at most one token: a ring token of another color
    that stood on the mover's destination — a cell that is no safe
    square — and is now at Home.  Tokens of the mover's color and tokens
    at Home, in a lane or finished are never changed by the move of
    another token. *)
Theorem move_changes_at_most_one_other_token (now : Z) (gs gs' : GameState)
    (mover : Token) :
  reachableGame gs → mover ∈ tokens gs →
  moveToken now gs (token_id mover) = Ok gs' →
  length (tokens gs') = length (tokens gs)
  ∧ (∀ k y, tokens gs !! k = Some y → y ≠ mover →
       tokens gs' !! k = Some y
       ∨ (tokens gs' !! k = Some (sentHome y)
          ∧ onRing y ∧ token_color y ≠ token_color mover
          ∧ ¬ (position y ∈ SAFE_SQUARES)
          ∧ (∃ dice, diceValue gs = Some dice
                     ∧ calculateNewPosition mover dice = Some (position y))
          ∧ ∀ k' y', tokens gs !! k' = Some y' → y' ≠ mover → k' ≠ k →
              tokens gs' !! k' = Some y'))
  ∧ (∀ k y, tokens gs !! k = Some y → y ≠ mover →
       token_color y = token_color mover ∨ ¬ onRing y →
       tokens gs' !! k = Some y).
Proof.
  intros Hreach Hin Hmove.
  pose proof (reachableGame_inv _ Hreach) as Hinv.
  destruct (moveToken_keeps now gs _ gs' Hinv Hmove) as (Hids & _).
  destruct (moveToken_frame now gs mover gs' Hinv Hin Hmove)
    as (dice & dest & i & Hdice & Hrange & Hcalc & Hi & Hi' & _
        & [[_ Hrest]|(j & v & Hji & Hj & Hcap & Hdest & Hsafe & _ & Hj' & Hrest)]).
  - split_and!.
    + apply (f_equal length) in Hids. by rewrite !length_fmap in Hids.
    + intros k y Hk Hne. left. apply Hrest; [|done]. by eapply tokens_differ.
    + intros k y Hk Hne _. apply Hrest; [|done]. by eapply tokens_differ.
  - assert (onRing v) as Hring.
    { destruct Hcap as (Hpos & _ & ? & ? & ?). unfold onRing. split_and!; [lia|lia|done..]. }
    destruct Hcap as (Hpos & Hcol & _).
    split_and!.
    + apply (f_equal length) in Hids. by rewrite !length_fmap in Hids.
    + intros k y Hk Hne. assert (k ≠ i) as Hki by by eapply tokens_differ.
      destruct (decide (k = j)) as [->|Hkj].
      * right. assert (y = v) as -> by congruence. rewrite Hpos.
        split_and!; [done..| |].
        -- by exists dice.
        -- intros k' y' Hk' Hne' Hk'j. apply Hrest; [|done..]. by eapply tokens_differ.
      * left. by apply Hrest.
    + intros k y Hk Hne Hsame. assert (k ≠ i) as Hki by by eapply tokens_differ.
      apply Hrest; [done| |done]. intros ->.
      assert (y = v) as -> by congruence. by destruct Hsame.
Qed.

Lemma move_changes_at_most_one_other_token_witness :
  let mover := mkToken "red-0" RED 16 false false false in
  length (tokens afterCapture) = length (tokens stackedDefenders)
  ∧ (∀ k y, tokens stackedDefenders !! k = Some y → y ≠ mover →
       tokens afterCapture !! k = Some y
       ∨ (tokens afterCapture !! k = Some (sentHome y)
          ∧ onRing y ∧ token_color y ≠ token_color mover
          ∧ ¬ (position y ∈ SAFE_SQUARES)
          ∧ (∃ dice, diceValue stackedDefenders = Some dice
                     ∧ calculateNewPosition mover dice = Some (position y))
          ∧ ∀ k' y', tokens stackedDefenders !! k' = Some y' → y' ≠ mover → k' ≠ k →
              tokens afterCapture !! k' = Some y'))
  ∧ (∀ k y, tokens stackedDefenders !! k = Some y → y ≠ mover →
       token_color y = token_color mover ∨ ¬ onRing y →
       tokens afterCapture !! k = Some y).
Proof.
  apply (move_changes_at_most_one_other_token 0 stackedDefenders afterCapture
           (mkToken "red-0" RED 16 false false false)).
  - apply stackedDefenders_reachable.
  - vm_compute. apply list_elem_of_here.
  - vm_compute. reflexivity.
Defined.

End MoveFrame.

(* ===================================================================== *)
(** ** What a play keeps                                                  *)
(* ===================================================================== *)

Section PlayKeeps.
Import LudoGameService Play Phase Examples MoreExamples.

Lemma finished_not_moved (t : Token) (d : Z) :
  tokenOk t → isFinished t = true → calculateNewPosition t d = None.
Proof.
  intros [H|[H|[H|H]]] Hfin; destruct H as (_ & Hhome & _ & Hfin'); try congruence.
  by apply calculateNewPosition_finished.
Qed.

Lemma token_ok_at (gs : GameState) (k : nat) (t : Token) :
  GameInv gs → tokens gs !! k = Some t → tokenOk t.
Proof.
  intros Hinv Hk. pose proof (inv_tokens _ Hinv) as Hok.
  rewrite Forall_forall in Hok. apply Hok. by eapply list_elem_of_lookup_2.
Qed.

Lemma step_finished (a : Action) (g g' : GameState) (k : nat) (t : Token) :
  GameInv g → step a g = Some g' →
  tokens g !! k = Some t → isFinished t = true → tokens g' !! k = Some t.
Proof.
  intros Hinv [(r & d & -> & _ & Hroll)|(now & id & -> & Hmove)]%step_cases Hk Hfin.
  - apply rollDice_Ok in Hroll as (_ & _ & -> & _). done.
  - destruct (moveToken_mover now g id g' Hmove) as (mover & Hin & <-).
    destruct (moveToken_frame now g mover g' Hinv Hin Hmove)
      as (dice & dest & i & Hdice & Hrange & Hcalc & Hi & Hi' & _
          & [[_ Hrest]|(j & v & Hji & Hj & Hcap & _ & _ & _ & Hj' & Hrest)]).
    + apply Hrest; [|done]. intros ->. assert (t = mover) as -> by congruence.
      rewrite finished_not_moved in Hcalc; [done| |done]. by eapply token_ok_at.
    + apply Hrest; [| |done].
      * intros ->. assert (t = mover) as -> by congruence.
        rewrite finished_not_moved in Hcalc; [done| |done]. by eapply token_ok_at.
      * intros ->. assert (t = v) as -> by congruence.
        destruct Hcap as (_ & _ & _ & ? & _). congruence.
Qed.

Lemma run_finished (actions : list Action) (g g' : GameState) (k : nat) (t : Token) :
  reachableGame g → run actions g = Some g' →
  tokens g !! k = Some t → isFinished t = true → tokens g' !! k = Some t.
Proof.
  revert g. induction actions as [|a rest IH]; simpl; intros g Hreach Hrun Hk Hfin.
  - by injection Hrun as <-.
  - destruct (step a g) as [g1|] eqn:Hstep; [|done].
    eapply IH; [by eapply step_reachable|done| |done].
    eapply step_finished; [by apply reachableGame_inv|done..].
Qed.

Lemma run_keeps (actions : list Action) (g g' : GameState) :
  reachableGame g → run actions g = Some g' →
  token_id <$> tokens g' = token_id <$> tokens g
  ∧ token_color <$> tokens g' = token_color <$> tokens g
  ∧ playerColorOrder g' = playerColorOrder g.
Proof.
  revert g. induction actions as [|a rest IH]; simpl; intros g Hreach Hrun.
  - by injection Hrun as <-.
  - destruct (step a g) as [g1|] eqn:Hstep; [|done].
    destruct (IH g1) as (-> & -> & ->); [by eapply step_reachable|done|].
    eapply step_keeps; [by apply reachableGame_inv|done].
Qed.

Lemma complete_kept (g g' : GameState) (c : PlayerColor) :
  token_color <$> tokens g' = token_color <$> tokens g →
  (∀ k t, tokens g !! k = Some t → isFinished t = true → tokens g' !! k = Some t) →
  complete (tokens g) c → complete (tokens g') c.
Proof.
  intros Hcols Hfin [(t & Hin & Hc) Hall].
  apply list_elem_of_lookup in Hin as [k Hk].
  split.
  - exists t. split; [|done]. eapply list_elem_of_lookup_2, Hfin; [done|].
    apply Hall; [|done]. by eapply list_elem_of_lookup_2.
  - intros t' [k' Hk']%list_elem_of_lookup Hc'.
    assert ((token_color <$> tokens g) !! k' = Some c) as Hcol.
    { by rewrite <- Hcols, list_lookup_fmap, Hk', <- Hc'. }
    rewrite list_lookup_fmap in Hcol.
    destruct (tokens g !! k') as [t0|] eqn:Hk0; [|done].
    injection Hcol as Hcol.
    assert (isFinished t0 = true) as Hfin0.
    { apply Hall; [|done]. by eapply list_elem_of_lookup_2. }
    pose proof (Hfin _ _ Hk0 Hfin0). by assert (t' = t0) as -> by congruence.
Qed.

(** X5. A finished token stays where it is for the rest of the game:
    whatever is played from a stored game, a token that was finished is
    found unchanged at the same place of the token list afterwards, and
    every request to move it is refused. *)
Theorem finished_tokens_stay (actions : list Action) (g g' : GameState)
    (k : nat) (t : Token) :
  reachableGame g → run actions g = Some g' →
  tokens g !! k = Some t → isFinished t = true →
  tokens g' !! k = Some t
  ∧ ∀ now, ¬ isOk (moveToken now g' (token_id t)).
Proof.
  intros Hreach Hrun Hk Hfin.
  assert (tokens g' !! k = Some t) as Hk' by by eapply run_finished.
  split; [done|]. intros now.
  destruct (moveToken now g' (token_id t)) as [g''|] eqn:Hmove; [|by intros []].
  intros _.
  assert (GameInv g') as Hinv by by eapply reachableGame_inv, run_reachable.
  assert (t ∈ tokens g') as Hin by by eapply list_elem_of_lookup_2.
  destruct (moveToken_frame now g' t g'' Hinv Hin Hmove)
    as (dice & dest & i & _ & _ & Hcalc & _).
  rewrite finished_not_moved in Hcalc; [done| |done]. by eapply token_ok_at.
Qed.

Lemma finished_tokens_stay_witness :
  tokens afterGreenFinished !! 0%nat = Some (mkToken "red-0" RED 57 false false true)
  ∧ ∀ now, ¬ isOk (moveToken now afterGreenFinished
                     (token_id (mkToken "red-0" RED 57 false false true))).
Proof.
  apply (finished_tokens_stay [Move 0 "green-3"] greenAboutToFinish afterGreenFinished 0
           (mkToken "red-0" RED 57 false false true)).
  - apply greenAboutToFinish_reachable.
  - vm_compute. reflexivity.
  - vm_compute. reflexivity.
  - reflexivity.
Defined.

(** X6. A game that has a winner keeps having one, though play can go
    on: after any further play the color that had won still has all its
    tokens finished and a winner is recorded; and every move made then
    hands the turn to the next player with the six counter at 0, also
    after a six or a capture. *)
Theorem won_game_stays_won (actions : list Action) (g g' : GameState)
    (c : PlayerColor) :
  reachableGame g → winner g = Some c → run actions g = Some g' →
  complete (tokens g') c
  ∧ is_Some (winner g')
  ∧ ∀ now id g'', moveToken now g' id = Ok g'' →
      is_Some (winner g'')
      ∧ currentTurnPlayerIndex g'' = nextIndex g'
      ∧ currentTurnPlayerIndex g'' ≠ currentTurnPlayerIndex g'
      ∧ consecutiveSixes g'' = 0.
Proof.
  intros Hreach Hwin Hrun.
  pose proof (reachableGame_inv _ Hreach) as Hinv.
  assert (reachableGame g') as Hreach' by by eapply run_reachable.
  pose proof (reachableGame_inv _ Hreach') as Hinv'.
  assert (complete (tokens g) c) as Hcomplete.
  { apply checkWinner_Some. by rewrite <- (inv_winner _ Hinv). }
  assert (∀ h, GameInv h → complete (tokens h) c → is_Some (winner h)) as Hsome.
  { intros h Hh Hc. rewrite (inv_winner _ Hh).
    destruct (checkWinner (tokens h)) eqn:Hw; [done|].
    by destruct (checkWinner_None _ Hw c). }
  assert (complete (tokens g') c) as Hcomplete'.
  { destruct (run_keeps actions g g' Hreach Hrun) as (_ & Hcols & _).
    eapply complete_kept; [done| |done].
    intros k t. by apply (run_finished actions g g'). }
  split_and!; [done|by apply Hsome|].
  intros now id g'' Hmove.
  assert (reachableGame g'') as Hreach''.
  { apply (reachable_action g' (Move now id)); [done|]. simpl. by rewrite Hmove. }
  assert (is_Some (winner g'')) as Hw''.
  { apply Hsome; [by apply reachableGame_inv|].
    destruct (moveToken_keeps now g' id g'' Hinv' Hmove) as (_ & Hcols & _).
    eapply complete_kept; [done| |done].
    intros k t. apply (step_finished (Move now id)); [done|]. simpl. by rewrite Hmove. }
  pose proof Hmove as Hmove'.
  apply moveToken_Ok in Hmove'
    as (dice & i & t & p & _ & _ & _ & _ & _ & _ & _ & _ & _ & _ & _ & Horder & Hturn).
  assert (keepsTurn dice (captureAt t p (tokens g')).2 (winner g'') (consecutiveSixes g')
          = false) as Hkeep.
  { unfold keepsTurn. rewrite (bool_decide_eq_true_2 _ Hw''). simpl.
    by rewrite andb_false_r. }
  rewrite Hkeep in Hturn. destruct Hturn as [Hidx Hsix].
  assert (currentTurnPlayerIndex g'' = nextIndex g') as Hnext.
  { rewrite Hidx. unfold nextIndex, playerCountOf. rewrite Horder.
    by destruct (inv_order _ Hinv') as (order & ? & -> & _). }
  split_and!; [done..| |done].
  rewrite Hnext. by apply nextIndex_differs.
Qed.

Lemma won_game_stays_won_witness :
  complete (tokens afterGreenSix) RED
  ∧ is_Some (winner afterGreenSix)
  ∧ ∀ now id g'', moveToken now afterGreenSix id = Ok g'' →
      is_Some (winner g'')
      ∧ currentTurnPlayerIndex g'' = nextIndex afterGreenSix
      ∧ currentTurnPlayerIndex g'' ≠ currentTurnPlayerIndex afterGreenSix
      ∧ consecutiveSixes g'' = 0.
Proof.
  apply (won_game_stays_won [Move 0 "green-0"] afterRedWon afterGreenSix RED).
  - apply afterRedWon_reachable.
  - reflexivity.
  - vm_compute. reflexivity.
Defined.

End PlayKeeps.

(* ===================================================================== *)
(** ** Tokens and their way round the board                               *)
(* ===================================================================== *)

Section Board.
Import LudoGameService Play Phase Path Examples MoreExamples.

Lemma colors_at_most_four (l : list PlayerColor) : NoDup l → (length l ≤ 4)%nat.
Proof.
  intros Hnd.
  assert (l ⊆+ [RED; BLUE; GREEN; YELLOW]) as Hsub.
  { apply NoDup_submseteq; [done|]. intros c _.
    destruct c; rewrite !elem_of_cons; tauto. }
  by apply submseteq_length in Hsub.
Qed.

Lemma initial_tokens_layout (players : list Player) :
  token_color <$> tokens (initializeGame players)
  = (player_color <$> players) ≫= replicate 4
  ∧ token_id <$> tokens (initializeGame players)
    = (player_color <$> players) ≫= tokenIdsOf.
Proof.
  simpl. induction players as [|p rest [IH1 IH2]]; [done|].
  rewrite fmap_cons, !bind_cons, !fmap_app, IH1, IH2. done.
Qed.

(** The tokens of a stored game are those [initializeGame] made. *)
Lemma reachableGame_layout (gs : GameState) :
  reachableGame gs →
  ∃ order,
    playerColorOrder gs = Some order
    ∧ NoDup order ∧ (2 ≤ length order ≤ 4)%nat
    ∧ token_color <$> tokens gs = order ≫= replicate 4
    ∧ token_id <$> tokens gs = order ≫= tokenIdsOf
    ∧ length (tokens gs) = (4 * length order)%nat.
Proof.
  induction 1 as [players Hlen Hnd|g a g' Hreach IH Hstep].
  - exists (player_color <$> players).
    destruct (initial_tokens_layout players) as [Hcols Hids].
    split_and!; [done|done|by rewrite length_fmap|by apply colors_at_most_four|done|done|].
    rewrite <- (length_fmap token_color), Hcols.
    generalize (player_color <$> players). intros l.
    induction l as [|c l IHl]; [done|].
    rewrite bind_cons, length_app, IHl, length_replicate. simpl. lia.
  - destruct IH as (order & Horder & Hnd & Hlen & Hcols & Hids & Hcount).
    destruct (step_keeps a g g' (reachableGame_inv _ Hreach) Hstep) as (Hids' & Hcols' & Horder').
    exists order. rewrite Horder', Hcols', Hids'.
    split_and!; [done|done|lia|lia|done|done|].
    rewrite <- Hcount, <- (length_fmap token_id (tokens g')), Hids'. by rewrite length_fmap.
Qed.

(** X7. Every stored game has between two and four distinct colors in
    its turn order and exactly four tokens for each of them, listed in
    turn order with the ids [<color>-0] to [<color>-3]; and no play adds,
    removes, renames or recolors a token, or changes the turn order:
    after any play from a stored game the turn order, the ids and the
    colors of the tokens, place by place, are those before it. *)
Theorem four_tokens_per_color (actions : list Action) (gs gs' : GameState) :
  reachableGame gs → run actions gs = Some gs' →
  ∃ order,
    playerColorOrder gs = Some order
    ∧ NoDup order ∧ (2 ≤ length order ≤ 4)%nat
    ∧ token_color <$> tokens gs = order ≫= replicate 4
    ∧ token_id <$> tokens gs = order ≫= tokenIdsOf
    ∧ length (tokens gs) = (4 * length order)%nat
    ∧ playerColorOrder gs' = Some order
    ∧ token_color <$> tokens gs' = token_color <$> tokens gs
    ∧ token_id <$> tokens gs' = token_id <$> tokens gs
    ∧ length (tokens gs') = length (tokens gs).
Proof.
  intros Hreach Hrun.
  destruct (reachableGame_layout gs Hreach)
    as (order & Horder & Hnd & Hlen & Hcols & Hids & Hcount).
  destruct (run_keeps actions gs gs' Hreach Hrun) as (Hids' & Hcols' & Horder').
  exists order. split_and!; [done|done|lia|lia|done|done|done|congruence|done|done|].
  rewrite <- (length_fmap token_id (tokens gs')), Hids'. by rewrite length_fmap.
Qed.

Lemma four_tokens_per_color_witness :
  ∃ order,
    playerColorOrder newGame = Some order
    ∧ NoDup order ∧ (2 ≤ length order ≤ 4)%nat
    ∧ token_color <$> tokens newGame = order ≫= replicate 4
    ∧ token_id <$> tokens newGame = order ≫= tokenIdsOf
    ∧ length (tokens newGame) = (4 * length order)%nat
    ∧ playerColorOrder stackedDefenders = Some order
    ∧ token_color <$> tokens stackedDefenders = token_color <$> tokens newGame
    ∧ token_id <$> tokens stackedDefenders = token_id <$> tokens newGame
    ∧ length (tokens stackedDefenders) = length (tokens newGame).
Proof.
  apply (four_tokens_per_color stackedDefendersPlay newGame stackedDefenders).
  - apply newGame_reachable.
  - vm_compute. reflexivity.
Defined.

Ltac board_arith :=
  unfold calculateNewPosition, movedToken, progress, onOwnSegment, onRing, ownCells,
    pathLength, ringLength, stepsFromTo, START_POS, GATEWAY in *; simpl in *.

Lemma ownCells_segment (t : Token) :
  onRing t → (onOwnSegment t ↔ ownCells (token_color t) (position t)).
Proof.
  intros Hring. destruct t as [id c pos h s f]. pose proof Hring as (Hpos & _).
  split.
  - intros H. specialize (H Hring). board_arith. destruct c; repeat case_decide; lia.
  - intros H _. board_arith. destruct c; repeat case_decide; lia.
Qed.

(** One move of a token along the way of its color. *)
Lemma calculateNewPosition_progress (t : Token) (d p : Z) :
  tokenOk t → onOwnSegment t → 1 ≤ d ≤ 6 →
  calculateNewPosition t d = Some p →
  onOwnSegment (movedToken t p)
  ∧ (isInHome t = true → d = 6 ∧ progress (movedToken t p) = 0)
  ∧ (isInHome t = false → progress (movedToken t p) = progress t + d)
  ∧ 0 ≤ progress (movedToken t p) ≤ pathLength (token_color t)
  ∧ (isFinished (movedToken t p) = true
     ↔ progress (movedToken t p) = pathLength (token_color t)).
Proof.
  intros Hok Hseg Hd Hcalc. destruct t as [id c pos h s f].
  destruct Hok as [H|[H|[H|H]]].
  - destruct H as (Hpos & Hh & Hs & Hf). simpl in *. subst.
    board_arith. case_decide; [|done]. injection Hcalc as <-.
    destruct c; simpl; repeat split; intros; try done; try lia.
  - pose proof H as (Hpos & Hh & Hs & Hf). specialize (Hseg H). simpl in *. subst.
    board_arith.
    destruct c; simpl in *; repeat case_decide; try lia; try done;
      injection Hcalc as <-;
      repeat case_bool_decide; simpl; repeat case_decide;
      repeat split; intros; try done; try lia.
  - destruct H as (Hpos & Hh & Hs & Hf). simpl in *. subst.
    board_arith.
    destruct c; simpl in *; repeat case_decide; try lia; try done;
      injection Hcalc as <-;
      repeat case_bool_decide; simpl; repeat case_decide;
      repeat split; intros; try done; try lia.
  - destruct H as (Hpos & Hh & Hs & Hf). simpl in *. subst. by board_arith.
Qed.

Lemma moveToken_segments (now : Z) (gs : GameState) (id : string) (gs' : GameState) :
  GameInv gs → Forall onOwnSegment (tokens gs) → moveToken now gs id = Ok gs' →
  Forall onOwnSegment (tokens gs').
Proof.
  intros Hinv Hseg Hmove.
  destruct (moveToken_mover now gs id gs' Hmove) as (mover & Hin & <-).
  destruct (moveToken_frame now gs mover gs' Hinv Hin Hmove)
    as (dice & dest & i & Hdice & Hrange & Hcalc & Hi & Hi' & _ & Hrest).
  destruct (moveToken_keeps now gs _ gs' Hinv Hmove) as (Hids & _).
  apply (f_equal length) in Hids. rewrite !length_fmap in Hids.
  rewrite Forall_lookup in Hseg.
  assert (onOwnSegment (movedToken mover dest)) as Hmoved.
  { eapply calculateNewPosition_progress; [|by eapply Hseg|done..]. by eapply token_ok_at. }
  apply Forall_lookup. intros k y Hk.
  destruct (decide (k = i)) as [->|Hki].
  { by assert (y = movedToken mover dest) as -> by congruence. }
  destruct (tokens gs !! k) as [y0|] eqn:Hk0.
  2:{ apply lookup_ge_None in Hk0. apply lookup_lt_Some in Hk. lia. }
  destruct Hrest as [[_ Hrest]|(j & v & Hji & Hj & Hcap & _ & _ & _ & Hj' & Hrest)].
  - rewrite (Hrest k y0 Hki Hk0) in Hk. injection Hk as <-. by eapply Hseg.
  - destruct (decide (k = j)) as [->|Hkj].
    + assert (y = sentHome v) as -> by congruence.
      intros (_ & Hhome & _). done.
    + rewrite (Hrest k y0 Hki Hkj Hk0) in Hk. injection Hk as <-. by eapply Hseg.
Qed.

Lemma reachableGame_segments (gs : GameState) :
  reachableGame gs → Forall onOwnSegment (tokens gs).
Proof.
  induction 1 as [players Hlen Hnd|g a g' Hreach IH Hstep].
  - apply Forall_forall. intros t (p & i & _ & _ & ->)%initial_tokens_elem.
    intros (_ & Hhome & _). done.
  - apply step_cases in Hstep as [(r & d & -> & _ & Hroll)|(now & id & -> & Hmove)].
    + apply rollDice_Ok in Hroll as (_ & _ & -> & _). done.
    + eapply moveToken_segments; [by apply reachableGame_inv|done..].
Qed.

(** X8. A move advances the token by exactly the dice value along the
    way of its color, which runs from the start cell over the ring to
    the gateway, through the five lane cells to Finished: 57 steps for
    red, 18 for green and for yellow, 11 for blue.  A token at Home is
    put on the start cell (step 0) by a six.  The moved token is
    finished exactly when it has walked the whole way. *)
Theorem move_advances_by_the_dice (now : Z) (gs gs' : GameState) (mover : Token) :
  reachableGame gs → mover ∈ tokens gs →
  moveToken now gs (token_id mover) = Ok gs' →
  ∃ dice i moved,
    diceValue gs = Some dice
    ∧ tokens gs !! i = Some mover ∧ tokens gs' !! i = Some moved
    ∧ token_id moved = token_id mover ∧ token_color moved = token_color mover
    ∧ (isInHome mover = true → dice = 6 ∧ progress moved = 0)
    ∧ (isInHome mover = false → progress moved = progress mover + dice)
    ∧ 0 ≤ progress moved ≤ pathLength (token_color mover)
    ∧ (isFinished moved = true ↔ progress moved = pathLength (token_color mover))
    ∧ pathLength (token_color mover)
      = match token_color mover with
        | RED => 57 | GREEN => 18 | YELLOW => 18 | BLUE => 11
        end.
Proof.
  intros Hreach Hin Hmove.
  pose proof (reachableGame_inv _ Hreach) as Hinv.
  destruct (moveToken_frame now gs mover gs' Hinv Hin Hmove)
    as (dice & dest & i & Hdice & Hrange & Hcalc & Hi & Hi' & _).
  pose proof (reachableGame_segments _ Hreach) as Hseg. rewrite Forall_lookup in Hseg.
  destruct (calculateNewPosition_progress mover dice dest) as (_ & Hhome & Hstep & Hbounds & Hfin);
    [by eapply token_ok_at|by eapply Hseg|done|done|].
  exists dice, i, (movedToken mover dest).
  split_and!; [done..|lia|lia|done|].
  by destruct (token_color mover).
Qed.

Lemma move_advances_by_the_dice_witness :
  let mover := mkToken "green-3" GREEN 54 false true false in
  ∃ dice i moved,
    diceValue greenAboutToFinish = Some dice
    ∧ tokens greenAboutToFinish !! i = Some mover
    ∧ tokens afterGreenFinished !! i = Some moved
    ∧ token_id moved = token_id mover ∧ token_color moved = token_color mover
    ∧ (isInHome mover = true → dice = 6 ∧ progress moved = 0)
    ∧ (isInHome mover = false → progress moved = progress mover + dice)
    ∧ 0 ≤ progress moved ≤ pathLength (token_color mover)
    ∧ (isFinished moved = true ↔ progress moved = pathLength (token_color mover))
    ∧ pathLength (token_color mover)
      = match token_color mover with
        | RED => 57 | GREEN => 18 | YELLOW => 18 | BLUE => 11
        end.
Proof.
  apply (move_advances_by_the_dice 0 greenAboutToFinish afterGreenFinished
           (mkToken "green-3" GREEN 54 false true false)).
  - apply greenAboutToFinish_reachable.
  - apply (list_elem_of_lookup_2 _ 7%nat). reflexivity.
  - vm_compute. reflexivity.
Defined.

(** X9. A token on the ring never leaves the stretch between the start
    cell and the gateway of its color: in every stored game a red ring
    token stands on a cell from 0 to 51, a green one from 13 to 25, a
    yellow one from 27 to 39 and a blue one from 41 to 46. *)
Theorem ring_tokens_stay_on_own_cells (gs : GameState) (t : Token) :
  reachableGame gs → t ∈ tokens gs → onRing t →
  ownCells (token_color t) (position t)
  ∧ stepsFromTo (START_POS (token_color t)) (position t)
    + stepsFromTo (position t) (GATEWAY (token_color t))
    = stepsFromTo (START_POS (token_color t)) (GATEWAY (token_color t)).
Proof.
  intros Hreach Hin Hring.
  pose proof (reachableGame_segments _ Hreach) as Hseg. rewrite Forall_forall in Hseg.
  assert (ownCells (token_color t) (position t)) as Hown.
  { apply ownCells_segment; [done|]. by apply Hseg. }
  split; [done|]. destruct t as [id c pos h s f]. board_arith.
  destruct c; repeat case_decide; lia.
Qed.

Lemma ring_tokens_stay_on_own_cells_witness :
  let t := mkToken "green-0" GREEN 18 false false false in
  ownCells (token_color t) (position t)
  ∧ stepsFromTo (START_POS (token_color t)) (position t)
    + stepsFromTo (position t) (GATEWAY (token_color t))
    = stepsFromTo (START_POS (token_color t)) (GATEWAY (token_color t)).
Proof.
  apply (ring_tokens_stay_on_own_cells stackedDefenders
           (mkToken "green-0" GREEN 18 false false false)).
  - apply stackedDefenders_reachable.
  - apply (list_elem_of_lookup_2 _ 4%nat). reflexivity.
  - unfold onRing. simpl. repeat split; lia.
Defined.

Lemma START_POS_safe (c : PlayerColor) : START_POS c ∈ SAFE_SQUARES.
Proof. destruct c; unfold SAFE_SQUARES; simpl; rewrite !elem_of_cons; tauto. Qed.

Lemma home_token (t : Token) : tokenOk t → isInHome t = true → atHome t.
Proof. intros [H|[H|[H|H]]] Hhome; [done|..]; destruct H as (_ & ? & _); congruence. Qed.

(** X10. A token leaves Home only with a six, is put on the start cell
    of its color, which is a safe square, and so captures nothing: the
    record of the move goes from -1 to the start cell without a captured
    token and every other token stays as it was.  Unless a winner is
    recorded, the mover rolls again. *)
Theorem leaving_home_captures_nothing (now : Z) (gs gs' : GameState) (mover : Token) :
  reachableGame gs → mover ∈ tokens gs → isInHome mover = true →
  moveToken now gs (token_id mover) = Ok gs' →
  let start := START_POS (token_color mover) in
  diceValue gs = Some 6
  ∧ start ∈ SAFE_SQUARES
  ∧ onRing (movedToken mover start)
  ∧ (∃ i, tokens gs !! i = Some mover
          ∧ tokens gs' = <[i := movedToken mover start]> (tokens gs))
  ∧ last (moveHistory gs')
    = Some {| playerColor := token_color mover; tokenId := token_id mover;
              move_from := -1; move_to := start; timestamp := now;
              capturedTokenId := None |}
  ∧ (winner gs' = None →
     currentTurnPlayerIndex gs' = currentTurnPlayerIndex gs
     ∧ canRollDice gs' = true
     ∧ consecutiveSixes gs' = consecutiveSixes gs + 1).
Proof.
  intros Hreach Hin Hhome Hmove start.
  pose proof (reachableGame_inv _ Hreach) as Hinv.
  pose proof (reachableGame_phase _ Hreach) as [Hphase Hsix].
  destruct (moveToken_of now gs mover gs' Hinv Hin Hmove)
    as (dice & dest & i & Hdice & Hcalc & Hrange & _ & Hi & _ & Htokens & Hlast & _ & _ & Hcan & _).
  rewrite calculateNewPosition_home in Hcalc by done.
  destruct (decide (dice = 6)) as [->|]; [|done]. injection Hcalc as <-.
  fold start in Htokens, Hlast.
  rewrite (captureAt_safe mover start (tokens gs) (START_POS_safe _)) in Htokens, Hlast.
  simpl in Htokens, Hlast.
  assert (atHome mover) as (Hpos & _).
  { apply home_token; [|done]. by eapply token_ok_at. }
  rewrite Hpos in Hlast.
  split_and!; [done|apply START_POS_safe| |by exists i|done|].
  - pose proof (START_POS_range (token_color mover)) as Hstart. fold start in Hstart.
    unfold onRing, movedToken. simpl. split_and!; [lia|lia|done| |].
    + apply bool_decide_eq_false. lia.
    + apply bool_decide_eq_false. lia.
  - intros Hwin.
    destruct (moveToken_turn now gs _ gs' 6 _ Hinv Hdice Hmove Hlast) as (Hiff & _ & _ & _).
    assert (consecutiveSixes gs ≤ 1) as Hone.
    { destruct Hphase as [(_ & ? & _)|(_ & d & Hd & _ & _ & Hfive)]; [congruence|].
      assert (d = 6) as -> by congruence. lia. }
    assert (currentTurnPlayerIndex gs' = currentTurnPlayerIndex gs) as Hsame.
    { apply Hiff. split_and!; [by left|done|lia]. }
    split_and!; [done..|].
    destruct (moveToken_keeps now gs (token_id mover) gs' Hinv Hmove) as (_ & _ & Horder).
    apply moveToken_Ok in Hmove
      as (dice' & ? & t & p & Hdice' & _ & _ & _ & _ & _ & _ & _ & _ & _ & _ & _ & Hturn).
    assert (dice' = 6) as -> by congruence.
    destruct (keepsTurn _ _ _ _).
    + destruct Hturn as [_ ->]. by rewrite decide_True.
    + destruct Hturn as [Hidx _].
      destruct (nextIndex_differs gs Hinv). rewrite <- Hsame, Hidx.
      unfold nextIndex, playerCountOf.
      rewrite Horder. by destruct (inv_order _ Hinv) as (order & ? & -> & _).
Qed.

Lemma leaving_home_captures_nothing_witness :
  let mover := mkToken "red-0" RED (-1) true false false in
  let start := START_POS (token_color mover) in
  diceValue firstSix = Some 6
  ∧ start ∈ SAFE_SQUARES
  ∧ onRing (movedToken mover start)
  ∧ (∃ i, tokens firstSix !! i = Some mover
          ∧ tokens redOut = <[i := movedToken mover start]> (tokens firstSix))
  ∧ last (moveHistory redOut)
    = Some {| playerColor := token_color mover; tokenId := token_id mover;
              move_from := -1; move_to := start; timestamp := 0;
              capturedTokenId := None |}
  ∧ (winner redOut = None →
     currentTurnPlayerIndex redOut = currentTurnPlayerIndex firstSix
     ∧ canRollDice redOut = true
     ∧ consecutiveSixes redOut = consecutiveSixes firstSix + 1).
Proof.
  apply (leaving_home_captures_nothing 0 firstSix redOut
           (mkToken "red-0" RED (-1) true false false)).
  - apply firstSix_reachable.
  - apply (list_elem_of_lookup_2 _ 0%nat). reflexivity.
  - reflexivity.
  - vm_compute. reflexivity.
Defined.

Lemma moveCount_cons (a : Action) (rest : list Action) :
  moveCount (a :: rest) = ((if isMove a then 1 else 0) + moveCount rest)%nat.
Proof.
  unfold moveCount. rewrite filter_cons. by destruct a.
Qed.

(** X11. The move history is a log: a play appends exactly one record
    for each move made and none for a roll, and never alters or drops
    an earlier record.  Every record added leads from a place between
    -1 and 56 to a different place between 0 and 57. *)
Theorem history_records_every_move (actions : list Action) (g g' : GameState) :
  reachableGame g → run actions g = Some g' →
  ∃ added,
    moveHistory g' = moveHistory g ++ added
    ∧ length added = moveCount actions
    ∧ Forall (λ record, -1 ≤ move_from record ≤ 56 ∧ 0 ≤ move_to record ≤ 57
                        ∧ move_from record ≠ move_to record) added.
Proof.
  revert g. induction actions as [|a rest IH]; simpl; intros g Hreach Hrun.
  - injection Hrun as <-. exists []. by rewrite app_nil_r.
  - destruct (step a g) as [g1|] eqn:Hstep; [|done].
    destruct (IH g1) as (added & Hhist & Hlen & Hall); [by eapply step_reachable|done|].
    rewrite moveCount_cons.
    pose proof (reachableGame_inv _ Hreach) as Hinv.
    apply step_cases in Hstep as [(r & d & -> & _ & Hroll)|(now & id & -> & Hmove)].
    + apply rollDice_Ok in Hroll as (_ & _ & _ & _ & _ & Hsame & _).
      exists added. by rewrite Hhist, Hsame.
    + destruct (moveToken_mover now g id g1 Hmove) as (mover & Hin & <-).
      destruct (moveToken_frame now g mover g1 Hinv Hin Hmove)
        as (dice & dest & i & Hdice & Hrange & Hcalc & Hi & _).
      apply moveToken_Ok in Hmove
        as (dice' & i' & t & p & Hdice' & Hfind & _ & _ & Hcalc' & _ & Hhist1 & _).
      apply list_find_Some in Hfind as (Hi' & Hid & _).
      assert (t = mover) as ->.
      { eapply token_by_id; [done|done| |done]. by eapply list_elem_of_lookup_2. }
      assert (dice' = dice) as -> by congruence.
      assert (p = dest) as -> by congruence.
      eexists (_ :: added). rewrite Hhist, Hhist1, <- app_assoc. simpl.
      split_and!; [done|by rewrite Hlen|].
      apply Forall_cons. split; [|done]. simpl.
      assert (tokenOk mover) as Hok by by eapply token_ok_at.
      pose proof (calculateNewPosition_bounds mover dice dest Hok Hrange Hcalc) as Hdest.
      destruct mover as [mid c pos h s f].
      destruct Hok as [H|[H|[H|H]]]; destruct H as (Hpos & Hh & Hs & Hf);
        simpl in *; subst; board_arith;
        repeat case_decide; try done; injection Hcalc as <-;
        destruct c; simpl in *; lia.
Qed.

Lemma history_records_every_move_witness :
  ∃ added,
    moveHistory afterCapture = moveHistory newGame ++ added
    ∧ length added = moveCount (stackedDefendersPlay ++ [Move 0 "red-0"])
    ∧ Forall (λ record, -1 ≤ move_from record ≤ 56 ∧ 0 ≤ move_to record ≤ 57
                        ∧ move_from record ≠ move_to record) added.
Proof.
  apply (history_records_every_move (stackedDefendersPlay ++ [Move 0 "red-0"])
           newGame afterCapture).
  - apply newGame_reachable.
  - vm_compute. reflexivity.
Defined.

End Board.

(* ===================================================================== *)
(** ** What each directory method does                                    *)
(* ===================================================================== *)

Section RoomEffects.
Import Examples.
Import RoomsService RoomsLookups.

Lemma joinRoom_cases (playerId : string) (now : Z) (roomCode playerName sid : string)
    (s : ServiceState) :
  (∃ e, joinRoom playerId now roomCode playerName sid s = (Throw e, s)
        ∧ ((is_Some (playerToRoom s !! sid) ∧ isConflict e)
           ∨ (playerToRoom s !! sid = None ∧ rooms s !! roomCode = None
              ∧ e = NotFoundException "Room not found")
           ∨ (playerToRoom s !! sid = None
              ∧ ∃ room, rooms s !! roomCode = Some room ∧ isIllegalAction e
                  ∧ (status room ≠ WAITING
                     ∨ Z.of_nat (length (players room)) >= maxPlayers room
                     ∨ ∀ c, c ∈ (player_color <$> players room)))))
  ∨ (∃ room c rest,
       playerToRoom s !! sid = None
       ∧ rooms s !! roomCode = Some room ∧ status room = WAITING
       ∧ Z.of_nat (length (players room)) < maxPlayers room
       ∧ filter (λ color, color ∉ (player_color <$> players room)) PlayerColor_values
         = c :: rest
       ∧ let p := mkPlayer playerId playerName c false false now sid in
         let room' := set_lastActivity now (set_players (players room ++ [p]) room) in
         joinRoom playerId now roomCode playerName sid s
         = (Ok (room', p),
            mkService (<[roomCode := room']> (rooms s))
              (<[sid := roomCode]> (playerToRoom s)))).
Proof.
  unfold joinRoom. unfold_method. cbn -[filter].
  destruct (decide (is_Some (playerToRoom s !! sid))) as [Hin|Hout].
  { left. eexists. split; [done|]. left. done. }
  apply eq_None_not_Some in Hout.
  destruct (rooms s !! roomCode) as [room|] eqn:Hroom; cbn -[filter].
  2:{ left. eexists. split; [done|]. right. left. done. }
  destruct (decide (status room ≠ WAITING)) as [Hst|Hst]; cbn -[filter].
  { left. eexists. split; [done|]. right. right. split; [done|]. exists room.
    split_and!; [done|exact I|by left]. }
  apply dec_stable in Hst.
  destruct (decide (Z.of_nat (length (players room)) >= maxPlayers room)) as [Hfull|Hfull]; cbn -[filter].
  { left. eexists. split; [done|]. right. right. split; [done|]. exists room.
    split_and!; [done|exact I|by right; left]. }
  destruct (filter (λ color, color ∉ (player_color <$> players room)) PlayerColor_values)
    as [|c rest] eqn:Hfree; cbn -[filter].
  { left. eexists. split; [done|]. right. right. split; [done|]. exists room.
    split_and!; [done|exact I|]. right. right. intros c.
    destruct (decide (c ∈ player_color <$> players room)) as [|Hc]; [done|].
    assert (c ∈ filter (λ color, color ∉ (player_color <$> players room)) PlayerColor_values)
      as Hx.
    { apply list_elem_of_filter. split; [done|]. destruct c; unfold PlayerColor_values;
        rewrite !elem_of_cons; tauto. }
    rewrite Hfree in Hx. by apply elem_of_nil in Hx. }
  right. exists room, c, rest. split_and!; [done..|lia|done|done].
Qed.

(** The room with which [leaveRoom] ends when players remain. *)
Lemma leaveRoom_given (now : Z) (sid : string) (s : ServiceState)
    (roomCode : string) (room : Room) (i : nat) (leaver : Player) :
  playerToRoom s !! sid = Some roomCode →
  rooms s !! roomCode = Some room →
  list_find (λ p, sessionId p = sid) (players room) = Some (i, leaver) →
  leaveRoom now sid s
  = match delete i (players room) with
    | [] =>
        (Ok (None, isAdmin leaver),
         mkService (delete roomCode (rooms s)) (delete sid (playerToRoom s)))
    | first :: others =>
        let room' :=
          set_lastActivity now
            (if isAdmin leaver
             then set_adminId (player_id first)
                    (set_players (set_isAdmin true first :: others)
                       (set_players (first :: others) room))
             else set_players (first :: others) room) in
        (Ok (Some room', isAdmin leaver),
         mkService (<[roomCode := room']> (rooms s)) (delete sid (playerToRoom s)))
    end.
Proof.
  intros Hsid Hroom Hfind. unfold leaveRoom, findIndex. unfold_method.
  cbn -[filter]. rewrite Hsid. cbn -[filter]. rewrite Hroom. cbn -[filter].
  rewrite Hfind. cbn -[filter].
  apply list_find_Some in Hfind as (Hi & _). rewrite Hi. cbn -[filter].
  destruct (delete i (players room)) as [|first others]; cbn -[filter].
  - by rewrite delete_insert_eq.
  - by rewrite insert_insert_eq.
Qed.

Lemma leaveRoom_unbound (now : Z) (sid : string) (s : ServiceState) :
  playerToRoom s !! sid = None →
  leaveRoom now sid s = (Throw (NotFoundException "You are not in any room"), s).
Proof. intros Hsid. unfold leaveRoom. unfold_method. cbn. by rewrite Hsid. Qed.

Lemma updatePlayerColor_given (now : Z) (sid : string) (newColor : PlayerColor)
    (s : ServiceState) (roomCode : string) (room : Room) (i : nat) (player : Player) :
  playerToRoom s !! sid = Some roomCode →
  rooms s !! roomCode = Some room →
  list_find (λ p, sessionId p = sid) (players room) = Some (i, player) →
  updatePlayerColor now sid newColor s
  = if decide (newColor ∈ player_color <$>
                 filter (λ p, player_id p ≠ player_id player) (players room))
    then (Throw (ConflictException "Color already taken"), s)
    else
      let room' :=
        set_lastActivity now
          (set_players (<[i := set_color newColor player]> (players room)) room) in
      (Ok (room', set_color newColor player),
       mkService (<[roomCode := room']> (rooms s)) (playerToRoom s)).
Proof.
  intros Hsid Hroom Hfind. unfold updatePlayerColor. unfold_method.
  cbn -[filter]. rewrite Hsid. cbn -[filter]. rewrite Hroom. cbn -[filter].
  rewrite Hfind. cbn -[filter]. by destruct (decide _).
Qed.

Lemma togglePlayerReady_given (now : Z) (sid : string)
    (s : ServiceState) (roomCode : string) (room : Room) (i : nat) (player : Player) :
  playerToRoom s !! sid = Some roomCode →
  rooms s !! roomCode = Some room →
  list_find (λ p, sessionId p = sid) (players room) = Some (i, player) →
  togglePlayerReady now sid s
  = let player' := set_isReady (negb (isReady player)) player in
    let room' := set_lastActivity now (set_players (<[i := player']> (players room)) room) in
    (Ok (room', player'), mkService (<[roomCode := room']> (rooms s)) (playerToRoom s)).
Proof.
  intros Hsid Hroom Hfind. unfold togglePlayerReady. unfold_method.
  cbn. rewrite Hsid. cbn. rewrite Hroom. cbn. by rewrite Hfind.
Qed.

(** A session of the index is listed by the room it is mapped to. *)
Lemma bound_lookup (s : ServiceState) (sid roomCode : string) :
  indexExact s → playerToRoom s !! sid = Some roomCode →
  ∃ room i player,
    rooms s !! roomCode = Some room
    ∧ list_find (λ p, sessionId p = sid) (players room) = Some (i, player)
    ∧ players room !! i = Some player ∧ sessionId player = sid.
Proof.
  intros Hexact Hsid. destruct (Hexact sid roomCode Hsid) as (room & Hroom & Hin).
  apply list_elem_of_fmap in Hin as (p & Hp & Hin).
  destruct (list_find_elem_of (λ p, sessionId p = sid) (players room) p Hin) as [[i q] Hfind];
    [done|].
  exists room, i, q. split_and!; [done..| |]; by apply list_find_Some in Hfind as (? & ? & _).
Qed.

End RoomEffects.

(* ===================================================================== *)
(** ** The shape of the directory                                         *)
(* ===================================================================== *)

Section Shape.
Import Examples.
Import RoomsService RoomsLookups.

Lemma shape_replace (s : ServiceState) (roomCode : string) (room room' : Room) :
  ShapeInv s → rooms s !! roomCode = Some room → roomShape roomCode room' →
  (∀ sid, sid ∈ (sessionId <$> players room) → sid ∈ (sessionId <$> players room')) →
  ShapeInv (mkService (<[roomCode := room']> (rooms s)) (playerToRoom s)).
Proof.
  intros [Hshape Hexact] Hroom Hshape' Hsessions. split.
  - intros code0 room0 Hlook. cbn [rooms] in Hlook.
    apply lookup_insert_Some in Hlook as [[<- <-]|[Hne Hlook]]; [done|by apply Hshape].
  - intros sid code0 Hsid. cbn [rooms playerToRoom] in *.
    destruct (Hexact sid code0 Hsid) as (room0 & Hroom0 & Hin).
    destruct (decide (code0 = roomCode)) as [->|Hne].
    + exists room'. rewrite lookup_insert_eq. split; [done|].
      apply Hsessions. congruence.
    + exists room0. by rewrite lookup_insert_ne.
Qed.

Lemma shape_replace_bind (s : ServiceState) (roomCode : string) (room' : Room)
    (sid : string) :
  ShapeInv s → roomShape roomCode room' →
  (∀ room sid', rooms s !! roomCode = Some room →
     sid' ∈ (sessionId <$> players room) → sid' ∈ (sessionId <$> players room')) →
  sid ∈ (sessionId <$> players room') →
  ShapeInv (mkService (<[roomCode := room']> (rooms s))
              (<[sid := roomCode]> (playerToRoom s))).
Proof.
  intros [Hshape Hexact] Hshape' Hsessions Hsid. split.
  - intros code0 room0 Hlook. cbn [rooms] in Hlook.
    apply lookup_insert_Some in Hlook as [[<- <-]|[Hne Hlook]]; [done|by apply Hshape].
  - intros sid' code0 Hsid'. cbn [rooms playerToRoom] in *.
    apply lookup_insert_Some in Hsid' as [[<- <-]|[Hne Hsid']].
    + exists room'. by rewrite lookup_insert_eq.
    + destruct (Hexact sid' code0 Hsid') as (room0 & Hroom0 & Hin).
      destruct (decide (code0 = roomCode)) as [->|Hne'].
      * exists room'. rewrite lookup_insert_eq. split; [done|]. by eapply Hsessions.
      * exists room0. by rewrite lookup_insert_ne.
Qed.

Lemma createRoom_shape draws playerId roomId now playerName playerColor maxPlayers sid
    (s : ServiceState) (r : Result Room) (s' : ServiceState) :
  ShapeInv s →
  createRoom draws playerId roomId now playerName playerColor maxPlayers sid s
    = Some (r, s') →
  ShapeInv s'.
Proof.
  intros Hinv. unfold createRoom.
  destruct (decide (is_Some (playerToRoom s !! sid))); [by intros [= <- <-]|].
  destruct (generateRoomCode draws (rooms s)) as [roomCode|] eqn:Hcode; [|done].
  unfold_method. cbn. intros [= <- <-].
  apply generateRoomCode_fresh in Hcode.
  apply shape_replace_bind; [done| | |].
  - split_and!; [done| |by left]. eexists _, []. by split_and!.
  - intros room sid'. by rewrite Hcode.
  - cbn. apply list_elem_of_here.
Qed.

Lemma joinRoom_shape playerId now roomCode playerName sid (s : ServiceState) :
  ShapeInv s → ShapeInv (joinRoom playerId now roomCode playerName sid s).2.
Proof.
  intros Hinv.
  destruct (joinRoom_cases playerId now roomCode playerName sid s)
    as [(e & -> & _)|(room & c & rest & Hsid & Hroom & Hst & Hlen & Hfree & ->)]; [done|].
  cbn [snd]. destruct (proj1 Hinv roomCode room Hroom)
    as (Hcode & (admin & others & Hplayers & Hadmin & Hid & Hothers) & Hgame).
  apply shape_replace_bind; [done| | |].
  - split_and!; [done| |].
    + exists admin, (others ++ [mkPlayer playerId playerName c false false now sid]).
      cbn. rewrite Hplayers. split_and!; [done..|].
      apply Forall_app. split; [done|]. by apply Forall_singleton.
    + cbn. destruct Hgame as [[? ?]|[? ?]]; [by left|congruence].
  - intros room0 sid' Hroom0 Hin. assert (room0 = room) as -> by congruence.
    cbn. rewrite fmap_app. apply elem_of_app. by left.
  - cbn. rewrite fmap_app. apply elem_of_app. right. cbn. apply list_elem_of_here.
Qed.

Lemma shape_players_update (roomCode : string) (room room' : Room) (i : nat)
    (p p' : Player) :
  roomShape roomCode room → players room !! i = Some p →
  isAdmin p' = isAdmin p → player_id p' = player_id p →
  code room' = code room → adminId room' = adminId room →
  players room' = <[i := p']> (players room) →
  ((status room' = WAITING ∧ gameState room' = None)
   ∨ (status room' = PLAYING ∧ is_Some (gameState room'))) →
  roomShape roomCode room'.
Proof.
  intros (Hcode & (admin & others & Hplayers & Hadmin & Hid & Hothers) & _)
    Hi Hadm Hpid Hcode' Hadmin' Hplayers' Hgame.
  split_and!; [congruence| |done].
  rewrite Hplayers', Hplayers, Hadmin'. rewrite Hplayers in Hi.
  destruct i as [|i]; cbn in *.
  - injection Hi as <-. exists p', others. split_and!; congruence.
  - exists admin, (<[i := p']> others). split_and!; [done..|].
    apply Forall_insert; [done|]. rewrite Hadm.
    rewrite Forall_lookup in Hothers. by eapply Hothers.
Qed.

Lemma sessions_update (l : list Player) (i : nat) (p p' : Player) :
  l !! i = Some p → sessionId p' = sessionId p →
  sessionId <$> <[i := p']> l = sessionId <$> l.
Proof.
  intros Hi Hs. rewrite list_fmap_insert. apply list_insert_id.
  by rewrite list_lookup_fmap, Hi, Hs.
Qed.

Lemma updatePlayerColor_shape now sid newColor (s : ServiceState) :
  ShapeInv s → ShapeInv (updatePlayerColor now sid newColor s).2.
Proof.
  intros Hinv.
  destruct (playerToRoom s !! sid) as [roomCode|] eqn:Hsid.
  2:{ unfold updatePlayerColor. unfold_method. cbn. by rewrite Hsid. }
  destruct (bound_lookup s sid roomCode (proj2 Hinv) Hsid)
    as (room & i & player & Hroom & Hfind & Hi & Hses).
  rewrite (updatePlayerColor_given now sid newColor s roomCode room i player) by done.
  destruct (decide _); [done|]. cbn [snd].
  pose proof (proj1 Hinv roomCode room Hroom) as Hshape.
  eapply shape_replace; [done|done| |].
  - apply (shape_players_update _ room _ i player (set_color newColor player)); [done..|].
    cbn. by destruct Hshape as (_ & _ & ?).
  - intros sid'. cbn. by erewrite sessions_update.
Qed.

Lemma togglePlayerReady_shape now sid (s : ServiceState) :
  ShapeInv s → ShapeInv (togglePlayerReady now sid s).2.
Proof.
  intros Hinv.
  destruct (playerToRoom s !! sid) as [roomCode|] eqn:Hsid.
  2:{ unfold togglePlayerReady. unfold_method. cbn. by rewrite Hsid. }
  destruct (bound_lookup s sid roomCode (proj2 Hinv) Hsid)
    as (room & i & player & Hroom & Hfind & Hi & Hses).
  rewrite (togglePlayerReady_given now sid s roomCode room i player) by done.
  cbn [snd].
  pose proof (proj1 Hinv roomCode room Hroom) as Hshape.
  eapply shape_replace; [done|done| |].
  - apply (shape_players_update _ room _ i player
             (set_isReady (negb (isReady player)) player)); [done..|].
    cbn. by destruct Hshape as (_ & _ & ?).
  - intros sid'. cbn. by erewrite sessions_update.
Qed.

Lemma rollDice_state r now sid (s : ServiceState) :
  (rollDice r now sid s).2 = s
  ∨ ∃ roomCode room game d game',
      rooms s !! roomCode = Some room ∧ gameState room = Some game
      ∧ LudoGameService.rollDice r game = Ok (d, game')
      ∧ (rollDice r now sid s).2
        = mkService (<[roomCode := set_lastActivity now (set_gameState (Some game') room)]>
                       (rooms s)) (playerToRoom s).
Proof.
  unfold rollDice. unfold_method. cbn.
  destruct (playerToRoom s !! sid) as [roomCode|] eqn:Hsid; cbn; [|by left].
  destruct (rooms s !! roomCode) as [room|] eqn:Hroom; cbn; [|by left].
  destruct (gameState room) as [game|] eqn:Hgame; cbn; [|by left].
  destruct (find _ (players room)) as [player|]; cbn; [|by left].
  destruct (js_index _ _) as [current|]; cbn; [|by left].
  destruct (decide _); cbn; [by left|].
  destruct (LudoGameService.rollDice r game) as [[d game']|] eqn:Hroll; cbn; [|by left].
  right. by exists roomCode, room, game, d, game'.
Qed.

Lemma moveToken_state now sid tokenId (s : ServiceState) :
  (moveToken now sid tokenId s).2 = s
  ∨ ∃ roomCode room game game',
      rooms s !! roomCode = Some room ∧ gameState room = Some game
      ∧ LudoGameService.moveToken now game tokenId = Ok game'
      ∧ (moveToken now sid tokenId s).2
        = mkService (<[roomCode := set_lastActivity now (set_gameState (Some game') room)]>
                       (rooms s)) (playerToRoom s).
Proof.
  unfold moveToken. unfold_method. cbn.
  destruct (playerToRoom s !! sid) as [roomCode|] eqn:Hsid; cbn; [|by left].
  destruct (rooms s !! roomCode) as [room|] eqn:Hroom; cbn; [|by left].
  destruct (gameState room) as [game|] eqn:Hgame; cbn; [|by left].
  destruct (find _ (players room)) as [player|]; cbn; [|by left].
  destruct (js_index _ _) as [current|]; cbn; [|by left].
  destruct (decide _); cbn; [by left|].
  destruct (LudoGameService.moveToken now game tokenId) as [game'|] eqn:Hmove; cbn; [|by left].
  right. by exists roomCode, room, game, game'.
Qed.

Lemma startGame_state now sid (s : ServiceState) :
  (startGame now sid s).2 = s
  ∨ ∃ roomCode room,
      rooms s !! roomCode = Some room
      ∧ (startGame now sid s).2
        = mkService (<[roomCode :=
                        set_gameState (Some (LudoGameService.initializeGame (players room)))
                          (set_lastActivity now (set_status PLAYING room))]>
                       (rooms s)) (playerToRoom s).
Proof.
  unfold startGame. unfold_method. cbn.
  destruct (playerToRoom s !! sid) as [roomCode|] eqn:Hsid; cbn; [|by left].
  destruct (rooms s !! roomCode) as [room|] eqn:Hroom; cbn; [|by left].
  destruct (find _ (players room)) as [player|]; cbn; [|by left].
  destruct (negb (isAdmin player)); cbn; [by left|].
  destruct (decide _); cbn; [by left|].
  destruct (negb _); cbn; [by left|].
  right. by exists roomCode, room.
Qed.

Lemma shape_game_update (roomCode : string) (room room' : Room) :
  roomShape roomCode room →
  code room' = code room → adminId room' = adminId room →
  players room' = players room →
  ((status room' = WAITING ∧ gameState room' = None)
   ∨ (status room' = PLAYING ∧ is_Some (gameState room'))) →
  roomShape roomCode room'.
Proof.
  intros (Hcode & (admin & others & Hplayers & Hadmin & Hid & Hothers) & _)
    Hcode' Hadmin' Hplayers' Hgame.
  split_and!; [congruence| |done].
  exists admin, others. split_and!; congruence.
Qed.

Lemma rollDice_shape r now sid (s : ServiceState) :
  ShapeInv s → ShapeInv (rollDice r now sid s).2.
Proof.
  intros Hinv.
  destruct (rollDice_state r now sid s)
    as [->|(roomCode & room & game & d & game' & Hroom & Hgame & _ & ->)]; [done|].
  pose proof (proj1 Hinv roomCode room Hroom) as Hshape.
  eapply shape_replace; [done|done| |done].
  apply (shape_game_update _ room); [done..|]. cbn. right.
  destruct Hshape as (_ & _ & [[_ ?]|[? _]]); [congruence|done].
Qed.

Lemma moveToken_shape now sid tokenId (s : ServiceState) :
  ShapeInv s → ShapeInv (moveToken now sid tokenId s).2.
Proof.
  intros Hinv.
  destruct (moveToken_state now sid tokenId s)
    as [->|(roomCode & room & game & game' & Hroom & Hgame & _ & ->)]; [done|].
  pose proof (proj1 Hinv roomCode room Hroom) as Hshape.
  eapply shape_replace; [done|done| |done].
  apply (shape_game_update _ room); [done..|]. cbn. right.
  destruct Hshape as (_ & _ & [[_ ?]|[? _]]); [congruence|done].
Qed.

Lemma startGame_shape now sid (s : ServiceState) :
  ShapeInv s → ShapeInv (startGame now sid s).2.
Proof.
  intros Hinv.
  destruct (startGame_state now sid s) as [->|(roomCode & room & Hroom & ->)]; [done|].
  pose proof (proj1 Hinv roomCode room Hroom) as Hshape.
  eapply shape_replace; [done|done| |done].
  apply (shape_game_update _ room); [done..|]. cbn. by right.
Qed.

Lemma elem_of_delete_other {A} (l : list A) (i : nat) (x y : A) :
  l !! i = Some y → x ∈ l → x ≠ y → x ∈ delete i l.
Proof.
  intros Hi [j Hj]%list_elem_of_lookup Hne.
  destruct (decide (j < i)%nat).
  - apply (list_elem_of_lookup_2 _ j). by rewrite list_lookup_delete_lt.
  - assert (j ≠ i) by (intros ->; congruence).
    apply (list_elem_of_lookup_2 _ (pred j)).
    rewrite list_lookup_delete_ge by lia. by replace (S (pred j)) with j by lia.
Qed.

Lemma leaveRoom_shape now sid (s : ServiceState) :
  ShapeInv s → ShapeInv (leaveRoom now sid s).2.
Proof.
  intros Hinv.
  destruct (playerToRoom s !! sid) as [roomCode|] eqn:Hsid.
  2:{ by rewrite leaveRoom_unbound. }
  destruct (bound_lookup s sid roomCode (proj2 Hinv) Hsid)
    as (room & i & leaver & Hroom & Hfind & Hi & Hses).
  rewrite (leaveRoom_given now sid s roomCode room i leaver) by done.
  destruct Hinv as [Hshape Hexact].
  destruct (Hshape roomCode room Hroom)
    as (Hcode & (admin & others & Hplayers & Hadmin & Hid & Hothers) & Hgame).
  assert (∀ sid', sid' ≠ sid → sid' ∈ (sessionId <$> players room) →
          sid' ∈ (sessionId <$> delete i (players room))) as Hkeep.
  { intros sid' Hne Hin. rewrite list_fmap_delete.
    eapply elem_of_delete_other; [by rewrite list_lookup_fmap, Hi|done|congruence]. }
  assert (∀ sid' code0, delete sid (playerToRoom s) !! sid' = Some code0 →
          sid' ≠ sid ∧ ∃ room0, rooms s !! code0 = Some room0
                                ∧ sid' ∈ (sessionId <$> players room0)) as Hold.
  { intros sid' code0 [Hne Hlook]%lookup_delete_Some. split; [done|]. by apply Hexact. }
  destruct (delete i (players room)) as [|first rest] eqn:Hdel; cbn [snd].
  - split.
    + intros code0 room0 Hlook. cbn [rooms] in Hlook.
      apply lookup_delete_Some in Hlook as [_ Hlook]. by apply Hshape.
    + intros sid' code0 Hlook. cbn [rooms playerToRoom] in *.
      destruct (Hold _ _ Hlook) as (Hne & room0 & Hroom0 & Hin).
      exists room0. split; [|done]. rewrite lookup_delete_ne; [done|].
      intros <-. assert (room0 = room) as -> by congruence.
      specialize (Hkeep sid' Hne Hin). by apply elem_of_nil in Hkeep.
  - assert (roomShape roomCode
              (set_lastActivity now
                 (if isAdmin leaver
                  then set_adminId (player_id first)
                         (set_players (set_isAdmin true first :: rest)
                            (set_players (first :: rest) room))
                  else set_players (first :: rest) room))) as Hshape'.
    { rewrite Hplayers in Hi, Hdel. destruct i as [|i]; cbn in Hi, Hdel.
      - injection Hi as <-. rewrite Hadmin. subst others.
        split_and!; [done| |done].
        exists (set_isAdmin true first), rest. split_and!; [done..|].
        by apply Forall_cons in Hothers as [_ ?].
      - injection Hdel as <- <-.
        assert (isAdmin leaver = false) as ->.
        { rewrite Forall_lookup in Hothers. by eapply Hothers. }
        split_and!; [done| |done].
        exists admin, (delete i others). split_and!; [done..|].
        by apply Forall_delete. }
    split.
    + intros code0 room0 Hlook. cbn [rooms] in Hlook.
      apply lookup_insert_Some in Hlook as [[<- <-]|[Hne Hlook]]; [done|by apply Hshape].
    + intros sid' code0 Hlook. cbn [rooms playerToRoom] in *.
      destruct (Hold _ _ Hlook) as (Hne & room0 & Hroom0 & Hin).
      destruct (decide (code0 = roomCode)) as [->|Hne'].
      * eexists. rewrite lookup_insert_eq. split; [done|].
        assert (room0 = room) as -> by congruence.
        specialize (Hkeep sid' Hne Hin).
        by destruct (isAdmin leaver).
      * exists room0. by rewrite lookup_insert_ne.
Qed.

Lemma exec_shape (c : Command) (s s' : ServiceState) :
  ShapeInv s → exec c s = Some s' → ShapeInv s'.
Proof.
  intros Hinv Hexec. destruct c; simpl in Hexec.
  - destruct (createRoom _ _ _ _ _ _ _ _ s) as [[r s'']|] eqn:Hc; [|done].
    injection Hexec as <-. by eapply createRoom_shape.
  - injection Hexec as <-. by apply joinRoom_shape.
  - injection Hexec as <-. by apply leaveRoom_shape.
  - injection Hexec as <-. by apply updatePlayerColor_shape.
  - injection Hexec as <-. by apply togglePlayerReady_shape.
  - injection Hexec as <-. by apply startGame_shape.
  - injection Hexec as <-. by apply rollDice_shape.
  - injection Hexec as <-. by apply moveToken_shape.
Qed.

Lemma reachable_shape (s : ServiceState) : reachable s → ShapeInv s.
Proof.
  induction 1 as [|s c s' _ IH _ Hexec].
  - split.
    + intros roomCode room Hlook. cbn [rooms emptyService] in Hlook.
      by rewrite lookup_empty in Hlook.
    + intros sid roomCode Hlook. cbn [playerToRoom emptyService] in Hlook.
      by rewrite lookup_empty in Hlook.
  - by eapply exec_shape.
Qed.

(** X12. Every room of the directory is filed under its own code and has
    between one and four players; the first of them is its admin, known
    by [adminId], and no other player is admin.  The room is Waiting
    and holds no game, or Playing and holds one: its status never
    becomes Finished, whatever happens in the game. *)
Theorem rooms_are_well_formed (s : ServiceState) (roomCode : string) (room : Room) :
  reachable s → rooms s !! roomCode = Some room →
  code room = roomCode
  ∧ (∃ admin others,
       players room = admin :: others ∧ isAdmin admin = true
       ∧ adminId room = player_id admin
       ∧ Forall (λ p, isAdmin p = false) others)
  ∧ (1 ≤ length (players room) ≤ 4)%nat
  ∧ ((status room = WAITING ∧ gameState room = None)
     ∨ (status room = PLAYING ∧ is_Some (gameState room)))
  ∧ status room ≠ FINISHED.
Proof.
  intros Hreach Hroom.
  destruct (reachable_shape s Hreach) as [Hshape _].
  destruct (Hshape roomCode room Hroom) as (Hcode & Hadmin & Hgame).
  destruct (reachable_inv s Hreach roomCode room Hroom) as (Hcolors & _).
  apply colors_at_most_four in Hcolors. rewrite length_fmap in Hcolors.
  split_and!; [done|done| |done|done|].
  - destruct Hadmin as (admin & others & -> & _). simpl. lia.
  - destruct Hgame as [[-> _]|[-> _]]; done.
Qed.

Lemma rooms_are_well_formed_witness :
  code lobbyRoom = "ABCD-1234"
  ∧ (∃ admin others,
       players lobbyRoom = admin :: others ∧ isAdmin admin = true
       ∧ adminId lobbyRoom = player_id admin
       ∧ Forall (λ p, isAdmin p = false) others)
  ∧ (1 ≤ length (players lobbyRoom) ≤ 4)%nat
  ∧ ((status lobbyRoom = WAITING ∧ gameState lobbyRoom = None)
     ∨ (status lobbyRoom = PLAYING ∧ is_Some (gameState lobbyRoom)))
  ∧ status lobbyRoom ≠ FINISHED.
Proof.
  apply (rooms_are_well_formed lobby "ABCD-1234" lobbyRoom).
  - apply lobby_reachable.
  - vm_compute. reflexivity.
Defined.

End Shape.

(* ===================================================================== *)
(** ** Sessions, lookups and the life of a room                           *)
(* ===================================================================== *)

Section Directory.
Import Examples MoreRooms.
Import RoomsService RoomsLookups.

Lemma table_reachable : reachable table.
Proof. apply stackedDefenders_stored. Qed.

Lemma table_room : rooms table !! "ABCD-1234" = Some tableRoom.
Proof. vm_compute. reflexivity. Qed.

Lemma session_owner_unique (s : ServiceState) (roomCode : string) (room : Room)
    (p q : Player) :
  DirectoryInv s → rooms s !! roomCode = Some room →
  p ∈ players room → q ∈ players room → sessionId p = sessionId q → p = q.
Proof.
  intros Hinv Hroom Hp Hq Hs.
  destruct (Hinv roomCode room Hroom) as (_ & _ & Hnd & _).
  by eapply NoDup_fmap_eq.
Qed.

Lemma unbound_not_listed (s : ServiceState) (sid : string) :
  DirectoryInv s → playerToRoom s !! sid = None → ¬ sessionBound s sid.
Proof.
  intros Hinv Hnone [[? Hsome]|(roomCode & room & p & Hroom & Hp & Hs)]; [congruence|].
  destruct (Hinv roomCode room Hroom) as (_ & _ & _ & Hidx & _).
  rewrite Hidx in Hnone; [done|]. apply list_elem_of_fmap. by exists p.
Qed.

(** X13. The index of sessions is exact.  A session that a room lists
    is mapped to that room, so a session is in one room at most; and a
    session mapped to a room code is listed by the room of that code:
    [getRoom], [getRoomBySessionId] and [getPlayerBySessionId] then find
    the room and the one player of the session.  A session that is not
    mapped is in no room, and both lookups return null. *)
Theorem sessions_are_indexed (s : ServiceState) (sid : string) :
  reachable s →
  (∀ roomCode room p,
     rooms s !! roomCode = Some room → p ∈ players room → sessionId p = sid →
     playerToRoom s !! sid = Some roomCode)
  ∧ (∀ roomCode,
       playerToRoom s !! sid = Some roomCode → roomCode ≠ EmptyString →
       ∃ room p,
         getRoom roomCode s = (Ok room, s)
         ∧ getRoomBySessionId sid s = Some room
         ∧ getPlayerBySessionId sid s = Some p
         ∧ code room = roomCode
         ∧ p ∈ players room ∧ sessionId p = sid
         ∧ ∀ q, q ∈ players room → sessionId q = sid → q = p)
  ∧ (playerToRoom s !! sid = None →
     getRoomBySessionId sid s = None ∧ getPlayerBySessionId sid s = None
     ∧ ¬ sessionBound s sid).
Proof.
  intros Hreach.
  pose proof (reachable_inv s Hreach) as Hinv.
  destruct (reachable_shape s Hreach) as [Hshape Hexact].
  split_and!.
  - intros roomCode room p Hroom Hp Hs.
    destruct (Hinv roomCode room Hroom) as (_ & _ & _ & Hidx & _).
    apply Hidx, list_elem_of_fmap. by exists p.
  - intros roomCode Hsid Hne.
    destruct (bound_lookup s sid roomCode Hexact Hsid)
      as (room & i & p & Hroom & Hfind & Hi & Hs).
    exists room, p.
    assert (getRoomBySessionId sid s = Some room) as Hget.
    { unfold getRoomBySessionId, nonEmpty. rewrite Hsid. by rewrite decide_False. }
    split_and!.
    + unfold getRoom. unfold_method. cbn. by rewrite Hroom.
    + done.
    + unfold getPlayerBySessionId, find. by rewrite Hget, Hfind.
    + by destruct (Hshape roomCode room Hroom).
    + by eapply list_elem_of_lookup_2.
    + done.
    + intros q Hq Hsq. eapply session_owner_unique; [done..| |congruence].
      by eapply list_elem_of_lookup_2.
  - intros Hnone.
    assert (getRoomBySessionId sid s = None) as Hget.
    { unfold getRoomBySessionId. by rewrite Hnone. }
    split_and!; [done| |by apply unbound_not_listed].
    unfold getPlayerBySessionId. by rewrite Hget.
Qed.

Lemma sessions_are_indexed_witness :
  (∀ roomCode room p,
     rooms lobby !! roomCode = Some room → p ∈ players room → sessionId p = "s-2" →
     playerToRoom lobby !! "s-2" = Some roomCode)
  ∧ (∀ roomCode,
       playerToRoom lobby !! "s-2" = Some roomCode → roomCode ≠ EmptyString →
       ∃ room p,
         getRoom roomCode lobby = (Ok room, lobby)
         ∧ getRoomBySessionId "s-2" lobby = Some room
         ∧ getPlayerBySessionId "s-2" lobby = Some p
         ∧ code room = roomCode
         ∧ p ∈ players room ∧ sessionId p = "s-2"
         ∧ ∀ q, q ∈ players room → sessionId q = "s-2" → q = p)
  ∧ (playerToRoom lobby !! "s-2" = None →
     getRoomBySessionId "s-2" lobby = None ∧ getPlayerBySessionId "s-2" lobby = None
     ∧ ¬ sessionBound lobby "s-2").
Proof. apply (sessions_are_indexed lobby "s-2"), lobby_reachable. Defined.

Lemma filter_all {A} (P : A → Prop) `{∀ x, Decision (P x)} (l : list A) :
  Forall P l → filter P l = l.
Proof.
  induction 1 as [|x l Hx _ IH]; [done|].
  by rewrite filter_cons, decide_True, IH.
Qed.

Lemma delete_as_filter {A B} `{EqDecision B} (f : A → B) (l : list A) (i : nat) (x : A) :
  NoDup (f <$> l) → l !! i = Some x →
  delete i l = filter (λ y, f y ≠ f x) l.
Proof.
  revert i. induction l as [|a l IH]; intros i Hnd Hi; [done|].
  rewrite fmap_cons in Hnd. apply NoDup_cons in Hnd as [Hnotin Hnd].
  destruct i as [|i]; cbn in Hi.
  - injection Hi as ->. cbn -[filter]. rewrite filter_cons, decide_False by (intros Hne; by apply Hne).
    symmetry. apply filter_all. apply Forall_forall. intros y Hy Heq.
    apply Hnotin. rewrite <- Heq. apply list_elem_of_fmap. by exists y.
  - cbn -[filter]. rewrite filter_cons, decide_True.
    + f_equal. by apply IH.
    + intros Heq. apply Hnotin. rewrite Heq. apply list_elem_of_fmap.
      exists x. split; [done|]. by eapply list_elem_of_lookup_2.
Qed.

(** X14. [leaveRoom] for a session that is in no room throws NotFound
    and changes nothing.  For a session that is in a room it returns:
    the session is in no room afterwards, the other sessions and the
    other rooms are as before, and the room keeps the other players in
    their order, its status and its game, also in the middle of a game.
    The room is deleted exactly when the leaver was its only player;
    otherwise its first player is its admin afterwards, so the admin
    role goes to the first remaining player when the admin leaves. *)
Theorem leaveRoom_spec (now : Z) (sid : string) (s : ServiceState) :
  reachable s →
  (playerToRoom s !! sid = None →
   leaveRoom now sid s = (Throw (NotFoundException "You are not in any room"), s))
  ∧ (∀ roomCode, playerToRoom s !! sid = Some roomCode →
     ∃ room leaver result s',
       rooms s !! roomCode = Some room
       ∧ leaver ∈ players room ∧ sessionId leaver = sid
       ∧ leaveRoom now sid s = (Ok (result, isAdmin leaver), s')
       ∧ ¬ sessionBound s' sid
       ∧ (∀ sid', sid' ≠ sid → playerToRoom s' !! sid' = playerToRoom s !! sid')
       ∧ (∀ code', code' ≠ roomCode → rooms s' !! code' = rooms s !! code')
       ∧ rooms s' !! roomCode = result
       ∧ (result = None ↔ players room = [leaver])
       ∧ (∀ room', result = Some room' →
            player_id <$> players room'
            = player_id <$> filter (λ p, sessionId p ≠ sid) (players room)
            ∧ (∃ first others,
                 players room' = first :: others ∧ isAdmin first = true
                 ∧ adminId room' = player_id first
                 ∧ Forall (λ p, isAdmin p = false) others)
            ∧ status room' = status room ∧ gameState room' = gameState room
            ∧ lastActivity room' = now)).
Proof.
  intros Hreach. split; [apply leaveRoom_unbound|].
  intros roomCode Hsid.
  pose proof (reachable_inv s Hreach) as Hinv.
  destruct (reachable_shape s Hreach) as [Hshape Hexact].
  destruct (bound_lookup s sid roomCode Hexact Hsid)
    as (room & i & leaver & Hroom & Hfind & Hi & Hs).
  assert (reachable (leaveRoom now sid s).2) as Hreach'.
  { by apply (reachable_step s (LeaveRoom now sid)). }
  pose proof (reachable_inv _ Hreach') as Hinv'.
  pose proof (reachable_shape _ Hreach') as [Hshape' _].
  destruct (Hinv roomCode room Hroom) as (_ & _ & Hnd & _).
  pose proof (delete_as_filter sessionId (players room) i leaver Hnd Hi) as Hdel.
  rewrite Hs in Hdel.
  revert Hinv' Hshape'.
  rewrite (leaveRoom_given now sid s roomCode room i leaver) by done.
  destruct (delete i (players room)) as [|first rest] eqn:Hrest; cbn [snd];
    intros Hinv' Hshape'; exists room, leaver; eexists _, _.
  - split_and!; [done|by eapply list_elem_of_lookup_2|done|done|..].
    + apply unbound_not_listed; [done|]. cbn. apply lookup_delete_eq.
    + intros sid' Hne. cbn. by rewrite lookup_delete_ne.
    + intros code' Hne. cbn. by rewrite lookup_delete_ne.
    + cbn. apply lookup_delete_eq.
    + split; [intros _|done].
      destruct (players room) as [|a [|b l]]; destruct i; cbn in *; congruence.
    + done.
  - split_and!; [done|by eapply list_elem_of_lookup_2|done|done|..].
    + apply unbound_not_listed; [done|]. cbn. apply lookup_delete_eq.
    + intros sid' Hne. cbn. by rewrite lookup_delete_ne.
    + intros code' Hne. cbn. by rewrite lookup_insert_ne.
    + cbn. apply lookup_insert_eq.
    + split; [done|]. intros Hone. rewrite Hone in Hrest, Hi.
      destruct i as [|i]; cbn in Hrest, Hi; [congruence|].
      by destruct i.
    + intros room' [= <-].
      specialize (Hshape' roomCode _ (lookup_insert_eq _ _ _)).
      destruct Hshape' as (_ & Hadmin & _).
      split_and!; [|done|by destruct (isAdmin leaver)..].
      rewrite <- Hdel. by destruct (isAdmin leaver).
Qed.

Lemma leaveRoom_spec_witness :
  (playerToRoom lobby !! "s-1" = None →
   leaveRoom 5 "s-1" lobby = (Throw (NotFoundException "You are not in any room"), lobby))
  ∧ (∀ roomCode, playerToRoom lobby !! "s-1" = Some roomCode →
     ∃ room leaver result s',
       rooms lobby !! roomCode = Some room
       ∧ leaver ∈ players room ∧ sessionId leaver = "s-1"
       ∧ leaveRoom 5 "s-1" lobby = (Ok (result, isAdmin leaver), s')
       ∧ ¬ sessionBound s' "s-1"
       ∧ (∀ sid', sid' ≠ "s-1" → playerToRoom s' !! sid' = playerToRoom lobby !! sid')
       ∧ (∀ code', code' ≠ roomCode → rooms s' !! code' = rooms lobby !! code')
       ∧ rooms s' !! roomCode = result
       ∧ (result = None ↔ players room = [leaver])
       ∧ (∀ room', result = Some room' →
            player_id <$> players room'
            = player_id <$> filter (λ p, sessionId p ≠ "s-1") (players room)
            ∧ (∃ first others,
                 players room' = first :: others ∧ isAdmin first = true
                 ∧ adminId room' = player_id first
                 ∧ Forall (λ p, isAdmin p = false) others)
            ∧ status room' = status room ∧ gameState room' = gameState room
            ∧ lastActivity room' = 5)).
Proof. apply (leaveRoom_spec 5 "s-1" lobby), lobby_reachable. Defined.

Lemma filter_first {A} (P : A → Prop) `{∀ x, Decision (P x)} (l : list A)
    (c : A) (rest : list A) :
  filter P l = c :: rest →
  ∃ before after, l = before ++ c :: after ∧ Forall (λ x, ¬ P x) before ∧ P c.
Proof.
  induction l as [|a l IH]; [done|]. rewrite filter_cons.
  destruct (decide (P a)) as [Ha|Ha].
  - intros [= -> _]. by exists [], l.
  - intros (before & after & -> & Hbefore & Hc)%IH.
    exists (a :: before), after. split_and!; [done| |done]. by apply Forall_cons.
Qed.

(** X15. [joinRoom] either throws and changes nothing, or returns.  It
    throws Conflict for a session that is already in a room, NotFound
    for an unknown code and BadRequest for a room that is not Waiting,
    is full or has no color left.  When it returns, the new player is
    appended to the room, not ready and not admin, with the first color
    in the order red, blue, green, yellow that no player of the room
    has; the room is stored and the session is mapped to it. *)
Theorem joinRoom_spec (playerId : string) (now : Z) (roomCode playerName sid : string)
    (s : ServiceState) :
  (∀ e s', joinRoom playerId now roomCode playerName sid s = (Throw e, s') →
     s' = s
     ∧ ((is_Some (playerToRoom s !! sid) ∧ isConflict e)
        ∨ (playerToRoom s !! sid = None ∧ rooms s !! roomCode = None
           ∧ e = NotFoundException "Room not found")
        ∨ (playerToRoom s !! sid = None
           ∧ ∃ room, rooms s !! roomCode = Some room ∧ isIllegalAction e
               ∧ (status room ≠ WAITING
                  ∨ Z.of_nat (length (players room)) >= maxPlayers room
                  ∨ ∀ c, c ∈ (player_color <$> players room)))))
  ∧ (∀ room' p s', joinRoom playerId now roomCode playerName sid s = (Ok (room', p), s') →
     ∃ room before after,
       playerToRoom s !! sid = None
       ∧ rooms s !! roomCode = Some room ∧ status room = WAITING
       ∧ Z.of_nat (length (players room)) < maxPlayers room
       ∧ p = mkPlayer playerId playerName (player_color p) false false now sid
       ∧ PlayerColor_values = before ++ player_color p :: after
       ∧ Forall (λ c, c ∈ (player_color <$> players room)) before
       ∧ ¬ (player_color p ∈ (player_color <$> players room))
       ∧ room' = set_lastActivity now (set_players (players room ++ [p]) room)
       ∧ s' = mkService (<[roomCode := room']> (rooms s))
                (<[sid := roomCode]> (playerToRoom s))).
Proof.
  destruct (joinRoom_cases playerId now roomCode playerName sid s)
    as [(e & Heq & Hwhy)|(room & c & rest & Hsid & Hroom & Hst & Hlen & Hfree & Heq)].
  - rewrite Heq. split; [|done]. by intros e' s' [= <- <-].
  - cbv zeta in Heq. rewrite Heq. split; [done|]. intros room' p s' [= <- <- <-].
    apply filter_first in Hfree as (before & after & Hvalues & Hbefore & Hc).
    exists room, before, after. split_and!; [done..| |done|done|done].
    eapply Forall_impl; [done|]. intros c' Hc'. cbn in Hc'.
    by apply dec_stable in Hc'.
Qed.

(** X16. [updatePlayerColor] for a session that is in a room throws
    Conflict, changing nothing, exactly when another player of the room
    has the color asked for; the player's own color is accepted.  When
    it returns, only the color of that player has changed: the other
    players, the status and the game of the room are as before, also
    when a game is being played. *)
Theorem updatePlayerColor_spec (now : Z) (sid : string) (newColor : PlayerColor)
    (s : ServiceState) (roomCode : string) :
  reachable s → playerToRoom s !! sid = Some roomCode →
  ∃ room i player,
    rooms s !! roomCode = Some room
    ∧ players room !! i = Some player ∧ sessionId player = sid
    ∧ ((∃ other, other ∈ players room ∧ other ≠ player ∧ player_color other = newColor) →
       updatePlayerColor now sid newColor s
       = (Throw (ConflictException "Color already taken"), s))
    ∧ ((∀ other, other ∈ players room → other ≠ player → player_color other ≠ newColor) →
       ∃ room',
         updatePlayerColor now sid newColor s
         = (Ok (room', set_color newColor player),
            mkService (<[roomCode := room']> (rooms s)) (playerToRoom s))
         ∧ players room' = <[i := set_color newColor player]> (players room)
         ∧ status room' = status room ∧ gameState room' = gameState room
         ∧ adminId room' = adminId room ∧ lastActivity room' = now).
Proof.
  intros Hreach Hsid.
  pose proof (reachable_inv s Hreach) as Hinv.
  destruct (reachable_shape s Hreach) as [Hshape Hexact].
  destruct (bound_lookup s sid roomCode Hexact Hsid)
    as (room & i & player & Hroom & Hfind & Hi & Hs).
  destruct (Hinv roomCode room Hroom) as (_ & Hids & _).
  assert (player ∈ players room) as Hin by by eapply list_elem_of_lookup_2.
  exists room, i, player. split_and!; [done..| |].
  - intros (other & Hother & Hne & Hcolor).
    rewrite (updatePlayerColor_given now sid newColor s roomCode room i player) by done.
    rewrite decide_True; [done|].
    apply list_elem_of_fmap. exists other. split; [done|].
    apply list_elem_of_filter. split; [|done].
    intros Hid. apply Hne. by eapply NoDup_fmap_eq.
  - intros Hfree.
    rewrite (updatePlayerColor_given now sid newColor s roomCode room i player) by done.
    rewrite decide_False.
    + eexists. by split_and!.
    + intros (other & Hcolor & [Hid Hother]%list_elem_of_filter)%list_elem_of_fmap.
      apply (Hfree other); [done| |done]. by intros ->.
Qed.

Lemma updatePlayerColor_spec_witness :
  ∃ room i player,
    rooms lobby !! "ABCD-1234" = Some room
    ∧ players room !! i = Some player ∧ sessionId player = "s-2"
    ∧ ((∃ other, other ∈ players room ∧ other ≠ player ∧ player_color other = GREEN) →
       updatePlayerColor 3 "s-2" GREEN lobby
       = (Throw (ConflictException "Color already taken"), lobby))
    ∧ ((∀ other, other ∈ players room → other ≠ player → player_color other ≠ GREEN) →
       ∃ room',
         updatePlayerColor 3 "s-2" GREEN lobby
         = (Ok (room', set_color GREEN player),
            mkService (<[ "ABCD-1234" := room']> (rooms lobby)) (playerToRoom lobby))
         ∧ players room' = <[i := set_color GREEN player]> (players room)
         ∧ status room' = status room ∧ gameState room' = gameState room
         ∧ adminId room' = adminId room ∧ lastActivity room' = 3).
Proof.
  apply (updatePlayerColor_spec 3 "s-2" GREEN lobby "ABCD-1234").
  - apply lobby_reachable.
  - vm_compute. reflexivity.
Defined.

(** X17. [togglePlayerReady] flips the ready flag of the caller and of
    nobody else, and calling it twice gives the room its players back
    as they were: after the second call the room differs from the first
    one in its time of last activity only. *)
Theorem togglePlayerReady_twice (now1 now2 : Z) (sid : string) (s : ServiceState)
    (roomCode : string) :
  reachable s → playerToRoom s !! sid = Some roomCode →
  ∃ room i player room1 s1,
    rooms s !! roomCode = Some room
    ∧ players room !! i = Some player ∧ sessionId player = sid
    ∧ togglePlayerReady now1 sid s
      = (Ok (room1, set_isReady (negb (isReady player)) player), s1)
    ∧ players room1 = <[i := set_isReady (negb (isReady player)) player]> (players room)
    ∧ rooms s1 !! roomCode = Some room1
    ∧ togglePlayerReady now2 sid s1
      = (Ok (set_lastActivity now2 room, player),
         mkService (<[roomCode := set_lastActivity now2 room]> (rooms s))
           (playerToRoom s)).
Proof.
  intros Hreach Hsid.
  destruct (reachable_shape s Hreach) as [Hshape Hexact].
  destruct (bound_lookup s sid roomCode Hexact Hsid)
    as (room & i & player & Hroom & Hfind & Hi & Hs).
  exists room, i, player. eexists _, _.
  rewrite (togglePlayerReady_given now1 sid s roomCode room i player) by done.
  cbv zeta. split_and!; [done..|by cbn; rewrite lookup_insert_eq|].
  apply list_find_Some in Hfind as (_ & _ & Hfirst).
  assert (i < length (players room))%nat as Hlt by by eapply lookup_lt_Some.
  rewrite (togglePlayerReady_given now2 sid _ roomCode
             (set_lastActivity now1
                (set_players (<[i := set_isReady (negb (isReady player)) player]>
                                (players room)) room)) i
             (set_isReady (negb (isReady player)) player)).
  - cbv zeta. cbn. rewrite insert_insert_eq, list_insert_insert_eq, negb_involutive.
    destruct player, room. cbn in *. by rewrite list_insert_id.
  - done.
  - cbn. by rewrite lookup_insert_eq.
  - cbn. apply list_find_Some. split_and!.
    + by apply list_lookup_insert_eq.
    + done.
    + intros j y Hj Hji. rewrite list_lookup_insert_ne in Hj by lia. by eapply Hfirst.
Qed.

Lemma togglePlayerReady_twice_witness :
  ∃ room i player room1 s1,
    rooms lobby !! "ABCD-1234" = Some room
    ∧ players room !! i = Some player ∧ sessionId player = "s-2"
    ∧ togglePlayerReady 6 "s-2" lobby
      = (Ok (room1, set_isReady (negb (isReady player)) player), s1)
    ∧ players room1 = <[i := set_isReady (negb (isReady player)) player]> (players room)
    ∧ rooms s1 !! "ABCD-1234" = Some room1
    ∧ togglePlayerReady 7 "s-2" s1
      = (Ok (set_lastActivity 7 room, player),
         mkService (<[ "ABCD-1234" := set_lastActivity 7 room]> (rooms lobby))
           (playerToRoom lobby)).
Proof.
  apply (togglePlayerReady_twice 6 7 "s-2" lobby "ABCD-1234").
  - apply lobby_reachable.
  - vm_compute. reflexivity.
Defined.

Lemma rollDice_given (r : Q) (now : Z) (sid : string) (s : ServiceState)
    (roomCode : string) (room : Room) (game : GameState) (i : nat) (player : Player) :
  playerToRoom s !! sid = Some roomCode →
  rooms s !! roomCode = Some room → gameState room = Some game →
  list_find (λ p, sessionId p = sid) (players room) = Some (i, player) →
  rollDice r now sid s
  = match js_index (players room) (currentTurnPlayerIndex game) with
    | None => (Throw TypeError, s)
    | Some current =>
        if decide (player_id current ≠ player_id player)
        then (Throw (BadRequestException "Not your turn"), s)
        else
          match LudoGameService.rollDice r game with
          | Throw e => (Throw e, s)
          | Ok (_, game') =>
              let room' := set_lastActivity now (set_gameState (Some game') room) in
              (Ok room', mkService (<[roomCode := room']> (rooms s)) (playerToRoom s))
          end
    end.
Proof.
  intros Hsid Hroom Hgame Hfind. unfold rollDice, find. unfold_method.
  cbn. rewrite Hsid. cbn. rewrite Hroom. cbn. rewrite Hgame. cbn. rewrite Hfind. cbn.
  destruct (js_index _ _); cbn; [|done].
  destruct (decide _); cbn; [done|].
  by destruct (LudoGameService.rollDice r game) as [[d game']|].
Qed.

Lemma moveToken_given (now : Z) (sid tokenId : string) (s : ServiceState)
    (roomCode : string) (room : Room) (game : GameState) (i : nat) (player : Player) :
  playerToRoom s !! sid = Some roomCode →
  rooms s !! roomCode = Some room → gameState room = Some game →
  list_find (λ p, sessionId p = sid) (players room) = Some (i, player) →
  moveToken now sid tokenId s
  = match js_index (players room) (currentTurnPlayerIndex game) with
    | None => (Throw TypeError, s)
    | Some current =>
        if decide (player_id current ≠ player_id player)
        then (Throw (BadRequestException "Not your turn"), s)
        else
          match LudoGameService.moveToken now game tokenId with
          | Throw e => (Throw e, s)
          | Ok game' =>
              let room' := set_lastActivity now (set_gameState (Some game') room) in
              (Ok room', mkService (<[roomCode := room']> (rooms s)) (playerToRoom s))
          end
    end.
Proof.
  intros Hsid Hroom Hgame Hfind. unfold moveToken, find. unfold_method.
  cbn. rewrite Hsid. cbn. rewrite Hroom. cbn. rewrite Hgame. cbn. rewrite Hfind. cbn.
  destruct (js_index _ _); cbn; [|done].
  destruct (decide _); cbn; [done|].
  by destruct (LudoGameService.moveToken now game tokenId) as [game'|].
Qed.

Lemma js_index_elem {A} (l : list A) (n : jsnum) (x : A) :
  js_index l n = Some x → x ∈ l.
Proof.
  destruct n as [z|]; [|done]. simpl. destruct (decide (0 ≤ z)); [|done].
  apply list_elem_of_lookup_2.
Qed.

(** X18. In a room that holds a game, the directory lets the player at
    the position of the turn index in the list of players act, and
    nobody else.  For any other player of the room [rollDice] and
    [moveToken] throw BadRequest and change nothing; the player at that
    position gets the answer of the engine, and a new game state is
    stored with the time of the request while everything else stays.
    When players have left and the list has no player at the turn
    index, both requests fail on the missing player. *)
Theorem only_the_player_at_turn_acts (r : Q) (now : Z) (sid tokenId : string)
    (s : ServiceState) (roomCode : string) (room : Room) (game : GameState) :
  reachable s → playerToRoom s !! sid = Some roomCode →
  rooms s !! roomCode = Some room → gameState room = Some game →
  ∃ player,
    player ∈ players room ∧ sessionId player = sid
    ∧ (js_index (players room) (currentTurnPlayerIndex game) = None →
       rollDice r now sid s = (Throw TypeError, s)
       ∧ moveToken now sid tokenId s = (Throw TypeError, s))
    ∧ (∀ other,
         js_index (players room) (currentTurnPlayerIndex game) = Some other →
         other ≠ player →
         rollDice r now sid s = (Throw (BadRequestException "Not your turn"), s)
         ∧ moveToken now sid tokenId s
           = (Throw (BadRequestException "Not your turn"), s))
    ∧ (js_index (players room) (currentTurnPlayerIndex game) = Some player →
       rollDice r now sid s
       = match LudoGameService.rollDice r game with
         | Throw e => (Throw e, s)
         | Ok (_, game') =>
             let room' := set_lastActivity now (set_gameState (Some game') room) in
             (Ok room', mkService (<[roomCode := room']> (rooms s)) (playerToRoom s))
         end
       ∧ moveToken now sid tokenId s
         = match LudoGameService.moveToken now game tokenId with
           | Throw e => (Throw e, s)
           | Ok game' =>
               let room' := set_lastActivity now (set_gameState (Some game') room) in
               (Ok room', mkService (<[roomCode := room']> (rooms s)) (playerToRoom s))
           end).
Proof.
  intros Hreach Hsid Hroom Hgame.
  pose proof (reachable_inv s Hreach) as Hinv.
  destruct (reachable_shape s Hreach) as [Hshape Hexact].
  destruct (bound_lookup s sid roomCode Hexact Hsid)
    as (room0 & i & player & Hroom0 & Hfind & Hi & Hs).
  assert (room0 = room) as -> by congruence.
  destruct (Hinv roomCode room Hroom) as (_ & Hids & _).
  assert (player ∈ players room) as Hin by by eapply list_elem_of_lookup_2.
  rewrite (rollDice_given r now sid s roomCode room game i player) by done.
  rewrite (moveToken_given now sid tokenId s roomCode room game i player) by done.
  exists player. split_and!; [done..| | |].
  - by intros ->.
  - intros other Hcur Hne.
    assert (player_id other ≠ player_id player) as Hid.
    { intros Hid. apply Hne.
      apply (NoDup_fmap_eq player_id (players room)); [done| |done|done].
      by eapply js_index_elem. }
    by rewrite Hcur, !decide_True.
  - intros ->. rewrite !decide_False; [done|by intros Hne..].
Qed.

Lemma only_the_player_at_turn_acts_witness :
  ∃ player,
    player ∈ players tableRoom ∧ sessionId player = "s-2"
    ∧ (js_index (players tableRoom) (currentTurnPlayerIndex stackedDefenders) = None →
       rollDice 0 9 "s-2" table = (Throw TypeError, table)
       ∧ moveToken 9 "s-2" "red-0" table = (Throw TypeError, table))
    ∧ (∀ other,
         js_index (players tableRoom) (currentTurnPlayerIndex stackedDefenders)
         = Some other →
         other ≠ player →
         rollDice 0 9 "s-2" table = (Throw (BadRequestException "Not your turn"), table)
         ∧ moveToken 9 "s-2" "red-0" table
           = (Throw (BadRequestException "Not your turn"), table))
    ∧ (js_index (players tableRoom) (currentTurnPlayerIndex stackedDefenders)
       = Some player →
       rollDice 0 9 "s-2" table
       = match LudoGameService.rollDice 0 stackedDefenders with
         | Throw e => (Throw e, table)
         | Ok (_, game') =>
             let room' := set_lastActivity 9 (set_gameState (Some game') tableRoom) in
             (Ok room', mkService (<[ "ABCD-1234" := room']> (rooms table))
                          (playerToRoom table))
         end
       ∧ moveToken 9 "s-2" "red-0" table
         = match LudoGameService.moveToken 9 stackedDefenders "red-0" with
           | Throw e => (Throw e, table)
           | Ok game' =>
               let room' := set_lastActivity 9 (set_gameState (Some game') tableRoom) in
               (Ok room', mkService (<[ "ABCD-1234" := room']> (rooms table))
                            (playerToRoom table))
           end).
Proof.
  apply (only_the_player_at_turn_acts 0 9 "s-2" "red-0" table "ABCD-1234" tableRoom
           stackedDefenders).
  - apply table_reachable.
  - vm_compute. reflexivity.
  - apply table_room.
  - reflexivity.
Defined.

(** X20. The directory's [getValidMoves] only reads: whatever it
    answers, the directory is as before.  For a session that is in no
    room it throws NotFound; for a session in a room it throws NotFound
    exactly while the room is Waiting, and in a Playing room it returns
    what the engine lists for the caller's present color in the stored
    game. *)
Theorem getValidMoves_only_reads (sid : string) (s : ServiceState) :
  reachable s →
  (∀ r s', getValidMoves sid s = (r, s') → s' = s)
  ∧ (playerToRoom s !! sid = None →
     getValidMoves sid s = (Throw (NotFoundException "You are not in any room"), s))
  ∧ (∀ roomCode, playerToRoom s !! sid = Some roomCode → roomCode ≠ EmptyString →
     ∃ room player,
       rooms s !! roomCode = Some room ∧ player ∈ players room ∧ sessionId player = sid
       ∧ (status room = WAITING →
          getValidMoves sid s = (Throw (NotFoundException "Game not found"), s))
       ∧ (status room = PLAYING →
          ∃ game, gameState room = Some game
                  ∧ getValidMoves sid s
                    = (Ok (LudoGameService.getValidMoves game (player_color player)), s))).
Proof.
  intros Hreach.
  destruct (reachable_shape s Hreach) as [Hshape Hexact].
  split_and!.
  - intros r s'. unfold getValidMoves. unfold_method. cbn.
    destruct (nonEmpty _); cbn; [|by intros [= _ <-]].
    destruct (rooms s !! _) as [room|]; cbn; [|by intros [= _ <-]].
    destruct (gameState room); cbn; [|by intros [= _ <-]].
    destruct (find _ _); cbn; by intros [= _ <-].
  - intros Hnone. unfold getValidMoves. unfold_method. cbn. by rewrite Hnone.
  - intros roomCode Hsid Hne.
    destruct (bound_lookup s sid roomCode Hexact Hsid)
      as (room & i & player & Hroom & Hfind & Hi & Hs).
    exists room, player.
    assert (nonEmpty (playerToRoom s !! sid) = Some roomCode) as Hcode.
    { unfold nonEmpty. rewrite Hsid. by rewrite decide_False. }
    destruct (Hshape roomCode room Hroom) as (_ & _ & Hgame).
    split_and!; [done|by eapply list_elem_of_lookup_2|done|..].
    + intros Hst. destruct Hgame as [[_ Hnone]|[? _]]; [|congruence].
      unfold getValidMoves. unfold_method. cbn. rewrite Hcode. cbn. rewrite Hroom. cbn.
      by rewrite Hnone.
    + intros Hst. destruct Hgame as [[? _]|[_ [game Hgame]]]; [congruence|].
      exists game. split; [done|].
      unfold getValidMoves, find. unfold_method. cbn. rewrite Hcode. cbn. rewrite Hroom. cbn.
      rewrite Hgame. cbn. by rewrite Hfind.
Qed.

Lemma getValidMoves_only_reads_witness :
  (∀ r s', getValidMoves "s-1" table = (r, s') → s' = table)
  ∧ (playerToRoom table !! "s-1" = None →
     getValidMoves "s-1" table
     = (Throw (NotFoundException "You are not in any room"), table))
  ∧ (∀ roomCode, playerToRoom table !! "s-1" = Some roomCode → roomCode ≠ EmptyString →
     ∃ room player,
       rooms table !! roomCode = Some room ∧ player ∈ players room
       ∧ sessionId player = "s-1"
       ∧ (status room = WAITING →
          getValidMoves "s-1" table = (Throw (NotFoundException "Game not found"), table))
       ∧ (status room = PLAYING →
          ∃ game, gameState room = Some game
                  ∧ getValidMoves "s-1" table
                    = (Ok (LudoGameService.getValidMoves game (player_color player)),
                       table))).
Proof. apply (getValidMoves_only_reads "s-1" table), table_reachable. Defined.

Lemma generateRoomCode_first (draws : list string) (rs : gmap string Room) (c : string) :
  generateRoomCode draws rs = Some c →
  ∃ before after, draws = before ++ c :: after
                  ∧ Forall (λ d, is_Some (rs !! d)) before ∧ rs !! c = None.
Proof.
  induction draws as [|d draws IH]; [done|]. simpl.
  destruct (decide (is_Some (rs !! d))) as [Hd|Hd].
  - intros (before & after & -> & Hbefore & Hc)%IH.
    exists (d :: before), after. split_and!; [done| |done]. by apply Forall_cons.
  - intros [= ->]. exists [], draws. split_and!; [done..|]. by apply eq_None_not_Some.
Qed.

Lemma generateRoomCode_None (draws : list string) (rs : gmap string Room) :
  generateRoomCode draws rs = None ↔ Forall (λ d, is_Some (rs !! d)) draws.
Proof.
  induction draws as [|d draws IH]; simpl.
  - split; [by constructor|done].
  - destruct (decide (is_Some (rs !! d))) as [Hd|Hd].
    + rewrite IH. split; [by constructor|]. by intros [_ ?]%Forall_cons.
    + split; [done|]. by intros [? _]%Forall_cons.
Qed.

(** X22. [createRoom] throws Conflict and changes nothing for a session
    that is already in a room.  Otherwise it takes the first code drawn
    that no room uses, so it never overwrites a room: it files a new
    Waiting room without a game under that code, whose only player is
    the caller as admin, not ready, and maps the session to it; the
    other rooms and sessions stay, and [getRoom] finds the room.  It
    keeps drawing as long as the codes drawn are in use. *)
Theorem createRoom_spec (draws : list string) (playerId roomId : string) (now : Z)
    (playerName : string) (playerColor : PlayerColor) (maxPlayers : Z)
    (sid : string) (s : ServiceState) :
  (is_Some (playerToRoom s !! sid) →
   createRoom draws playerId roomId now playerName playerColor maxPlayers sid s
   = Some (Throw (ConflictException "You are already in a room"), s))
  ∧ (playerToRoom s !! sid = None →
     (createRoom draws playerId roomId now playerName playerColor maxPlayers sid s = None
      ↔ Forall (λ d, is_Some (rooms s !! d)) draws)
     ∧ ∀ r s',
         createRoom draws playerId roomId now playerName playerColor maxPlayers sid s
         = Some (r, s') →
         ∃ roomCode before after,
           draws = before ++ roomCode :: after
           ∧ Forall (λ d, is_Some (rooms s !! d)) before
           ∧ rooms s !! roomCode = None
           ∧ let admin := mkPlayer playerId playerName playerColor false true now sid in
             let room := mkRoom roomId roomCode playerId [admin] maxPlayers WAITING
                           now now None in
             r = Ok room
             ∧ s' = mkService (<[roomCode := room]> (rooms s))
                      (<[sid := roomCode]> (playerToRoom s))
             ∧ getRoom roomCode s' = (Ok room, s')
             ∧ (∀ code', code' ≠ roomCode → rooms s' !! code' = rooms s !! code')
             ∧ (∀ sid', sid' ≠ sid → playerToRoom s' !! sid' = playerToRoom s !! sid')).
Proof.
  unfold createRoom. split.
  - intros Hin. by rewrite decide_True.
  - intros Hnone. rewrite decide_False by (rewrite Hnone; by intros [? ?]).
    destruct (generateRoomCode draws (rooms s)) as [roomCode|] eqn:Hcode.
    + split.
      * split; [done|]. intros Hall%generateRoomCode_None. congruence.
      * unfold_method. cbn. intros r s' [= <- <-].
        apply generateRoomCode_first in Hcode as (before & after & -> & Hbefore & Hfree).
        exists roomCode, before, after. split_and!; [done..| | |].
        -- unfold getRoom. unfold_method. cbn. by rewrite lookup_insert_eq.
        -- intros code' Hne. cbn. by rewrite lookup_insert_ne.
        -- intros sid' Hne. cbn. by rewrite lookup_insert_ne.
    + split; [|done]. split; [intros _|done]. by apply generateRoomCode_None.
Qed.

End Directory.

(* ===================================================================== *)
(** ** Cleaning up expired rooms                                          *)
(* ===================================================================== *)

Section Cleanup.
Import Examples MoreRooms.
Import RoomsService RoomsLookups.










End Cleanup.

(* ===================================================================== *)
(** ** The way round the board in the earlier engine                      *)
(* ===================================================================== *)

Section LegacyBoard.
Import Play.

(** X21. In the earlier engine a token on the ring always has a
    destination.  When its home-stretch entry lies between its cell and
    the cell reached by the roll, both included, it goes to 51 plus the
    steps counted from the entry: a token that stops exactly on the
    entry of its color is put on cell 51 of the ring, whatever its
    color.  Otherwise it advances on the ring and wraps after cell 51;
    the second, wrapping test of [passedHomeStretchEntry] never
    decides. *)
Theorem legacy_ring_destination (t : Token) (d : Z) :
  onRing t → 1 ≤ d ≤ 6 →
  let entry := LegacyEngine.getHomeStretchEntry (token_color t) in
  LegacyEngine.passedHomeStretchEntry (position t) d entry
  = bool_decide (position t ≤ entry ≤ position t + d)
  ∧ (position t ≤ entry ≤ position t + d →
     LegacyEngine.calculateNewPosition t d = Some (51 + (position t + d - entry)))
  ∧ (position t + d = entry → LegacyEngine.calculateNewPosition t d = Some 51)
  ∧ (¬ (position t ≤ entry ≤ position t + d) →
     LegacyEngine.calculateNewPosition t d = Some ((position t + d) mod 52)).
Proof.
  intros (Hpos & Hhome & Hlane & Hfin) Hd entry.
  assert (0 ≤ entry ≤ 51) as Hentry by (unfold entry; destruct (token_color t); simpl; lia).
  assert (LegacyEngine.passedHomeStretchEntry (position t) d entry
          = bool_decide (position t ≤ entry ≤ position t + d)) as Hpassed.
  { unfold LegacyEngine.passedHomeStretchEntry.
    repeat case_decide; repeat case_bool_decide; try done; lia. }
  assert (∀ p, LegacyEngine.calculateNewPosition t d = p ↔
               (if LegacyEngine.passedHomeStretchEntry (position t) d entry
                then Some (52 + LegacyEngine.calculateHomeStretchSteps (position t) d entry - 1)
                else Some (if decide (position t + d > 51) then position t + d - 52
                           else position t + d)) = p) as Hcalc.
  { intros p. unfold LegacyEngine.calculateNewPosition. by rewrite Hhome, Hfin, Hlane. }
  split_and!; [done|..].
  - intros Hin. apply Hcalc. rewrite Hpassed, bool_decide_eq_true_2 by done.
    unfold LegacyEngine.calculateHomeStretchSteps. rewrite decide_True by lia.
    f_equal. lia.
  - intros Hat. apply Hcalc. rewrite Hpassed, bool_decide_eq_true_2 by lia.
    unfold LegacyEngine.calculateHomeStretchSteps. rewrite decide_True by lia.
    f_equal. lia.
  - intros Hout. apply Hcalc. rewrite Hpassed, bool_decide_eq_false_2 by done.
    f_equal. case_decide.
    + apply Z.mod_unique with 1; lia.
    + symmetry. apply Z.mod_small. lia.
Qed.

Lemma legacy_ring_destination_witness :
  let t := mkToken "green-0" GREEN 10 false false false in
  let entry := LegacyEngine.getHomeStretchEntry (token_color t) in
  LegacyEngine.passedHomeStretchEntry (position t) 2 entry
  = bool_decide (position t ≤ entry ≤ position t + 2)
  ∧ (position t ≤ entry ≤ position t + 2 →
     LegacyEngine.calculateNewPosition t 2 = Some (51 + (position t + 2 - entry)))
  ∧ (position t + 2 = entry → LegacyEngine.calculateNewPosition t 2 = Some 51)
  ∧ (¬ (position t ≤ entry ≤ position t + 2) →
     LegacyEngine.calculateNewPosition t 2 = Some ((position t + 2) mod 52)).
Proof.
  apply (legacy_ring_destination (mkToken "green-0" GREEN 10 false false false) 2).
  - unfold onRing. simpl. repeat split; lia.
  - lia.
Defined.

End LegacyBoard.
